(** * CQ codes: escaping, serialisation, parsing and image pre-download

    A shallow embedding of [src/utils/CQcode.mjs].

    JavaScript strings are sequences of UTF-16 code units, and every regular
    expression of the file is written without the [u] flag, so it works on
    code units.  A string is therefore a list of code units, each an [N]. *)

From Stdlib Require Import Ascii String.
From Stdlib Require DecimalString.
From Stdlib Require Import List NArith ZArith Arith Bool Lia Permutation.
Import ListNotations.

(** ** Strings *)

Module JsString.

Definition jsstring := list N.

(** An ASCII literal of the source as code units. *)
Definition lit (s : string) : jsstring :=
  map N_of_ascii (list_ascii_of_string s).

Definition jsstring_eqb (a b : jsstring) : bool :=
  if list_eq_dec N.eq_dec a b then true else false.

(** [Array.prototype.join] on an array of strings. *)
Fixpoint join (sep : jsstring) (l : list jsstring) : jsstring :=
  match l with
  | [] => []
  | [x] => x
  | x :: rest => x ++ sep ++ join sep rest
  end.

(** [String.prototype.split] with a separator of one code unit: the pieces
    between the occurrences of the separator; never the empty array. *)
Fixpoint split (sep : N) (s : jsstring) : list jsstring :=
  match s with
  | [] => [[]]
  | c :: s' =>
      if N.eqb c sep then [] :: split sep s'
      else match split sep s' with
           | [] => [[c]]
           | p :: ps => (c :: p) :: ps
           end
  end.

End JsString.
Export JsString.

(** ** Regular expressions

    The backtracking matcher of ECMAScript, for the constructs the file
    uses: the empty pattern, a code unit, a character class (possibly
    negated) given by ranges, sequence, alternation, the greedy star and
    capture groups.  A matcher takes the input that is left, the captures
    and a continuation, which stands for the rest of the pattern. *)

Module Regex.

Inductive regex : Type :=
| Eps
| Chr (c : N)
| Cls (negated : bool) (ranges : list (N * N))
| Seq (r1 r2 : regex)
| Alt (r1 r2 : regex)
| Star (r : regex)
| Group (i : nat) (r : regex).

(** [r+] *)
Definition Plus (r : regex) : regex := Seq r (Star r).

(** A pattern that is a literal text. *)
Definition Lit (s : jsstring) : regex :=
  fold_right (fun c r => Seq (Chr c) r) Eps s.

Fixpoint in_ranges (ranges : list (N * N)) (c : N) : bool :=
  match ranges with
  | [] => false
  | (lo, hi) :: rest => (N.leb lo c && N.leb c hi) || in_ranges rest c
  end.

Definition cls_accepts (negated : bool) (ranges : list (N * N)) (c : N) : bool :=
  if negated then negb (in_ranges ranges c) else in_ranges ranges c.

(** The captures of a match: the text of each group that took part. *)
Definition captures := list (nat * jsstring).

Definition capture (caps : captures) (i : nat) : option jsstring :=
  match find (fun p => Nat.eqb (fst p) i) caps with
  | Some p => Some (snd p)
  | None => None
  end.

(** What a successful match leaves: the input after it and the captures. *)
Definition mstate : Type := jsstring * captures.

Definition cont := jsstring -> captures -> option mstate.

(** The greedy star: one more iteration is tried first, and an iteration
    that consumes nothing is rejected, as ECMAScript's RepeatMatcher does;
    when no further iteration leads to a match, the continuation runs.  The
    counter bounds the iterations by the length of the input, which
    iterations that each consume something cannot exceed. *)
Fixpoint rstar (m : jsstring -> captures -> cont -> option mstate)
    (n : nat) (s : jsstring) (caps : captures) (k : cont) : option mstate :=
  match n with
  | O => k s caps
  | S n' =>
      match m s caps (fun s' caps' =>
                        if Nat.ltb (length s') (length s)
                        then rstar m n' s' caps' k
                        else None) with
      | Some st => Some st
      | None => k s caps
      end
  end.

Fixpoint rmatch (r : regex) (s : jsstring) (caps : captures) (k : cont)
    : option mstate :=
  match r with
  | Eps => k s caps
  | Chr c =>
      match s with
      | x :: s' => if N.eqb x c then k s' caps else None
      | [] => None
      end
  | Cls negated ranges =>
      match s with
      | x :: s' => if cls_accepts negated ranges x then k s' caps else None
      | [] => None
      end
  | Seq r1 r2 => rmatch r1 s caps (fun s' caps' => rmatch r2 s' caps' k)
  | Alt r1 r2 =>
      match rmatch r1 s caps k with
      | Some st => Some st
      | None => rmatch r2 s caps k
      end
  | Star r' => rstar (rmatch r') (length s) s caps k
  | Group i r' =>
      rmatch r' s caps
        (fun s' caps' =>
           k s' ((i, firstn (length s - length s') s) :: caps'))
  end.

(** A match of [r] at the start of [s]. *)
Definition match_here (r : regex) (s : jsstring) : option mstate :=
  rmatch r s [] (fun s' caps => Some (s', caps)).

(** [String.prototype.replace] with a global regular expression and a
    replacement string without [$]: every match, found from left to right,
    is replaced; the search resumes after the match, one code unit further
    when the match is empty.  [skip] counts the code units of the current
    match that are still to be passed. *)
Fixpoint replace_from (r : regex) (rep : jsstring) (skip : nat)
    (s : jsstring) : jsstring :=
  match s with
  | [] =>
      match skip, match_here r [] with
      | O, Some _ => rep
      | _, _ => []
      end
  | c :: s' =>
      match skip with
      | S n => replace_from r rep n s'
      | O =>
          match match_here r s with
          | Some (rest, _) =>
              match length s - length rest with
              | O => rep ++ c :: replace_from r rep 0 s'
              | S n => rep ++ replace_from r rep n s'
              end
          | None => c :: replace_from r rep 0 s'
          end
      end
  end.

Definition replace (r : regex) (rep : jsstring) (s : jsstring) : jsstring :=
  replace_from r rep 0 s.

End Regex.
Export Regex.

(** ** Values and containers *)

Module Js.

(** The values a field of a CQ code holds in this file: [undefined], [null],
    strings, numbers and the [URL] objects that [pathToFileURL] returns,
    whose [ToString] is their [href].  [VNum n] is an integral number that
    a double holds exactly (below [2^53] in magnitude), whose [ToString] is
    its decimal numeral. *)
Inductive value : Type :=
| VUndefined
| VNull
| VStr (s : jsstring)
| VNum (n : Z)
| VUrl (href : jsstring).

(** The decimal numeral of an integer, with a minus sign when it is
    negative.  It is the [ToString] of the number [n] when [n] is a safe
    integer ([Number.isSafeInteger], below [2^53] in magnitude); a number
    beyond that is rounded by the double and from [1e21] on is printed with
    an exponent, which this function does not describe. *)
Definition decimal (n : Z) : jsstring :=
  lit (DecimalString.NilZero.string_of_int (Z.to_int n)).

(** [ToString] as [Array.prototype.join] applies it to an element:
    [undefined] and [null] give the empty string. *)
Definition join_to_string (v : value) : jsstring :=
  match v with
  | VUndefined | VNull => []
  | VStr s => s
  | VNum n => decimal n
  | VUrl href => href
  end.

(** lodash [_.isNil] *)
Definition isNil (v : value) : bool :=
  match v with
  | VUndefined | VNull => true
  | _ => false
  end.

(** The entries of a [Map], in insertion order; writing an existing key
    keeps its place. *)
Definition entries := list (jsstring * value).

Fixpoint map_get (k : jsstring) (m : entries) : value :=
  match m with
  | [] => VUndefined
  | (k', v) :: m' => if jsstring_eqb k' k then v else map_get k m'
  end.

Fixpoint map_has (k : jsstring) (m : entries) : bool :=
  match m with
  | [] => false
  | (k', _) :: m' => jsstring_eqb k' k || map_has k m'
  end.

Fixpoint map_set (k : jsstring) (v : value) (m : entries) : entries :=
  match m with
  | [] => [(k, v)]
  | (k', v') :: m' =>
      if jsstring_eqb k' k then (k', v) :: m' else (k', v') :: map_set k v m'
  end.

Fixpoint map_delete (k : jsstring) (m : entries) : entries :=
  match m with
  | [] => []
  | (k', v') :: m' =>
      if jsstring_eqb k' k then m' else (k', v') :: map_delete k m'
  end.

(** [new Map(iterable)] *)
Definition map_of_entries (l : entries) : entries :=
  fold_left (fun m kv => map_set (fst kv) (snd kv) m) l [].

(** *** Plain objects

    The own properties of a plain object, as [Object.entries] lists them:
    the keys that are array indices first, in ascending numeric order, then
    the other keys in the order of their creation. *)

Definition is_digit (c : N) : bool := N.leb 48%N c && N.leb c 57%N.

Definition digits_value (s : jsstring) : N :=
  fold_left (fun acc c => (acc * 10 + (c - 48))%N) s 0%N.

(** An array index is the canonical numeral of an integer below [2^32 - 1]. *)
Definition array_index (k : jsstring) : option N :=
  match k with
  | [] => None
  | c :: rest =>
      if forallb is_digit k
         && (negb (N.eqb c 48%N) || match rest with [] => true | _ => false end)
         && Nat.leb (length k) 10
         && N.ltb (digits_value k) 4294967295%N
      then Some (digits_value k)
      else None
  end.

Definition proto_key : jsstring := Eval cbv in lit "__proto__".

(** A new property takes its place in the order of [Object.entries]. *)
Fixpoint obj_insert (k : jsstring) (v : value) (o : entries) : entries :=
  match o with
  | [] => [(k, v)]
  | (k', v') :: o' =>
      match array_index k, array_index k' with
      | Some i, Some i' =>
          if N.ltb i i' then (k, v) :: o else (k', v') :: obj_insert k v o'
      | Some _, None => (k, v) :: o
      | None, _ => (k', v') :: obj_insert k v o'
      end
  end.

(** The assignment [obj[k] = v] on an object whose prototype is
    [Object.prototype]: the key [__proto__] reaches the accessor of the
    prototype, which ignores a value that is neither an object nor [null]
    and otherwise changes the prototype; no own property is created. *)
Definition obj_set (k : jsstring) (v : value) (o : entries) : entries :=
  if jsstring_eqb k proto_key then o
  else if map_has k o then map_set k v o
  else obj_insert k v o.

End Js.
Export Js.

(** ** The class [CQCode] *)

Module CQ.

(** How a call ends: it returns, it throws, or (for the model of a loop) the
    iterations allowed did not suffice. *)
Inductive outcome (A : Type) : Type :=
| Returns (a : A)
| Throws (e : jsstring)
| OutOfFuel.

Arguments Returns {A} a.
Arguments Throws {A} e.
Arguments OutOfFuel {A}.

Record CQCode : Type := mkCQCode { type : jsstring; data : entries }.

(** [constructor(type, data)]: [data] is a plain object or absent. *)
Definition new_CQCode (ty : jsstring) (d : option entries) : CQCode :=
  match d with
  | Some o => mkCQCode ty (map_of_entries o)
  | None => mkCQCode ty []
  end.

Definition get (c : CQCode) (key : jsstring) : value := map_get key (data c).

Definition set (c : CQCode) (key : jsstring) (v : value) : CQCode :=
  mkCQCode (type c) (map_set key v (data c)).

Definition mset (c : CQCode) (obj : entries) : CQCode :=
  fold_left (fun c' kv => set c' (fst kv) (snd kv)) obj c.

Definition del (c : CQCode) (key : jsstring) : CQCode :=
  mkCQCode (type c) (map_delete key (data c)).

(** *** [escape] and [unescape] *)

Definition amp : N := 38%N.
Definition comma : N := 44%N.
Definition equals : N := 61%N.
Definition lbracket : N := 91%N.
Definition rbracket : N := 93%N.

Definition ent_amp : jsstring := Eval cbv in lit "&amp;".
Definition ent_comma : jsstring := Eval cbv in lit "&#44;".
Definition ent_lbracket : jsstring := Eval cbv in lit "&#91;".
Definition ent_rbracket : jsstring := Eval cbv in lit "&#93;".
Definition space : jsstring := Eval cbv in lit " ".

(** [/(\ud83c[\udf00-\udfff])|(\ud83d[\udc00-\ude4f\ude80-\udeff])|[\u2600-\u2B55]/] *)
Definition re_pictograph : regex :=
  Alt (Group 1 (Seq (Chr 0xd83c%N) (Cls false [(0xdf00%N, 0xdfff%N)])))
      (Alt (Group 2 (Seq (Chr 0xd83d%N)
                         (Cls false [(0xdc00%N, 0xde4f%N);
                                     (0xde80%N, 0xdeff%N)])))
           (Cls false [(0x2600%N, 0x2B55%N)])).

Definition escape_str (str : jsstring) (insideCQ : bool) : jsstring :=
  let result :=
    replace (Chr rbracket) ent_rbracket
      (replace (Chr lbracket) ent_lbracket
         (replace (Chr amp) ent_amp str)) in
  if negb insideCQ then result
  else replace re_pictograph space (replace (Chr comma) ent_comma result).

(** [escape(str, insideCQ = false)]: anything that is not a string is
    returned as it is. *)
Definition escape (str : value) (insideCQ : bool) : value :=
  match str with
  | VStr s => VStr (escape_str s insideCQ)
  | _ => str
  end.

Definition unescape_str (str : jsstring) : jsstring :=
  replace (Lit ent_amp) [amp]
    (replace (Lit ent_rbracket) [rbracket]
       (replace (Lit ent_lbracket) [lbracket]
          (replace (Lit ent_comma) [comma] str))).

Definition unescape (str : value) : value :=
  match str with
  | VStr s => VStr (unescape_str s)
  | _ => str
  end.

Definition escapeInsideCQ (str : value) : value := escape str true.

(** *** [toString] *)

Definition toString (c : CQCode) : jsstring :=
  let list :=
    map (fun kv : jsstring * value =>
           join [equals]
             (map join_to_string
                (map escapeInsideCQ [VStr (fst kv); snd kv])))
      (filter (fun kv : jsstring * value => negb (isNil (snd kv))) (data c)) in
  let list := (lit "CQ:" ++ type c) :: list in
  lit "[" ++ join [comma] list ++ lit "]".

(** *** [from] *)

(** The regular expression of [from]: the text [[CQ:], group 1 with one or
    more code units other than a comma and the two brackets, group 2 with
    any number of fields, and the closing bracket.  A field is a comma, one
    or more code units other than a comma, an equals sign and the two
    brackets, an equals sign, and any number of code units other than a
    comma and the two brackets. *)
Definition re_cq : regex :=
  Seq (Lit (lit "[CQ:"))
    (Seq (Group 1 (Plus (Cls true [(comma, comma); (lbracket, lbracket);
                                   (rbracket, rbracket)])))
       (Seq (Group 2
               (Star (Seq (Chr comma)
                        (Seq (Plus (Cls true [(comma, comma); (equals, equals);
                                              (lbracket, lbracket);
                                              (rbracket, rbracket)]))
                           (Seq (Chr equals)
                              (Star (Cls true [(comma, comma);
                                               (lbracket, lbracket);
                                               (rbracket, rbracket)])))))))
          (Chr rbracket))).

(** The first match at or after the start of [s]: its captures and the
    input that follows it. *)
Fixpoint search (r : regex) (s : jsstring) : option (captures * jsstring) :=
  match match_here r s with
  | Some (rest, caps) => Some (caps, rest)
  | None =>
      match s with
      | [] => None
      | _ :: s' => search r s'
      end
  end.

(** [reg.exec(str)] for a global [reg] whose [lastIndex] is given: on a
    match, the captures and the new [lastIndex]. *)
Definition exec (r : regex) (str : jsstring) (lastIndex : nat)
    : option (captures * nat) :=
  if Nat.ltb (length str) lastIndex then None
  else match search r (skipn lastIndex str) with
       | Some (caps, rest) => Some (caps, length str - length rest)
       | None => None
       end.

Definition type_error : jsstring :=
  Eval cbv in lit "TypeError".

(** The iteratee of [_.transform]. *)
Definition from_pair (obj : entries) (kv : jsstring) : entries :=
  match split equals kv with
  | key :: value =>
      obj_set (unescape_str key) (VStr (unescape_str (join [equals] value))) obj
  | [] =>
      (* [key] is [undefined], which [unescape] returns as it is *)
      obj_set (lit "undefined") (VStr (unescape_str [])) obj
  end.

(** [_.filter] without a predicate keeps the truthy elements; a string is
    truthy when it is not empty. *)
Definition truthy (s : jsstring) : bool :=
  match s with [] => false | _ => true end.

Definition from_data (dataStr : jsstring) : entries :=
  fold_left from_pair (filter truthy (split comma dataStr)) [].

(** The loop [for (let match; (match = reg.exec(str)); )], the state being
    [reg.lastIndex] and [result]. *)
Fixpoint from_loop (fuel : nat) (str : jsstring) (lastIndex : nat)
    (result : list CQCode) : outcome (list CQCode) :=
  match fuel with
  | O => OutOfFuel
  | S fuel' =>
      match exec re_cq str lastIndex with
      | None => Returns result
      | Some (caps, lastIndex') =>
          match capture caps 1, capture caps 2 with
          | Some ty, Some dataStr =>
              from_loop fuel' str lastIndex'
                (result ++ [new_CQCode ty (Some (from_data dataStr))])
          | _, _ =>
              (* [split] on [undefined] *)
              Throws type_error
          end
      end
  end.

(** A match has at least one code unit, so the loop runs at most once for
    each code unit of [str] and once more. *)
Definition from (str : jsstring) : outcome (list CQCode) :=
  from_loop (S (length str)) str 0 [].

(** *** The builders *)

Definition str_img (file ty : value) : jsstring :=
  toString (new_CQCode (lit "image") (Some [(lit "file", file); (lit "type", ty)])).

Definition img (file : jsstring) (ty : value) : jsstring :=
  str_img (VStr file) ty.

Definition img64 (base64 : jsstring) (ty : value) : jsstring :=
  str_img (VStr (lit "base64://" ++ base64)) ty.

Definition video (file cover : value) : jsstring :=
  toString (new_CQCode (lit "video")
              (Some [(lit "file", file); (lit "cover", cover)])).

Definition share (url title content image : value) : jsstring :=
  toString (new_CQCode (lit "share")
              (Some [(lit "url", url); (lit "title", title);
                     (lit "content", content); (lit "image", image)])).

Definition at_ (qq : value) : jsstring :=
  toString (new_CQCode (lit "at") (Some [(lit "qq", qq)])).

Definition atAll : jsstring := lit "[CQ:at,qq=all]".

Definition reply (id : value) : jsstring :=
  toString (new_CQCode (lit "reply") (Some [(lit "id", id)])).

Definition record (file : value) : jsstring :=
  toString (new_CQCode (lit "record") (Some [(lit "file", file)])).

End CQ.
Export CQ.

(** ** [imgPreDl]

    The collaborators of [imgPreDl] are not part of this file: the cache
    ([getCache], [createCache]), the transport ([retryGet]), the logger
    ([logError]), Node's [pathToFileURL] and the limiter [dlImgLimit].  A
    call is a function of the state of the outside world that returns or
    throws; the calls made are recorded, in order, in a trace. *)

Module Prefetch.

Inductive res (E A : Type) : Type :=
| Ok (a : A)
| Err (e : E).

Arguments Ok {E A} a.
Arguments Err {E A} e.

Section Collaborators.

Context {world error config bytes : Type}.

(** [{ responseType: 'arraybuffer', ...config }] *)
Record request : Type :=
  mkRequest { responseType : jsstring; spread : config }.

Inductive payload : Type :=
| LogMessage (s : jsstring)
| LogThrown (e : error).

Inductive event : Type :=
| EvGetCache (url : jsstring)
| EvLimitEnter
| EvRetryGet (url : jsstring) (req : request)
| EvLimitLeave
| EvCreateCache (url : jsstring) (content : bytes)
| EvLogError (p : payload).

Record state : Type := mkState { ext : world; trace : list event }.

Variable getCache : jsstring -> world -> res error (option jsstring) * world.
Variable retryGet : jsstring -> request -> world -> res error bytes * world.
Variable createCache :
  jsstring -> bytes -> world -> res error jsstring * world.
Variable pathToFileURL : jsstring -> jsstring.
Variable logError : payload -> world -> world.

Definition M (A : Type) : Type := state -> res error A * state.

Definition ret {A : Type} (a : A) : M A := fun st => (Ok a, st).

Definition bind {A B : Type} (m : M A) (f : A -> M B) : M B :=
  fun st =>
    match m st with
    | (Ok a, st') => f a st'
    | (Err e, st') => (Err e, st')
    end.

(** A call of a collaborator, recorded in the trace. *)
Definition call {A : Type} (ev : event)
    (f : world -> res error A * world) : M A :=
  fun st =>
    let (r, w) := f (ext st) in (r, mkState w (trace st ++ [ev])).

(** [dlImgLimit(job)]: the job runs inside a slot of the limiter, which is
    given back whether the job returns or throws. *)
Definition dlImgLimit {A : Type} (job : M A) : M A :=
  fun st =>
    let (r, st') := job (mkState (ext st) (trace st ++ [EvLimitEnter])) in
    (r, mkState (ext st') (trace st' ++ [EvLimitLeave])).

Definition log (p : payload) (st : state) : state :=
  mkState (logError p (ext st)) (trace st ++ [EvLogError p]).

(** [!path] is false for a string that is not empty. *)
Definition truthy_path (path : option jsstring) : bool :=
  match path with
  | Some (_ :: _) => true
  | _ => false
  end.

Definition arraybuffer : jsstring := Eval cbv in lit "arraybuffer".

Definition log_message : jsstring :=
  Eval cbv in lit "[error] cq img pre-download".

(** The body of the [try] block: on a miss ([!path]) the download runs
    inside the limiter and its content goes to the cache. *)
Definition try_block (url : jsstring) (ty : value) (cfg : config)
    : M jsstring :=
  bind (call (EvGetCache url) (getCache url)) (fun path =>
  bind (match path with
        | Some (c :: p) => ret (c :: p)
        | _ =>
            let req := mkRequest arraybuffer cfg in
            bind (dlImgLimit (call (EvRetryGet url req) (retryGet url req)))
              (fun content =>
                 call (EvCreateCache url content) (createCache url content))
        end) (fun path' =>
  ret (toString
         (new_CQCode (lit "image")
            (Some [(lit "file", VUrl (pathToFileURL path'));
                   (lit "type", ty)]))))).

Definition imgPreDl (url : jsstring) (ty : value) (cfg : config)
    : M jsstring :=
  fun st =>
    match try_block url ty cfg st with
    | (Ok s, st') => (Ok s, st')
    | (Err e, st') =>
        let st'' := log (LogThrown e) (log (LogMessage log_message) st') in
        (Ok (toString
               (new_CQCode (lit "image")
                  (Some [(lit "file", VStr url); (lit "type", ty)]))),
         st'')
    end.

Definition is_log (ev : event) : bool :=
  match ev with EvLogError _ => true | _ => false end.

(** How often the logger was called. *)
Definition logs (st : state) : nat := length (filter is_log (trace st)).

Definition is_transport (ev : event) : bool :=
  match ev with EvRetryGet _ _ => true | _ => false end.

Definition is_limiter (ev : event) : bool :=
  match ev with EvLimitEnter | EvLimitLeave => true | _ => false end.

(** The transport is only called inside a slot of the limiter, and a slot
    that was entered is left: [inside] tells whether a slot is held. *)
Fixpoint bracketed (inside : bool) (l : list event) : bool :=
  match l with
  | [] => negb inside
  | EvLimitEnter :: l' => negb inside && bracketed true l'
  | EvLimitLeave :: l' => inside && bracketed false l'
  | EvRetryGet _ _ :: l' => inside && bracketed inside l'
  | _ :: l' => bracketed inside l'
  end.

(** A stage of the download fails: the lookup, the transport after a miss,
    or the write to the cache after the transport. *)
Definition stage_fails (url : jsstring) (cfg : config) (w : world) : Prop :=
  (exists e w1, getCache url w = (Err e, w1))
  \/ (exists path w1,
        getCache url w = (Ok path, w1) /\ truthy_path path = false
        /\ ((exists e w2,
               retryGet url (mkRequest arraybuffer cfg) w1 = (Err e, w2))
            \/ (exists content w2 e w3,
                  retryGet url (mkRequest arraybuffer cfg) w1
                  = (Ok content, w2)
                  /\ createCache url content w2 = (Err e, w3)))).

End Collaborators.

End Prefetch.

(** ** Concurrent calls of [imgPreDl] *)

Module Limiter.

(** [const dlImgLimit = promiseLimit(4)]: one limiter for the module. *)
Definition capacity : nat := 4.

(** Where a call of [imgPreDl] stands: before the lookup, waiting for a slot
    of the limiter, with its transport call running inside a slot, after
    the transport call settled, and returned. *)
Inductive phase : Type :=
| Start
| Queued
| InFlight
| Settled
| Finished.

(** Modelled from the spec: the limiter of the [promise-limit] package,
    which is not part of the sources: a gate of fixed capacity that runs a
    job at once while a slot is free and otherwise queues it, and that on
    the end of a job gives the slot to the first job of the queue. *)
Record limiter : Type := mkLimiter { active : nat; queue : list nat }.

Record system : Type := mkSystem { calls : list phase; gate : limiter }.

Definition initial (n : nat) : system :=
  mkSystem (repeat Start n) (mkLimiter 0 []).

Fixpoint update (i : nat) (p : phase) (l : list phase) : list phase :=
  match l, i with
  | [], _ => []
  | _ :: l', O => p :: l'
  | x :: l', S i' => x :: update i' p l'
  end.

Definition is_in_flight (p : phase) : bool :=
  match p with InFlight => true | _ => false end.

Definition count (cs : list phase) : nat := length (filter is_in_flight cs).

(** The transport calls that run at the same time. *)
Definition in_flight (s : system) : nat := count (calls s).

(** Modelled from the spec: what the limiter does when a call asks for a
    slot and when a job ends (the package [promise-limit] is not part of the
    sources).  From [imgPreDl] itself: a call that finds the image in the
    cache, or whose lookup throws, never asks for a slot, and [retryGet]
    runs only inside [dlImgLimit].  One step is what one call does between
    two points where it can be suspended. *)
Inductive step : system -> system -> Prop :=
| step_no_download i cs g :
    (* the cache has the image, or the lookup throws *)
    nth_error cs i = Some Start ->
    step (mkSystem cs g) (mkSystem (update i Finished cs) g)
| step_enter i cs a q :
    (* a miss while a slot is free: the transport call starts *)
    nth_error cs i = Some Start -> a < capacity ->
    step (mkSystem cs (mkLimiter a q))
         (mkSystem (update i InFlight cs) (mkLimiter (S a) q))
| step_wait i cs a q :
    (* a miss while every slot is taken *)
    nth_error cs i = Some Start -> capacity <= a ->
    step (mkSystem cs (mkLimiter a q))
         (mkSystem (update i Queued cs) (mkLimiter a (q ++ [i])))
| step_settle_idle i cs a :
    (* the transport call settles and nothing waits *)
    nth_error cs i = Some InFlight ->
    step (mkSystem cs (mkLimiter a []))
         (mkSystem (update i Settled cs) (mkLimiter (a - 1) []))
| step_settle_next i j cs a q :
    (* the transport call settles and its slot goes to the first waiting
       call *)
    nth_error cs i = Some InFlight ->
    step (mkSystem cs (mkLimiter a (j :: q)))
         (mkSystem (update j InFlight (update i Settled cs))
                   (mkLimiter (S (a - 1)) q))
| step_return i cs g :
    nth_error cs i = Some Settled ->
    step (mkSystem cs g) (mkSystem (update i Finished cs) g).

Inductive reachable (n : nat) : system -> Prop :=
| reach_initial : reachable n (initial n)
| reach_step s s' : reachable n s -> step s s' -> reachable n s'.

End Limiter.

(** * Definitions for the statements

    What the properties are stated with: the grammar of a code, the text
    that the specification describes, and the inputs of the examples. *)

(** ** Replacements written on the string *)

(** Replacing a code unit everywhere, written on the string itself. *)
Definition replace_unit (c : N) (rep : jsstring) (s : jsstring) : jsstring :=
  flat_map (fun x => if N.eqb x c then rep else [x]) s.

(** A literal pattern matches exactly when it is a prefix. *)
Fixpoint is_prefix (p s : jsstring) : bool :=
  match p, s with
  | [], _ => true
  | _ :: _, [] => false
  | a :: p', b :: s' => N.eqb b a && is_prefix p' s'
  end.

(** ** Pictographs *)

(** The length of the pictograph at the start of a string, [0] when there
    is none: a surrogate pair of the two emoji ranges or one code unit of
    the symbol range. *)
Definition pictograph_len (s : jsstring) : nat :=
  match s with
  | [] => 0
  | a :: t =>
      let symbol := if in_ranges [(0x2600%N, 0x2B55%N)] a then 1 else 0 in
      match t with
      | [] => symbol
      | b :: _ =>
          if N.eqb a 0xd83c%N && in_ranges [(0xdf00%N, 0xdfff%N)] b then 2
          else if N.eqb a 0xd83d%N
                  && in_ranges [(0xdc00%N, 0xde4f%N); (0xde80%N, 0xdeff%N)] b
               then 2
               else symbol
      end
  end.

(** Every pictograph replaced by one space, from left to right. *)
Fixpoint strip_pictographs (s : jsstring) : jsstring :=
  match s with
  | [] => []
  | a :: t =>
      match pictograph_len s with
      | 0 => a :: strip_pictographs t
      | 1 => space ++ strip_pictographs t
      | _ => space ++ match t with
                      | [] => []
                      | _ :: t' => strip_pictographs t'
                      end
      end
  end.

Fixpoint has_pictograph (s : jsstring) : bool :=
  match s with
  | [] => false
  | _ :: t => negb (Nat.eqb (pictograph_len s) 0) || has_pictograph t
  end.

(** ** Entities *)

(** The image of a code unit when the entities of the four special code
    units are switched on or off. *)
Definition enc (a l r c : bool) (x : N) : jsstring :=
  if N.eqb x amp then (if a then ent_amp else [x])
  else if N.eqb x lbracket then (if l then ent_lbracket else [x])
  else if N.eqb x rbracket then (if r then ent_rbracket else [x])
  else if N.eqb x comma then (if c then ent_comma else [x])
  else [x].

(** A code unit below the pictographs and the surrogates. *)
Definition low (x : N) : bool := N.ltb x 0x2600%N.

(** ** What a continuation of the matcher refuses *)

Definition rejects (p : N -> bool) (k : cont) : Prop :=
  forall x u caps, p x = true -> k (x :: u) caps = None.

Definition stops (p : N -> bool) (s : jsstring) : bool :=
  match s with
  | [] => true
  | x :: _ => negb (p x)
  end.

(** ** The grammar of a CQ code *)

(** A code unit of a type or of a value: anything but a comma and the two
    brackets; a code unit of a key: not an equals sign either. *)
Definition type_unit (x : N) : bool :=
  negb (N.eqb x comma) && negb (N.eqb x lbracket) && negb (N.eqb x rbracket).

Definition value_unit (x : N) : bool := type_unit x.

Definition key_unit (x : N) : bool :=
  negb (N.eqb x comma) && negb (N.eqb x equals)
  && negb (N.eqb x lbracket) && negb (N.eqb x rbracket).

Definition wf_type (ty : jsstring) : Prop :=
  ty <> [] /\ forallb type_unit ty = true.

Definition wf_field (kv : jsstring * jsstring) : Prop :=
  fst kv <> [] /\ forallb key_unit (fst kv) = true
  /\ forallb value_unit (snd kv) = true.

(** The text of one field and of a whole code. *)
Definition field (kv : jsstring * jsstring) : jsstring :=
  comma :: fst kv ++ equals :: snd kv.

Definition cq_open : jsstring := Eval cbv in lit "[CQ:".

Definition code_text (ty : jsstring) (kvs : list (jsstring * jsstring))
    : jsstring :=
  cq_open ++ ty ++ flat_map field kvs ++ [rbracket].

Definition cls_type : list (N * N) :=
  [(comma, comma); (lbracket, lbracket); (rbracket, rbracket)].

Definition cls_key : list (N * N) :=
  [(comma, comma); (equals, equals); (lbracket, lbracket);
   (rbracket, rbracket)].

Definition re_field : regex :=
  Seq (Chr comma)
    (Seq (Plus (Cls true cls_key))
       (Seq (Chr equals) (Star (Cls true cls_type)))).

(** What follows the fields in the pattern: only a closing bracket lets the
    match go on. *)
Definition wants_rbracket (k : cont) : Prop :=
  forall x u caps, N.eqb x rbracket = false -> k (x :: u) caps = None.

Definition cq_captures (ty : jsstring) (kvs : list (jsstring * jsstring))
    : captures :=
  [(2, flat_map field kvs); (1, ty)].

(** The code unit does not occur in the string. *)
Definition no_unit (sep : N) (s : jsstring) : bool :=
  forallb (fun x => negb (N.eqb x sep)) s.

Definition pair_text (kv : jsstring * jsstring) : jsstring :=
  fst kv ++ equals :: snd kv.

(** The object that [from] builds from the pairs of a well-formed code:
    each pair is cut at its first equals sign and both parts are
    unescaped. *)
Definition pairs_object (kvs : list (jsstring * jsstring)) : entries :=
  fold_left
    (fun obj kv =>
       obj_set (unescape_str (fst kv)) (VStr (unescape_str (snd kv))) obj)
    kvs [].

(** ** The codes of a text *)

(** A well-formed code starts the string. *)
Definition occurs_at (s : jsstring) : Prop :=
  exists ty kvs rest,
    wf_type ty /\ Forall wf_field kvs /\ s = code_text ty kvs ++ rest.

(** No well-formed code starts in [pre] when [tail] follows it. *)
Definition code_free (pre tail : jsstring) : Prop :=
  forall a b, pre = a ++ b -> b <> [] -> ~ occurs_at (b ++ tail).

Definition parsed_code : Type := jsstring * list (jsstring * jsstring).

(** The codes of a text as the specification describes them: the leftmost
    well-formed code, then the codes of the text that follows it. *)
Inductive parses : jsstring -> list parsed_code -> Prop :=
| parses_done s :
    (forall a b, s = a ++ b -> ~ occurs_at b) -> parses s []
| parses_code pre ty kvs rest ms :
    wf_type ty -> Forall wf_field kvs ->
    code_free pre (code_text ty kvs ++ rest) ->
    parses rest ms ->
    parses (pre ++ code_text ty kvs ++ rest) ((ty, kvs) :: ms).

(** The entity of a parsed code: the type as it is, the fields unescaped. *)
Definition entity_of (m : parsed_code) : CQCode :=
  new_CQCode (fst m) (Some (pairs_object (snd m))).

(** ** The text of an entity *)

(** The text of a value, of a field and of an entity, built field by
    field from the escaping functions of the program. *)
Definition value_text (v : value) : jsstring :=
  join_to_string (escape v true).

Definition serialized_field (kv : jsstring * value) : jsstring :=
  comma :: escape_str (fst kv) true ++ equals :: value_text (snd kv).

Definition present (kv : jsstring * value) : bool := negb (isNil (snd kv)).

Definition serialize_spec (c : CQCode) : jsstring :=
  cq_open ++ type c
    ++ flat_map serialized_field (filter present (data c)) ++ [rbracket].

(** The image of a code unit in the inside-field mode. *)
Definition all_on : N -> jsstring := enc true true true true.

Definition keys (o : entries) : list jsstring := map fst o.

(** The object that the assignments of the pairs of [l] build. *)
Definition object_of (l : entries) : entries :=
  fold_left (fun o kv => obj_set (fst kv) (snd kv) o) l [].

Definition text_of (kv : jsstring * value) : jsstring * jsstring :=
  (escape_str (fst kv) true, value_text (snd kv)).

(** A field that survives the round trip: a string value, a key that is
    not empty and has no equals sign, and no pictograph in either. *)
Definition string_field (kv : jsstring * value) : Prop :=
  fst kv <> [] /\ no_unit equals (fst kv) = true
  /\ has_pictograph (fst kv) = false
  /\ exists s, snd kv = VStr s /\ has_pictograph s = false.

Definition string_value (kv : jsstring * value) : Prop :=
  exists s, snd kv = VStr s.

(** A digit or a minus sign. *)
Definition numeral_unit (x : N) : bool := is_digit x || N.eqb x 45%N.

(** [Number.isSafeInteger]: the integers below [2^53] in magnitude, which a
    double holds exactly and whose [ToString] is their decimal numeral. *)
Definition safe_integer (n : Z) : Prop := (Z.abs n < 2 ^ 53)%Z.

(** ** The claims as the specification states them *)

Fixpoint contains (sub s : jsstring) : bool :=
  is_prefix sub s
  || match s with
     | [] => false
     | _ :: s' => contains sub s'
     end.

(** The string holds none of the four entities. *)
Definition entity_free (s : jsstring) : bool :=
  negb (contains ent_amp s) && negb (contains ent_comma s)
  && negb (contains ent_lbracket s) && negb (contains ent_rbracket s).

(** The three replacements of the plain mode, in their order. *)
Definition escape_plain_spec (s : jsstring) : jsstring :=
  replace_unit rbracket ent_rbracket
    (replace_unit lbracket ent_lbracket (replace_unit amp ent_amp s)).

(** The inside-field mode: the plain mode, then the comma, then the
    pictographs. *)
Definition escape_inside_spec (s : jsstring) : jsstring :=
  strip_pictographs (replace_unit comma ent_comma (escape_plain_spec s)).

(** The text of a value inside a field: a string escaped in the
    inside-field mode, anything else as [ToString] gives it. *)
Definition value_in_words (v : value) : jsstring :=
  match v with
  | VStr s => escape_inside_spec s
  | _ => join_to_string v
  end.

(** The text of an entity: [[CQ:] and the type; for each field in the order
    of insertion whose value is not nil a comma, the escaped key, an equals
    sign and the escaped value; the closing bracket. *)
Definition serialize_in_words (c : CQCode) : jsstring :=
  lit "[CQ:" ++ type c
    ++ flat_map
         (fun kv : jsstring * value =>
            lit "," ++ escape_inside_spec (fst kv)
              ++ lit "=" ++ value_in_words (snd kv))
         (filter (fun kv : jsstring * value => negb (isNil (snd kv)))
            (data c))
    ++ lit "]".

Definition reserved (x : N) : bool :=
  N.eqb x comma || N.eqb x equals || N.eqb x lbracket || N.eqb x rbracket
  || N.eqb x amp.

Definition reserved_free (s : jsstring) : bool :=
  forallb (fun x => negb (reserved x)) s.

(** The keys and the string values of the entity hold no reserved code
    unit. *)
Definition fields_reserved_free (c : CQCode) : Prop :=
  Forall (fun kv : jsstring * value =>
            reserved_free (fst kv) = true
            /\ forall s, snd kv = VStr s -> reserved_free s = true)
    (data c).

(** The same type and the same pairs of key and value. *)
Definition struct_eq (a b : CQCode) : Prop :=
  type a = type b /\ Permutation (data a) (data b).

(** A field of the amended round trip. *)
Definition roundtrip_field (kv : jsstring * value) : Prop :=
  fst kv <> [] /\ fst kv <> proto_key
  /\ reserved_free (fst kv) = true /\ has_pictograph (fst kv) = false
  /\ exists s, snd kv = VStr s
               /\ reserved_free s = true /\ has_pictograph s = false.

(** An image whose file is the symbol U+2600, and an image with plain
    fields. *)
Definition sun_image : CQCode :=
  mkCQCode (lit "image") [(lit "file", VStr [0x2600%N])].

Definition flash_image : CQCode :=
  mkCQCode (lit "image")
    [(lit "file", VStr (lit "a.png")); (lit "type", VStr (lit "flash"))].

(** ** Collaborators for the examples

    An empty cache and a transport that always fails; a cache that has the
    image. *)

Module PrefetchExamples.
Import Prefetch.

Definition url : jsstring := lit "http://x/y.png".

Definition empty_cache (_ : jsstring) (w : unit)
    : res jsstring (option jsstring) * unit := (Ok None, w).

Definition full_cache (_ : jsstring) (w : unit)
    : res jsstring (option jsstring) * unit :=
  (Ok (Some (lit "/cache/y.png")), w).

Definition failing_transport (_ : jsstring) (_ : request (config := unit))
    (w : unit) : res jsstring unit * unit :=
  (Err (lit "ECONNREFUSED"), w).

Definition store (_ : jsstring) (_ : unit) (w : unit)
    : res jsstring jsstring * unit := (Ok (lit "/cache/y.png"), w).

Definition file_url (path : jsstring) : jsstring := lit "file://" ++ path.

Definition silent (_ : payload (error := jsstring)) (w : unit) : unit := w.

Definition fresh : state (world := unit) (error := jsstring)
                         (config := unit) (bytes := unit) :=
  mkState tt [].

End PrefetchExamples.

Module LimiterExamples.
Import Limiter.

(** Twenty calls, of which five missed the cache: four transport calls run
    and the fifth call waits. *)
Definition misses (k : nat) : system :=
  mkSystem (repeat InFlight k ++ repeat Start (20 - k)) (mkLimiter k []).

Definition busy : system :=
  mkSystem (repeat InFlight 4 ++ Queued :: repeat Start 15) (mkLimiter 4 [4]).

End LimiterExamples.

(** ** Inputs of the further examples *)

(** An image whose file is a link with a query, and a reply that also has
    a field set to [undefined]. *)
Definition query_image : CQCode :=
  mkCQCode (lit "image")
    [(lit "file", VStr (lit "http://x/y.png?a=1&b=[2],3"))].

Definition reply_with_nil : CQCode :=
  mkCQCode (lit "reply")
    [(lit "id", VStr (lit "9")); (lit "text", VUndefined)].

(** A field that is nil or survives the round trip. *)
Definition nil_or_string_field (kv : jsstring * value) : Prop :=
  isNil (snd kv) = true \/ string_field kv.

(** The [type] argument of [img]: ['flash'], ['show'] or another string,
    or absent. *)
Definition variant (ty : option jsstring) : value :=
  match ty with
  | Some t => VStr t
  | None => VUndefined
  end.

Definition variant_fields (ty : option jsstring) : entries :=
  match ty with
  | Some t => [(lit "type", VStr t)]
  | None => []
  end.

Definition plain (s : jsstring) : Prop := has_pictograph s = false.

Definition plain_variant (ty : option jsstring) : Prop :=
  match ty with
  | Some t => plain t
  | None => True
  end.

(** ** A cache that keeps what it is given *)

Module CacheExamples.
Import Prefetch.

(** What [imgPreDl] relies on for a later call to find an earlier download:
    the path that [createCache] returns is not empty and is what [getCache]
    returns afterwards for the same url. *)
Definition cache_keeps {world error bytes : Type}
    (getCache : jsstring -> world -> res error (option jsstring) * world)
    (createCache : jsstring -> bytes -> world -> res error jsstring * world)
    : Prop :=
  forall url content w p w',
    createCache url content w = (Ok p, w') ->
    p <> [] /\ getCache url w' = (Ok (Some p), w').

(** A cache of one file: the world is the path stored, if any. *)
Definition one_file_lookup (_ : jsstring) (w : option jsstring)
    : res jsstring (option jsstring) * option jsstring := (Ok w, w).

Definition one_file_store (_ : jsstring) (_ : unit) (_ : option jsstring)
    : res jsstring jsstring * option jsstring :=
  (Ok (lit "/cache/y.png"), Some (lit "/cache/y.png")).

Definition working_transport (_ : jsstring) (_ : request (config := unit))
    (w : option jsstring) : res jsstring unit * option jsstring :=
  (Ok tt, w).

Definition quiet (_ : payload (error := jsstring)) (w : option jsstring)
    : option jsstring := w.

Definition empty : state (world := option jsstring) (error := jsstring)
                         (config := unit) (bytes := unit) :=
  mkState None [].

End CacheExamples.

(** ** A logger and a path conversion that may throw

    [Prefetch.imgPreDl] takes [pathToFileURL] and [logError] as functions
    that return.  Here are the same lines with both allowed to throw.  The
    call of [pathToFileURL] is inside the [try] block, so its error is
    caught like that of a stage.  The two calls of [logError] are inside
    the [catch] block, which nothing protects: an error of the logger ends
    the [async] function, whose promise rejects with it. *)

Module PrefetchThrow.
Import Prefetch.

Section Collaborators.

Context {world error config bytes : Type}.

Variable getCache : jsstring -> world -> res error (option jsstring) * world.
Variable retryGet :
  jsstring -> request (config := config) -> world -> res error bytes * world.
Variable createCache :
  jsstring -> bytes -> world -> res error jsstring * world.
Variable pathToFileURL : jsstring -> res error jsstring.
Variable logError :
  payload (error := error) -> world -> res error unit * world.

#[local] Abbreviation M' :=
  (M (world := world) (error := error) (config := config) (bytes := bytes)).

(** A call that touches nothing but may throw. *)
Definition throwing {A : Type} (r : res error A) : M' A := fun st => (r, st).

Definition try_block (url : jsstring) (ty : value) (cfg : config)
    : M' jsstring :=
  bind (call (EvGetCache url) (getCache url)) (fun path =>
  bind (match path with
        | Some (c :: p) => ret (c :: p)
        | _ =>
            let req := mkRequest arraybuffer cfg in
            bind (dlImgLimit (call (EvRetryGet url req) (retryGet url req)))
              (fun content =>
                 call (EvCreateCache url content) (createCache url content))
        end) (fun path' =>
  bind (throwing (pathToFileURL path')) (fun href =>
  ret (toString
         (new_CQCode (lit "image")
            (Some [(lit "file", VUrl href); (lit "type", ty)])))))).

(** The [catch] block: the second call of the logger is only reached when
    the first one returns. *)
Definition catch_block (e : error) : M' unit :=
  bind (call (EvLogError (LogMessage log_message))
          (logError (LogMessage log_message))) (fun _ =>
  call (EvLogError (LogThrown e)) (logError (LogThrown e))).

Definition imgPreDl (url : jsstring) (ty : value) (cfg : config)
    : M' jsstring :=
  fun st =>
    match try_block url ty cfg st with
    | (Ok s, st') => (Ok s, st')
    | (Err e, st') =>
        bind (catch_block e) (fun _ =>
        ret (toString
               (new_CQCode (lit "image")
                  (Some [(lit "file", VStr url); (lit "type", ty)])))) st'
    end.

(** The path the image is sent from: the one the lookup found, or the one
    the store returned for the content downloaded after a miss. *)
Definition cache_path (url : jsstring) (cfg : config) (w : world)
    (path : jsstring) : Prop :=
  (exists w1, getCache url w = (Ok (Some path), w1) /\ path <> [])
  \/ (exists found w1 content w2 w3,
         getCache url w = (Ok found, w1) /\ truthy_path found = false
         /\ retryGet url (mkRequest arraybuffer cfg) w1 = (Ok content, w2)
         /\ createCache url content w2 = (Ok path, w3)).

End Collaborators.

(** A logger whose own output fails. *)
Definition broken_logger (_ : payload (error := jsstring)) (w : unit)
    : res jsstring unit * unit := (Err (lit "EPIPE"), w).

End PrefetchThrow.

(** * Properties *)

#[local] Arguments N.eqb : simpl never.
#[local] Arguments N.leb : simpl never.
#[local] Arguments N.ltb : simpl never.

(** ** The matcher *)

Section ReplaceFacts.

Variable r : regex.
Variable rep : jsstring.

Lemma replace_from_skip (n : nat) (s : jsstring) :
  n <= length s -> replace_from r rep n s = replace_from r rep 0 (skipn n s).
Proof.
  revert s; induction n as [|n IH]; intros s Hn.
  - reflexivity.
  - destruct s as [|c s']; simpl in Hn; [lia|].
    simpl. apply IH. lia.
Qed.

Lemma replace_nil : match_here r [] = None -> replace r rep [] = [].
Proof. unfold replace; simpl. now intros ->. Qed.

Lemma replace_nomatch (c : N) (s : jsstring) :
  match_here r (c :: s) = None ->
  replace r rep (c :: s) = c :: replace r rep s.
Proof. unfold replace; simpl. now intros ->. Qed.

Lemma replace_match (m rest : jsstring) (caps : captures) :
  m <> [] ->
  match_here r (m ++ rest) = Some (rest, caps) ->
  replace r rep (m ++ rest) = rep ++ replace r rep rest.
Proof.
  intros Hm Hmatch. destruct m as [|c m']; [congruence|].
  unfold replace. simpl app in *. cbn [replace_from]. rewrite Hmatch.
  replace (length (c :: m' ++ rest) - length rest) with (S (length m'))
    by (cbn [length]; rewrite length_app; lia).
  rewrite replace_from_skip by (rewrite length_app; lia).
  rewrite skipn_app, skipn_all, Nat.sub_diag. reflexivity.
Qed.

End ReplaceFacts.

(** The matcher reaches a result only through its continuation, and sees
    the continuation only through its results. *)
Lemma rstar_ext m n :
  (forall s caps k1 k2,
      (forall s' caps', k1 s' caps' = k2 s' caps') ->
      m s caps k1 = m s caps k2) ->
  forall s caps k1 k2,
    (forall s' caps', k1 s' caps' = k2 s' caps') ->
    rstar m n s caps k1 = rstar m n s caps k2.
Proof.
  intros Hm. induction n as [|n IH]; intros s caps k1 k2 Hk; cbn [rstar].
  - apply Hk.
  - rewrite (Hm s caps _ (fun s' caps' =>
                            if Nat.ltb (length s') (length s)
                            then rstar m n s' caps' k2 else None)).
    + now rewrite Hk.
    + intros s' caps'. destruct (Nat.ltb _ _); [now apply IH|reflexivity].
Qed.

Lemma rmatch_ext r :
  forall s caps k1 k2,
    (forall s' caps', k1 s' caps' = k2 s' caps') ->
    rmatch r s caps k1 = rmatch r s caps k2.
Proof.
  induction r as [|c|negated ranges|r1 IH1 r2 IH2|r1 IH1 r2 IH2|r IH|i r IH];
    intros s caps k1 k2 Hk; cbn [rmatch].
  - apply Hk.
  - destruct s as [|x s]; [reflexivity|]. now rewrite Hk.
  - destruct s as [|x s]; [reflexivity|]. now rewrite Hk.
  - apply IH1. intros s' caps'. now apply IH2.
  - now rewrite (IH1 s caps k1 k2 Hk), (IH2 s caps k1 k2 Hk).
  - now apply rstar_ext.
  - apply IH. intros s' caps'. apply Hk.
Qed.

Lemma rstar_fail m n :
  (forall s caps k, (forall s' caps', k s' caps' = None) -> m s caps k = None) ->
  forall s caps k,
    (forall s' caps', k s' caps' = None) -> rstar m n s caps k = None.
Proof.
  intros Hm. induction n as [|n IH]; intros s caps k Hk; cbn [rstar].
  - apply Hk.
  - rewrite Hm; [apply Hk|].
    intros s' caps'. destruct (Nat.ltb _ _); [now apply IH|reflexivity].
Qed.

Lemma rmatch_fail r :
  forall s caps k,
    (forall s' caps', k s' caps' = None) -> rmatch r s caps k = None.
Proof.
  induction r as [|c|negated ranges|r1 IH1 r2 IH2|r1 IH1 r2 IH2|r IH|i r IH];
    intros s caps k Hk; cbn [rmatch].
  - apply Hk.
  - destruct s as [|x s]; [reflexivity|]. now rewrite Hk; destruct (N.eqb x c).
  - destruct s as [|x s]; [reflexivity|].
    now rewrite Hk; destruct (cls_accepts negated ranges x).
  - apply IH1. intros s' caps'. now apply IH2.
  - now rewrite (IH1 s caps k Hk), (IH2 s caps k Hk).
  - now apply rstar_fail.
  - apply IH. intros s' caps'. apply Hk.
Qed.

(** The counter of the star does not cut a match short: any bound that is
    at least the length of the input gives the same result. *)
Lemma rstar_fuel r (len : nat) :
  forall s n n' caps k,
    length s <= len -> length s <= n -> length s <= n' ->
    rstar (rmatch r) n s caps k = rstar (rmatch r) n' s caps k.
Proof.
  induction len as [|len IH]; intros s n n' caps k Hlen Hn Hn'.
  - destruct s; [|cbn [length] in Hlen; lia].
    assert (H0 : forall j, rstar (rmatch r) j [] caps k = k [] caps).
    { intros [|j]; cbn [rstar]; [reflexivity|].
      now rewrite rmatch_fail. }
    now rewrite !H0.
  - destruct n as [|n], n' as [|n']; cbn [rstar].
    + reflexivity.
    + destruct s; [|cbn [length] in Hn; lia]. now rewrite rmatch_fail.
    + destruct s; [|cbn [length] in Hn'; lia]. now rewrite rmatch_fail.
    + rewrite (rmatch_ext r s caps _
                 (fun s' caps' =>
                    if Nat.ltb (length s') (length s)
                    then rstar (rmatch r) n' s' caps' k else None));
        [reflexivity|].
      intros s' caps'. destruct (Nat.ltb _ _) eqn:E; [|reflexivity].
      apply Nat.ltb_lt in E. apply IH; lia.
Qed.

(** A pattern of one code unit. *)
Lemma match_here_Chr (c x : N) (s : jsstring) :
  match_here (Chr c) (x :: s) = if N.eqb x c then Some (s, []) else None.
Proof. reflexivity. Qed.

Lemma replace_Chr (c : N) (rep s : jsstring) :
  replace (Chr c) rep s = replace_unit c rep s.
Proof.
  induction s as [|x s IH].
  - reflexivity.
  - unfold replace_unit; cbn [flat_map]. fold (replace_unit c rep s).
    destruct (N.eqb x c) eqn:E.
    + rewrite <- IH. apply (@replace_match _ _ [x] s []); [discriminate|].
      cbn [app]. rewrite match_here_Chr, E. reflexivity.
    + rewrite <- IH. cbn [app]. apply replace_nomatch.
      rewrite match_here_Chr, E. reflexivity.
Qed.

Lemma rmatch_Lit (p s : jsstring) (caps : captures) (k : cont) :
  rmatch (Lit p) s caps k =
  if is_prefix p s then k (skipn (length p) s) caps else None.
Proof.
  revert s; induction p as [|a p IH]; intros s.
  - reflexivity.
  - cbn [Lit fold_right rmatch]. destruct s as [|b s]; [reflexivity|].
    cbn [is_prefix length skipn]. destruct (N.eqb b a); [|reflexivity].
    apply IH.
Qed.

Lemma match_here_Lit (p s : jsstring) :
  match_here (Lit p) s =
  if is_prefix p s then Some (skipn (length p) s, []) else None.
Proof. unfold match_here. apply rmatch_Lit. Qed.

(** ** Pictographs *)

Lemma pictograph_len_le (s : jsstring) : pictograph_len s <= length s.
Proof.
  destruct s as [|a [|b t]]; cbn [pictograph_len length]; [lia| |].
  - destruct (in_ranges _ a); lia.
  - repeat match goal with |- context [if ?c then _ else _] => destruct c end;
      lia.
Qed.

Lemma match_here_pictograph (s : jsstring) :
  match pictograph_len s with
  | 0 => match_here re_pictograph s = None
  | n => exists caps, match_here re_pictograph s = Some (skipn n s, caps)
  end.
Proof.
  destruct s as [|a [|b t]]; unfold match_here, re_pictograph;
    cbn [pictograph_len rmatch cls_accepts].
  - reflexivity.
  - destruct (N.eqb a 55356); destruct (N.eqb a 55357);
      destruct (in_ranges _ a); cbn [skipn]; eauto.
  - destruct (N.eqb a 55356) eqn:E1; cbn [andb].
    + destruct (in_ranges [(57088%N, 57343%N)] b) eqn:E2; cbn [skipn]; eauto.
      destruct (N.eqb a 55357) eqn:E3.
      { apply N.eqb_eq in E1, E3. subst. discriminate. }
      cbn [andb]. destruct (in_ranges _ a); cbn [skipn]; eauto.
    + destruct (N.eqb a 55357) eqn:E3; cbn [andb].
      * destruct (in_ranges _ b); cbn [skipn]; eauto.
        destruct (in_ranges _ a); cbn [skipn]; eauto.
      * destruct (in_ranges _ a); cbn [skipn]; eauto.
Qed.

Lemma replace_pictograph_aux (n : nat) :
  forall s, length s <= n ->
            replace re_pictograph space s = strip_pictographs s.
Proof.
  induction n as [|n IH]; intros s Hlen.
  - destruct s; [|simpl in Hlen; lia]. apply replace_nil. reflexivity.
  - destruct s as [|a t]; [apply replace_nil; reflexivity|].
    cbn [length] in Hlen.
    pose proof (match_here_pictograph (a :: t)) as Hm.
    pose proof (pictograph_len_le (a :: t)) as Hle.
    cbn [strip_pictographs].
    destruct (pictograph_len (a :: t)) as [|[|k]] eqn:E.
    + rewrite replace_nomatch by exact Hm. f_equal. apply IH; lia.
    + destruct Hm as [caps Hm]. cbn [skipn] in Hm.
      rewrite (@replace_match _ _ [a] t caps); [|discriminate|exact Hm].
      f_equal. apply IH; lia.
    + destruct t as [|b t'].
      { cbn [pictograph_len] in E. destruct (in_ranges _ a); discriminate. }
      assert (k = 0) as ->.
      { cbn [pictograph_len] in E.
        repeat match type of E with
               | context [if ?c then _ else _] => destruct c
               end; congruence. }
      destruct Hm as [caps Hm]. cbn [skipn] in Hm.
      rewrite (@replace_match _ _ [a; b] t' caps); [|discriminate|exact Hm].
      f_equal. apply IH. cbn [length] in Hlen. lia.
Qed.

Lemma replace_pictograph (s : jsstring) :
  replace re_pictograph space s = strip_pictographs s.
Proof. apply (replace_pictograph_aux (length s)). lia. Qed.

Lemma strip_no_pictograph (s : jsstring) :
  has_pictograph s = false -> strip_pictographs s = s.
Proof.
  induction s as [|a t IH]; [reflexivity|].
  cbn [has_pictograph strip_pictographs]. intros H.
  apply orb_false_iff in H as [H1 H2].
  apply negb_false_iff, Nat.eqb_eq in H1. rewrite H1. f_equal. auto.
Qed.

(** ** Escaping, one code unit at a time *)

Lemma replace_unit_app (c : N) (rep a b : jsstring) :
  replace_unit c rep (a ++ b) = replace_unit c rep a ++ replace_unit c rep b.
Proof. apply flat_map_app. Qed.

Lemma replace_unit_flat_map (c : N) (rep : jsstring) (f : N -> jsstring)
    (s : jsstring) :
  replace_unit c rep (flat_map f s) =
  flat_map (fun x => replace_unit c rep (f x)) s.
Proof.
  induction s as [|x s IH]; [reflexivity|].
  cbn [flat_map]. rewrite replace_unit_app, IH. reflexivity.
Qed.

Lemma flat_map_singleton (s : jsstring) : flat_map (fun x => [x]) s = s.
Proof. induction s as [|x s IH]; [reflexivity|]. cbn. now rewrite IH. Qed.

Ltac special_cases x :=
  unfold enc;
  destruct (N.eqb x amp) eqn:Eamp;
  [apply N.eqb_eq in Eamp; subst x
  |destruct (N.eqb x lbracket) eqn:Elb;
   [apply N.eqb_eq in Elb; subst x
   |destruct (N.eqb x rbracket) eqn:Erb;
    [apply N.eqb_eq in Erb; subst x
    |destruct (N.eqb x comma) eqn:Ecm;
     [apply N.eqb_eq in Ecm; subst x|]]]].

Lemma replace_units_enc (in_field : bool) (s : jsstring) :
  (let result := replace_unit rbracket ent_rbracket
                   (replace_unit lbracket ent_lbracket
                      (replace_unit amp ent_amp s)) in
   if in_field then replace_unit comma ent_comma result else result)
  = flat_map (enc true true true in_field) s.
Proof.
  cbv zeta.
  assert (Hplain : forall c,
             flat_map (enc true true true c) s =
             (if c then replace_unit comma ent_comma else fun t => t)
               (replace_unit rbracket ent_rbracket
                  (replace_unit lbracket ent_lbracket
                     (replace_unit amp ent_amp s)))).
  { intros c. rewrite <- (flat_map_singleton s) at 2.
    rewrite !replace_unit_flat_map.
    destruct c; [rewrite replace_unit_flat_map|];
      apply flat_map_ext; intros x;
      special_cases x; try reflexivity;
      unfold replace_unit; cbn [flat_map];
      rewrite ?Eamp; cbn [flat_map app]; rewrite ?Elb; cbn [flat_map app];
      rewrite ?Erb; cbn [flat_map app]; rewrite ?Ecm; reflexivity. }
  rewrite Hplain. destruct in_field; reflexivity.
Qed.

Lemma escape_str_enc (s : jsstring) (insideCQ : bool) :
  escape_str s insideCQ =
  if insideCQ then strip_pictographs (flat_map (enc true true true true) s)
  else flat_map (enc true true true false) s.
Proof.
  unfold escape_str. rewrite !replace_Chr. destruct insideCQ; cbn [negb].
  - rewrite replace_pictograph.
    now rewrite <- (replace_units_enc true).
  - now rewrite <- (replace_units_enc false).
Qed.

(** ** Unescaping, one entity at a time *)

Lemma match_here_Lit_amp (p : jsstring) (x : N) (rest : jsstring) :
  N.eqb x amp = false -> match_here (Lit (amp :: p)) (x :: rest) = None.
Proof. intros E. rewrite match_here_Lit. cbn [is_prefix]. now rewrite E. Qed.

Lemma replace_flat_map (pat rep : jsstring) (f g : N -> jsstring)
    (s : jsstring) :
  match_here (Lit pat) [] = None ->
  (forall x rest, replace (Lit pat) rep (f x ++ rest) =
                  g x ++ replace (Lit pat) rep rest) ->
  replace (Lit pat) rep (flat_map f s) = flat_map g s.
Proof.
  intros Hnil Hstep. induction s as [|x s IH].
  - now apply replace_nil.
  - cbn [flat_map]. now rewrite Hstep, IH.
Qed.

Ltac scan_units :=
  unfold ent_amp, ent_comma, ent_lbracket, ent_rbracket; cbn [app];
  repeat first
    [ rewrite replace_nomatch by reflexivity
    | rewrite replace_nomatch by (apply match_here_Lit_amp; assumption) ];
  try reflexivity.

Ltac scan_entity e :=
  match goal with
  | |- replace (Lit ?p) ?rep (_ ++ ?rest) = _ =>
      rewrite (@replace_match (Lit p) rep e rest []);
      [reflexivity | discriminate | reflexivity]
  end.

Lemma unescape_step_comma (l r c : bool) (x : N) (rest : jsstring) :
  replace (Lit ent_comma) [comma] (enc true l r c x ++ rest) =
  enc true l r false x ++ replace (Lit ent_comma) [comma] rest.
Proof.
  special_cases x.
  - scan_units.
  - destruct l; scan_units.
  - destruct r; scan_units.
  - destruct c; [scan_entity ent_comma | scan_units].
  - scan_units.
Qed.

Lemma unescape_step_lbracket (l r : bool) (x : N) (rest : jsstring) :
  replace (Lit ent_lbracket) [lbracket] (enc true l r false x ++ rest) =
  enc true false r false x ++ replace (Lit ent_lbracket) [lbracket] rest.
Proof.
  special_cases x.
  - scan_units.
  - destruct l; [scan_entity ent_lbracket | scan_units].
  - destruct r; scan_units.
  - scan_units.
  - scan_units.
Qed.

Lemma unescape_step_rbracket (r : bool) (x : N) (rest : jsstring) :
  replace (Lit ent_rbracket) [rbracket] (enc true false r false x ++ rest) =
  enc true false false false x ++ replace (Lit ent_rbracket) [rbracket] rest.
Proof.
  special_cases x.
  - scan_units.
  - scan_units.
  - destruct r; [scan_entity ent_rbracket | scan_units].
  - scan_units.
  - scan_units.
Qed.

Lemma unescape_step_amp (x : N) (rest : jsstring) :
  replace (Lit ent_amp) [amp] (enc true false false false x ++ rest) =
  [x] ++ replace (Lit ent_amp) [amp] rest.
Proof.
  special_cases x.
  - scan_entity ent_amp.
  - scan_units.
  - scan_units.
  - scan_units.
  - scan_units.
Qed.

(** Unescaping undoes the entities, whichever of the three optional ones
    were written. *)
Lemma unescape_str_enc (l r c : bool) (s : jsstring) :
  unescape_str (flat_map (enc true l r c) s) = s.
Proof.
  unfold unescape_str.
  rewrite (@replace_flat_map ent_comma [comma] _ (enc true l r false))
    by (reflexivity || apply unescape_step_comma).
  rewrite (@replace_flat_map ent_lbracket [lbracket] _ (enc true false r false))
    by (reflexivity || apply unescape_step_lbracket).
  rewrite (@replace_flat_map ent_rbracket [rbracket] _
             (enc true false false false))
    by (reflexivity || apply unescape_step_rbracket).
  rewrite (@replace_flat_map ent_amp [amp] _ (fun x => [x]))
    by (reflexivity || apply unescape_step_amp).
  apply flat_map_singleton.
Qed.

(** ** Entities hold no pictograph *)

Lemma in_ranges_low (x : N) :
  low x = true ->
  in_ranges [(0x2600%N, 0x2B55%N)] x = false
  /\ in_ranges [(0xdf00%N, 0xdfff%N)] x = false
  /\ in_ranges [(0xdc00%N, 0xde4f%N); (0xde80%N, 0xdeff%N)] x = false
  /\ N.eqb x 0xd83c%N = false /\ N.eqb x 0xd83d%N = false.
Proof.
  unfold low. intros H. apply N.ltb_lt in H. cbn [in_ranges].
  repeat split;
    repeat match goal with
           | |- (_ || _)%bool = false => apply orb_false_iff; split
           | |- (_ && _)%bool = false => apply andb_false_iff
           | |- false = false => reflexivity
           end;
    try (left; apply N.leb_gt; lia);
    try (apply N.eqb_neq; lia).
Qed.

(** A pictograph is decided by two code units, and a low second one is as
    good as none. *)
Lemma pictograph_len_low_next (x y : N) (u : jsstring) :
  low y = true -> pictograph_len (x :: y :: u) = pictograph_len [x].
Proof.
  intros H. destruct (@in_ranges_low y H) as (_ & H1 & H2 & _).
  cbn [pictograph_len]. rewrite H1, H2, !andb_false_r. reflexivity.
Qed.

Lemma pictograph_len_low (x : N) (u : jsstring) :
  low x = true -> pictograph_len (x :: u) = 0.
Proof.
  intros H. destruct (@in_ranges_low x H) as (H0 & _ & _ & H3 & H4).
  destruct u; cbn [pictograph_len]; rewrite ?H0, ?H3, ?H4; reflexivity.
Qed.

Lemma pictograph_len_same_next (x y : N) (u v : jsstring) :
  pictograph_len (x :: y :: u) = pictograph_len (x :: y :: v).
Proof. reflexivity. Qed.

Lemma has_pictograph_low (l u : jsstring) :
  forallb low l = true -> has_pictograph (l ++ u) = has_pictograph u.
Proof.
  induction l as [|x l IH]; [reflexivity|].
  cbn [forallb app has_pictograph]. intros H.
  apply andb_true_iff in H as [Hx Hl].
  rewrite (@pictograph_len_low x (l ++ u) Hx). cbn. auto.
Qed.

(** The image of a code unit starts with the code unit itself or is an
    entity, made of low code units. *)
Lemma enc_shape (a l r c : bool) (x : N) :
  enc a l r c x = [x]
  \/ (low x = true /\ forallb low (enc a l r c x) = true
      /\ exists e es, enc a l r c x = e :: es).
Proof.
  special_cases x;
    try (destruct a); try (destruct l); try (destruct r); try (destruct c);
    try (now left);
    right; (split; [reflexivity | split; [reflexivity | eexists; eexists; reflexivity]]).
Qed.

Lemma pictograph_len_enc_next (a l r c : bool) (x y : N) (t : jsstring) :
  pictograph_len (x :: enc a l r c y ++ flat_map (enc a l r c) t)
  = pictograph_len (x :: y :: t).
Proof.
  destruct (enc_shape a l r c y) as [-> | (Hy & Hlow & e & es & E)].
  - reflexivity.
  - rewrite E in *. cbn [forallb] in Hlow.
    apply andb_true_iff in Hlow as [He _]. cbn [app].
    now rewrite !pictograph_len_low_next.
Qed.

Lemma has_pictograph_enc (a l r c : bool) (s : jsstring) :
  has_pictograph s = false ->
  has_pictograph (flat_map (enc a l r c) s) = false.
Proof.
  induction s as [|x t IH]; [reflexivity|].
  cbn [has_pictograph flat_map]. intros H.
  apply orb_false_iff in H as [Hx Ht]. specialize (IH Ht).
  destruct (enc_shape a l r c x) as [-> | (_ & Hlow & _)].
  - cbn [app has_pictograph]. rewrite IH, orb_false_r.
    destruct t as [|y t'].
    + exact Hx.
    + cbn [flat_map]. now rewrite pictograph_len_enc_next.
  - now rewrite has_pictograph_low.
Qed.

(** ** Stars of a character class *)

Section ClassStar.

Variable negated : bool.
Variable ranges : list (N * N).

Let p := cls_accepts negated ranges.
Let cls := Cls negated ranges.

Lemma rstar_cls_sound (n : nat) :
  forall s caps k st,
    rstar (rmatch cls) n s caps k = Some st ->
    exists run rest,
      s = run ++ rest /\ forallb p run = true /\ k rest caps = Some st.
Proof.
  induction n as [|n IH]; intros s caps k st H; cbn [rstar] in H.
  - exists [], s. auto.
  - destruct (rmatch cls s caps _) as [st'|] eqn:E.
    + injection H as ->. destruct s as [|x s']; [discriminate|].
      cbn [cls rmatch] in E. fold p in E.
      destruct (p x) eqn:Px; [|discriminate].
      destruct (Nat.ltb _ _); [|discriminate].
      apply IH in E as (run & rest & -> & Hrun & Hk).
      exists (x :: run), rest. cbn [forallb app]. rewrite Px, Hrun. auto.
    + exists [], s. auto.
Qed.

Lemma rstar_cls_greedy (run : jsstring) :
  forall n rest caps k,
    forallb p run = true -> stops p rest = true -> length run <= n ->
    rejects p k ->
    rstar (rmatch cls) n (run ++ rest) caps k = k rest caps.
Proof.
  induction run as [|x run IH]; intros n rest caps k Hrun Hstop Hn Hk.
  - cbn [app]. destruct n as [|n]; [reflexivity|]. cbn [rstar].
    destruct rest as [|y rest']; [reflexivity|].
    cbn [cls rmatch]. fold p. cbn [stops] in Hstop.
    apply negb_true_iff in Hstop. now rewrite Hstop.
  - cbn [forallb] in Hrun. apply andb_true_iff in Hrun as [Px Hrun].
    destruct n as [|n]; [cbn [length] in Hn; lia|].
    cbn [app rstar cls rmatch]. fold p. fold cls. rewrite Px.
    replace (Nat.ltb (length (run ++ rest)) (length (x :: run ++ rest)))
      with true by (symmetry; apply Nat.ltb_lt; cbn [length]; lia).
    rewrite IH by (auto; cbn [length] in Hn; lia).
    destruct (k rest caps) eqn:E; [reflexivity|].
    now apply Hk.
Qed.

Lemma rmatch_star_cls_sound s caps k st :
  rmatch (Star cls) s caps k = Some st ->
  exists run rest,
    s = run ++ rest /\ forallb p run = true /\ k rest caps = Some st.
Proof. cbn [rmatch]. apply rstar_cls_sound. Qed.

Lemma rmatch_star_cls_greedy run rest caps k :
  forallb p run = true -> stops p rest = true -> rejects p k ->
  rmatch (Star cls) (run ++ rest) caps k = k rest caps.
Proof.
  intros. cbn [rmatch]. apply rstar_cls_greedy; auto.
  rewrite length_app. lia.
Qed.

Lemma rmatch_plus_cls_sound s caps k st :
  rmatch (Plus cls) s caps k = Some st ->
  exists run rest,
    s = run ++ rest /\ run <> [] /\ forallb p run = true
    /\ k rest caps = Some st.
Proof.
  unfold Plus. destruct s as [|x s']; cbn [cls rmatch]; [discriminate|].
  fold p. fold cls. destruct (p x) eqn:Px; [|discriminate]. intros H.
  apply rstar_cls_sound in H as (run & rest & -> & Hrun & Hk).
  exists (x :: run), rest. cbn [forallb app]. rewrite Px, Hrun.
  repeat split; auto. discriminate.
Qed.

Lemma rmatch_plus_cls_greedy run rest caps k :
  run <> [] -> forallb p run = true -> stops p rest = true -> rejects p k ->
  rmatch (Plus cls) (run ++ rest) caps k = k rest caps.
Proof.
  intros Hne Hrun Hstop Hk. destruct run as [|x run]; [congruence|].
  cbn [forallb] in Hrun. apply andb_true_iff in Hrun as [Px Hrun].
  unfold Plus. cbn [app cls rmatch]. fold p. fold cls. rewrite Px.
  apply rstar_cls_greedy; auto. rewrite length_app. lia.
Qed.

End ClassStar.

(** ** The grammar of a CQ code *)

Lemma re_cq_eq :
  re_cq = Seq (Lit cq_open)
            (Seq (Group 1 (Plus (Cls true cls_type)))
               (Seq (Group 2 (Star re_field)) (Chr rbracket))).
Proof. reflexivity. Qed.

Lemma in_range_single (c x : N) (rest : list (N * N)) :
  in_ranges ((c, c) :: rest) x = N.eqb x c || in_ranges rest x.
Proof.
  cbn [in_ranges]. f_equal.
  destruct (N.eqb x c) eqn:E.
  - apply N.eqb_eq in E. subst. now rewrite N.leb_refl.
  - apply N.eqb_neq in E. apply andb_false_iff.
    destruct (N.leb c x) eqn:E1; [right|now left].
    apply N.leb_le in E1. apply N.leb_gt. lia.
Qed.

Lemma cls_type_unit (x : N) : cls_accepts true cls_type x = type_unit x.
Proof.
  unfold cls_accepts, cls_type, type_unit. rewrite !in_range_single.
  cbn [in_ranges]. rewrite orb_false_r, !negb_orb, andb_assoc. reflexivity.
Qed.

Lemma cls_key_unit (x : N) : cls_accepts true cls_key x = key_unit x.
Proof.
  unfold cls_accepts, cls_key, key_unit. rewrite !in_range_single.
  cbn [in_ranges]. rewrite orb_false_r, !negb_orb, !andb_assoc. reflexivity.
Qed.

Lemma forallb_pointwise (p q : N -> bool) (s : jsstring) :
  (forall x, p x = q x) -> forallb p s = forallb q s.
Proof.
  intros H. induction s as [|x s IH]; [reflexivity|].
  cbn [forallb]. now rewrite H, IH.
Qed.

Lemma forallb_cls_type (s : jsstring) :
  forallb (cls_accepts true cls_type) s = forallb type_unit s.
Proof. apply forallb_pointwise. intros x. apply cls_type_unit. Qed.

Lemma forallb_cls_key (s : jsstring) :
  forallb (cls_accepts true cls_key) s = forallb key_unit s.
Proof. apply forallb_pointwise. intros x. apply cls_key_unit. Qed.

Lemma rmatch_Seq r1 r2 s caps k :
  rmatch (Seq r1 r2) s caps k =
  rmatch r1 s caps (fun s' caps' => rmatch r2 s' caps' k).
Proof. reflexivity. Qed.

Lemma rmatch_Chr c x s caps k :
  rmatch (Chr c) (x :: s) caps k = if N.eqb x c then k s caps else None.
Proof. reflexivity. Qed.

Lemma rmatch_Chr_nil c caps k : rmatch (Chr c) [] caps k = None.
Proof. reflexivity. Qed.

Lemma rmatch_Group i r s caps k :
  rmatch (Group i r) s caps k =
  rmatch r s caps
    (fun s' caps' => k s' ((i, firstn (length s - length s') s) :: caps')).
Proof. reflexivity. Qed.

Lemma rmatch_Star r s caps k :
  rmatch (Star r) s caps k = rstar (rmatch r) (length s) s caps k.
Proof. reflexivity. Qed.

Lemma key_unit_not_equals x : key_unit x = true -> N.eqb x equals = false.
Proof.
  unfold key_unit. intros H.
  destruct (N.eqb x equals); [|reflexivity].
  rewrite andb_false_r in H. discriminate.
Qed.

Lemma type_unit_not x :
  type_unit x = true ->
  N.eqb x comma = false /\ N.eqb x lbracket = false
  /\ N.eqb x rbracket = false.
Proof.
  unfold type_unit. intros H.
  apply andb_true_iff in H as [H H3]. apply andb_true_iff in H as [H1 H2].
  now rewrite negb_true_iff in H1, H2, H3.
Qed.

Lemma key_unit_type_unit x : key_unit x = true -> type_unit x = true.
Proof.
  unfold key_unit, type_unit. intros H.
  apply andb_true_iff in H as [H H3]. apply andb_true_iff in H as [H H2].
  apply andb_true_iff in H as [H1 _]. now rewrite H1, H2, H3.
Qed.

(** *** One field *)

Lemma re_field_sound s caps k st :
  rmatch re_field s caps k = Some st ->
  exists kv rest,
    s = field kv ++ rest /\ wf_field kv /\ k rest caps = Some st.
Proof.
  unfold re_field. rewrite rmatch_Seq.
  destruct s as [|x s]; [discriminate|]. rewrite rmatch_Chr.
  destruct (N.eqb x comma) eqn:Ex; [|discriminate].
  apply N.eqb_eq in Ex. subst x. intros H.
  rewrite rmatch_Seq in H.
  apply rmatch_plus_cls_sound in H as (key & rest1 & -> & Hne & Hkey & H).
  rewrite rmatch_Seq in H. destruct rest1 as [|y rest1]; [discriminate|].
  rewrite rmatch_Chr in H. destruct (N.eqb y equals) eqn:Ey; [|discriminate].
  apply N.eqb_eq in Ey. subst y.
  apply rmatch_star_cls_sound in H as (value & rest & -> & Hvalue & H).
  exists (key, value), rest. unfold field, wf_field. cbn [fst snd].
  rewrite forallb_cls_key in Hkey. rewrite forallb_cls_type in Hvalue.
  repeat split; auto.
  cbn [app]. f_equal. rewrite <- app_assoc. reflexivity.
Qed.

Lemma re_field_greedy kv rest caps k :
  wf_field kv -> stops value_unit rest = true -> rejects value_unit k ->
  rmatch re_field (field kv ++ rest) caps k = k rest caps.
Proof.
  intros (Hne & Hkey & Hvalue) Hstop Hk. destruct kv as [key value].
  cbn [fst snd] in *. unfold re_field, field. cbn [app].
  rewrite rmatch_Seq, rmatch_Chr, N.eqb_refl, rmatch_Seq, <- app_assoc.
  rewrite rmatch_plus_cls_greedy; auto.
  - cbn [app]. rewrite rmatch_Seq, rmatch_Chr, N.eqb_refl.
    apply rmatch_star_cls_greedy; auto.
    + now rewrite forallb_cls_type.
    + destruct rest as [|x u]; [reflexivity|]. cbn [stops] in *.
      now rewrite cls_type_unit.
    + intros x u caps' Hx. apply Hk. now rewrite cls_type_unit in Hx.
  - now rewrite forallb_cls_key.
  - intros x u caps' Hx. rewrite cls_key_unit in Hx.
    rewrite rmatch_Seq, rmatch_Chr. now rewrite (key_unit_not_equals x Hx).
Qed.

(** *** The fields *)

Lemma re_field_needs_comma x u caps k :
  N.eqb x comma = false -> rmatch re_field (x :: u) caps k = None.
Proof. intros E. unfold re_field. now rewrite rmatch_Seq, rmatch_Chr, E. Qed.

Lemma rstar_fields_reject n x u caps k :
  wants_rbracket k -> N.eqb x comma = false -> N.eqb x rbracket = false ->
  rstar (rmatch re_field) n (x :: u) caps k = None.
Proof.
  intros Hk Hc Hr. destruct n as [|n]; cbn [rstar]; [now apply Hk|].
  rewrite re_field_needs_comma by exact Hc. now apply Hk.
Qed.

Lemma rstar_fields_sound n :
  forall s caps k st,
    rstar (rmatch re_field) n s caps k = Some st ->
    exists kvs rest,
      s = flat_map field kvs ++ rest /\ Forall wf_field kvs
      /\ k rest caps = Some st.
Proof.
  induction n as [|n IH]; intros s caps k st H; cbn [rstar] in H.
  - exists [], s. auto.
  - destruct (rmatch re_field s caps _) as [st'|] eqn:E.
    + injection H as ->.
      apply re_field_sound in E as (kv & rest1 & -> & Hkv & E).
      destruct (Nat.ltb _ _); [|discriminate].
      apply IH in E as (kvs & rest & -> & Hkvs & E).
      exists (kv :: kvs), rest. cbn [flat_map].
      rewrite <- app_assoc. auto.
    + exists [], s. auto.
Qed.

Lemma field_length kv : 0 < length (field kv).
Proof. unfold field. cbn [length]. lia. Qed.

Lemma rstar_fields_greedy kvs :
  forall n rest caps k,
    Forall wf_field kvs -> length kvs <= n -> wants_rbracket k ->
    rstar (rmatch re_field) n (flat_map field kvs ++ rbracket :: rest) caps k
    = k (rbracket :: rest) caps.
Proof.
  induction kvs as [|kv kvs IH]; intros n rest caps k Hwf Hn Hk.
  - cbn [flat_map app]. destruct n as [|n]; [reflexivity|]. cbn [rstar].
    now rewrite re_field_needs_comma by reflexivity.
  - destruct n as [|n]; [cbn [length] in Hn; lia|].
    inversion Hwf as [|? ? Hkv Hkvs]; subst.
    cbn [flat_map rstar]. rewrite <- app_assoc.
    rewrite re_field_greedy; auto.
    + replace (Nat.ltb _ _) with true.
      2:{ symmetry. apply Nat.ltb_lt. rewrite (length_app (field kv)).
          pose proof (field_length kv). lia. }
      rewrite IH by (auto; cbn [length] in Hn; lia).
      destruct (k (rbracket :: rest) caps) eqn:E; [reflexivity|].
      unfold field. cbn [app]. now apply Hk.
    + destruct kvs as [|kv' kvs']; reflexivity.
    + intros x u caps' Hx. apply type_unit_not in Hx as (Hc & _ & Hr).
      destruct (Nat.ltb _ _); [|reflexivity].
      now apply rstar_fields_reject.
Qed.

(** *** A whole code *)

Lemma firstn_prefix (a b : jsstring) :
  firstn (length (a ++ b) - length b) (a ++ b) = a.
Proof.
  rewrite length_app, Nat.add_sub, firstn_app, Nat.sub_diag, firstn_all.
  cbn [firstn]. apply app_nil_r.
Qed.

Lemma is_prefix_app (p s : jsstring) :
  is_prefix p s = true -> s = p ++ skipn (length p) s.
Proof.
  revert s; induction p as [|a p IH]; intros s H; [reflexivity|].
  destruct s as [|b s]; [discriminate|]. cbn [is_prefix] in H.
  apply andb_true_iff in H as [Hb H]. apply N.eqb_eq in Hb. subst b.
  cbn [length skipn app]. f_equal. now apply IH.
Qed.

Lemma match_here_cq_sound s rest caps :
  match_here re_cq s = Some (rest, caps) ->
  exists ty kvs,
    wf_type ty /\ Forall wf_field kvs
    /\ s = code_text ty kvs ++ rest /\ caps = cq_captures ty kvs.
Proof.
  unfold match_here. rewrite re_cq_eq, rmatch_Seq, rmatch_Lit.
  destruct (is_prefix cq_open s) eqn:Hopen; [|discriminate].
  apply is_prefix_app in Hopen. revert Hopen.
  generalize (skipn (length cq_open) s). intros s1 -> H.
  rewrite rmatch_Seq, rmatch_Group in H.
  apply rmatch_plus_cls_sound in H as (ty & s2 & -> & Hne & Hty & H).
  rewrite firstn_prefix, rmatch_Seq, rmatch_Group, rmatch_Star in H.
  apply rstar_fields_sound in H as (kvs & s3 & -> & Hkvs & H).
  rewrite firstn_prefix in H.
  destruct s3 as [|x s3]; [discriminate|]. rewrite rmatch_Chr in H.
  destruct (N.eqb x rbracket) eqn:Ex; [|discriminate].
  apply N.eqb_eq in Ex. subst x. injection H as -> <-.
  exists ty, kvs. rewrite forallb_cls_type in Hty.
  unfold wf_type, code_text, cq_captures. repeat split; auto.
  now rewrite <- !app_assoc.
Qed.

Lemma length_fields kvs : length kvs <= length (flat_map field kvs).
Proof.
  induction kvs as [|kv kvs IH]; [reflexivity|].
  cbn [flat_map length]. rewrite length_app.
  pose proof (field_length kv). lia.
Qed.

Lemma wants_rbracket_close (g : jsstring -> captures -> captures) :
  wants_rbracket
    (fun s' caps' =>
       rmatch (Chr rbracket) s' (g s' caps')
         (fun s'' caps'' => Some (s'', caps''))).
Proof. intros x u caps' Hx. now rewrite rmatch_Chr, Hx. Qed.

Lemma match_here_cq_complete ty kvs rest :
  wf_type ty -> Forall wf_field kvs ->
  match_here re_cq (code_text ty kvs ++ rest)
  = Some (rest, cq_captures ty kvs).
Proof.
  intros [Hne Hty] Hkvs. unfold match_here, code_text.
  rewrite re_cq_eq, rmatch_Seq, rmatch_Lit, <- !app_assoc.
  change (is_prefix cq_open (cq_open ++ ?x)) with true. cbv iota.
  change (skipn (length cq_open) (cq_open ++ ?x)) with x.
  rewrite rmatch_Seq, rmatch_Group.
  rewrite rmatch_plus_cls_greedy; auto.
  - rewrite firstn_prefix, rmatch_Seq, rmatch_Group, rmatch_Star.
    cbn [app].
    rewrite rstar_fields_greedy; auto.
    + rewrite firstn_prefix, rmatch_Chr, N.eqb_refl. reflexivity.
    + rewrite length_app. pose proof (length_fields kvs). lia.
    + apply wants_rbracket_close with
        (g := fun s' caps' => (2, firstn (_ - length s') _) :: caps').
  - now rewrite forallb_cls_type.
  - destruct kvs; reflexivity.
  - intros x u caps' Hx. rewrite cls_type_unit in Hx.
    apply type_unit_not in Hx as (Hc & _ & Hr).
    rewrite rmatch_Seq, rmatch_Group, rmatch_Star.
    apply rstar_fields_reject; auto.
    apply wants_rbracket_close with
      (g := fun s' caps' => (2, firstn (_ - length s') _) :: caps').
Qed.

(** ** Splitting the fields *)

Lemma split_nonempty sep s : split sep s <> [].
Proof.
  destruct s as [|c s]; cbn [split]; [discriminate|].
  destruct (N.eqb c sep); [discriminate|].
  destruct (split sep s); discriminate.
Qed.

Lemma split_app_no_unit sep a b :
  no_unit sep a = true ->
  split sep (a ++ b) =
  match split sep b with
  | p :: ps => (a ++ p) :: ps
  | [] => [a]
  end.
Proof.
  induction a as [|x a IH]; intros H.
  - cbn [app]. pose proof (split_nonempty sep b).
    destruct (split sep b); [congruence|reflexivity].
  - cbn [no_unit forallb] in H. apply andb_true_iff in H as [Hx Ha].
    apply negb_true_iff in Hx. cbn [app split]. rewrite Hx.
    rewrite (IH Ha). pose proof (split_nonempty sep b).
    destruct (split sep b); [congruence|reflexivity].
Qed.

Lemma join_split sep s : join [sep] (split sep s) = s.
Proof.
  induction s as [|c s IH]; [reflexivity|].
  cbn [split]. pose proof (split_nonempty sep s).
  destruct (N.eqb c sep) eqn:E.
  - apply N.eqb_eq in E. subst c.
    destruct (split sep s) as [|p ps]; [congruence|].
    cbn [join app] in *. now rewrite IH.
  - destruct (split sep s) as [|p ps]; [congruence|].
    destruct ps as [|q ps]; cbn [join app] in *; now rewrite IH.
Qed.

Lemma key_no_comma s : forallb key_unit s = true -> no_unit comma s = true.
Proof.
  unfold no_unit. induction s as [|x s IH]; [reflexivity|].
  cbn [forallb]. intros H. apply andb_true_iff in H as [Hx Hs].
  apply key_unit_type_unit, type_unit_not in Hx as (Hc & _).
  rewrite Hc. cbn. auto.
Qed.

Lemma key_no_equals s : forallb key_unit s = true -> no_unit equals s = true.
Proof.
  unfold no_unit. induction s as [|x s IH]; [reflexivity|].
  cbn [forallb]. intros H. apply andb_true_iff in H as [Hx Hs].
  rewrite (key_unit_not_equals x Hx). cbn. auto.
Qed.

Lemma value_no_comma s : forallb value_unit s = true -> no_unit comma s = true.
Proof.
  unfold no_unit. induction s as [|x s IH]; [reflexivity|].
  cbn [forallb]. intros H. apply andb_true_iff in H as [Hx Hs].
  apply type_unit_not in Hx as (Hc & _). rewrite Hc. cbn. auto.
Qed.

Lemma pair_text_no_comma kv :
  wf_field kv -> no_unit comma (pair_text kv) = true.
Proof.
  intros (_ & Hk & Hv). unfold pair_text, no_unit.
  rewrite forallb_app. cbn [forallb].
  apply key_no_comma in Hk. apply value_no_comma in Hv.
  unfold no_unit in *. now rewrite Hk, Hv.
Qed.

Lemma split_fields kvs :
  Forall wf_field kvs ->
  split comma (flat_map field kvs) =
  match kvs with
  | [] => [[]]
  | _ => [] :: map pair_text kvs
  end.
Proof.
  induction kvs as [|kv kvs IH]; intros Hwf; [reflexivity|].
  inversion Hwf as [|? ? Hkv Hkvs]; subst.
  cbn [flat_map]. unfold field at 1. cbn [app split].
  rewrite N.eqb_refl. fold (pair_text kv).
  rewrite (split_app_no_unit _ _ _ (pair_text_no_comma kv Hkv)), (IH Hkvs).
  destruct kvs; cbn [map]; now rewrite app_nil_r.
Qed.

Lemma filter_truthy_pairs kvs :
  filter truthy (map pair_text kvs) = map pair_text kvs.
Proof.
  induction kvs as [|kv kvs IH]; [reflexivity|].
  cbn [map filter]. rewrite IH.
  unfold pair_text at 1. destruct (fst kv); reflexivity.
Qed.

Lemma from_pair_text obj kv :
  wf_field kv ->
  from_pair obj (pair_text kv) =
  obj_set (unescape_str (fst kv)) (VStr (unescape_str (snd kv))) obj.
Proof.
  intros (_ & Hk & _). unfold from_pair, pair_text.
  rewrite (split_app_no_unit _ _ _ (key_no_equals _ Hk)).
  cbn [split]. rewrite N.eqb_refl, app_nil_r, join_split. reflexivity.
Qed.

Lemma from_data_fields kvs :
  Forall wf_field kvs -> from_data (flat_map field kvs) = pairs_object kvs.
Proof.
  intros Hwf. unfold from_data, pairs_object. rewrite (split_fields kvs Hwf).
  assert (H : filter truthy
                (match kvs with [] => [[]] | _ => [] :: map pair_text kvs end)
              = map pair_text kvs).
  { destruct kvs; [reflexivity|]. cbn [filter truthy].
    apply filter_truthy_pairs. }
  rewrite H. clear H. generalize (@nil (jsstring * value)).
  induction Hwf as [|kv kvs Hkv Hkvs IH]; intros obj; [reflexivity|].
  cbn [map fold_left]. rewrite (from_pair_text obj kv Hkv). apply IH.
Qed.

(** ** The codes of a text *)

Lemma match_here_cq_none s : match_here re_cq s = None -> ~ occurs_at s.
Proof.
  intros H (ty & kvs & rest & Hty & Hkvs & ->).
  rewrite match_here_cq_complete in H by assumption. discriminate.
Qed.

Lemma search_none s :
  search re_cq s = None -> forall a b, s = a ++ b -> ~ occurs_at b.
Proof.
  induction s as [|c s IH]; cbn [search];
    destruct (match_here re_cq _) as [[rest caps]|] eqn:E;
    try discriminate; intros H a b Hab.
  - symmetry in Hab. apply app_eq_nil in Hab as [_ ->].
    now apply match_here_cq_none.
  - destruct a as [|x a]; cbn [app] in Hab.
    + subst b. now apply match_here_cq_none.
    + injection Hab as _ Hab. now apply (IH H a b).
Qed.

Lemma search_some s :
  forall caps rest,
    search re_cq s = Some (caps, rest) ->
    exists pre ty kvs,
      s = pre ++ code_text ty kvs ++ rest
      /\ wf_type ty /\ Forall wf_field kvs
      /\ caps = cq_captures ty kvs
      /\ code_free pre (code_text ty kvs ++ rest).
Proof.
  assert (Hhere : forall s caps rest,
             match_here re_cq s = Some (rest, caps) ->
             exists pre ty kvs,
               s = pre ++ code_text ty kvs ++ rest
               /\ wf_type ty /\ Forall wf_field kvs
               /\ caps = cq_captures ty kvs
               /\ code_free pre (code_text ty kvs ++ rest)).
  { intros s0 caps rest E.
    apply match_here_cq_sound in E as (ty & kvs & Hty & Hkvs & -> & ->).
    exists [], ty, kvs. do 4 (split; [solve [auto]|]).
    intros a b Hab Hb. symmetry in Hab. apply app_eq_nil in Hab as [_ ->].
    congruence. }
  induction s as [|c s IH]; intros caps rest; cbn [search];
    destruct (match_here re_cq _) as [[rest' caps']|] eqn:E;
    try discriminate; intros H.
  - injection H as <- <-. now apply Hhere.
  - apply IH in H as (pre & ty & kvs & -> & Hty & Hkvs & -> & Hfree).
    exists (c :: pre), ty, kvs. do 4 (split; [solve [auto]|]).
    intros a b Hab Hb. destruct a as [|x a]; cbn [app] in Hab.
    + subst b. cbn [app]. now apply match_here_cq_none.
    + injection Hab as _ Hab. now apply (Hfree a b).
Qed.

Lemma skipn_suffix (a rest : jsstring) :
  skipn (length (a ++ rest) - length rest) (a ++ rest) = rest.
Proof.
  rewrite length_app, Nat.add_sub, skipn_app, Nat.sub_diag, skipn_all.
  reflexivity.
Qed.

Lemma code_text_length ty kvs : 0 < length (code_text ty kvs).
Proof. unfold code_text. cbn [cq_open app length]. lia. Qed.

Lemma from_loop_spec fuel :
  forall str i acc,
    i <= length str -> length str - i < fuel ->
    exists ms,
      parses (skipn i str) ms
      /\ from_loop fuel str i acc = Returns (acc ++ map entity_of ms).
Proof.
  induction fuel as [|fuel IH]; intros str i acc Hi Hfuel; [lia|].
  cbn [from_loop]. unfold exec.
  replace (Nat.ltb (length str) i) with false
    by (symmetry; apply Nat.ltb_ge; lia).
  destruct (search re_cq (skipn i str)) as [[caps rest]|] eqn:E.
  - apply search_some in E as (pre & ty & kvs & E & Hty & Hkvs & -> & Hfree).
    cbn [cq_captures capture find fst snd Nat.eqb].
    rewrite (from_data_fields kvs Hkvs).
    assert (Hstr : str = (firstn i str ++ pre ++ code_text ty kvs) ++ rest).
    { rewrite <- (firstn_skipn i str) at 1. rewrite E.
      now rewrite <- !app_assoc. }
    assert (Hlen : length (skipn i str) = length str - i)
      by apply length_skipn.
    rewrite E, !length_app in Hlen. pose proof (code_text_length ty kvs).
    destruct (IH str (length str - length rest)
                (acc ++ [new_CQCode ty (Some (pairs_object kvs))]))
      as (ms & Hms & Hloop); [lia|lia|].
    rewrite Hloop. exists ((ty, kvs) :: ms). split.
    + rewrite E. constructor; auto.
      rewrite Hstr in Hms at 1 2. now rewrite skipn_suffix in Hms.
    + cbn [map]. now rewrite <- app_assoc.
  - exists []. split.
    + constructor. now apply search_none.
    + cbn [map]. now rewrite app_nil_r.
Qed.

(** ** Serialisation *)

Lemma join_cons sep x l :
  join sep (x :: l) = x ++ flat_map (fun y => sep ++ y) l.
Proof.
  revert x; induction l as [|y l IH]; intros x.
  - cbn. now rewrite app_nil_r.
  - change (join sep (x :: y :: l)) with (x ++ sep ++ join sep (y :: l)).
    rewrite IH. cbn [flat_map]. now rewrite <- app_assoc.
Qed.

Lemma toString_serialize_spec c : toString c = serialize_spec c.
Proof.
  unfold toString, serialize_spec. rewrite join_cons, flat_map_concat_map.
  rewrite map_map, <- flat_map_concat_map.
  change (lit "[" ++ ?x) with (lbracket :: x).
  change (lit "CQ:") with (tl cq_open). change (lit "]") with [rbracket].
  rewrite <- !app_assoc. unfold cq_open. cbn [tl app]. do 4 f_equal.
Qed.

(** ** Parsing one code *)

Lemma search_cq_nil : search re_cq [] = None.
Proof. reflexivity. Qed.

Lemma search_code_text ty kvs :
  wf_type ty -> Forall wf_field kvs ->
  search re_cq (code_text ty kvs) = Some (cq_captures ty kvs, []).
Proof.
  intros Hty Hkvs.
  pose proof (match_here_cq_complete ty kvs [] Hty Hkvs) as H.
  rewrite app_nil_r in H.
  destruct (code_text ty kvs); cbn [search]; now rewrite H.
Qed.

Lemma exec_end r str : search r [] = None -> exec r str (length str) = None.
Proof.
  intros H. unfold exec. now rewrite Nat.ltb_irrefl, skipn_all, H.
Qed.

Lemma from_code_text ty kvs :
  wf_type ty -> Forall wf_field kvs ->
  from (code_text ty kvs) = Returns [entity_of (ty, kvs)].
Proof.
  intros Hty Hkvs. unfold from.
  pose proof (code_text_length ty kvs) as Hlen.
  destruct (length (code_text ty kvs)) as [|n] eqn:E; [lia|].
  cbn [from_loop]. unfold exec at 1. rewrite E.
  cbn [Nat.ltb Nat.leb skipn]. rewrite (search_code_text ty kvs Hty Hkvs).
  cbn [cq_captures capture find fst snd Nat.eqb length app].
  rewrite (from_data_fields kvs Hkvs), Nat.sub_0_r, <- E.
  now rewrite (exec_end re_cq (code_text ty kvs) search_cq_nil).
Qed.

(** ** Escaped text fits the grammar *)

Lemma enc_type_units x : forallb type_unit (all_on x) = true.
Proof.
  unfold all_on. special_cases x; try reflexivity.
  cbn [forallb]. unfold type_unit. now rewrite Elb, Erb, Ecm.
Qed.

Lemma enc_key_units x :
  N.eqb x equals = false -> forallb key_unit (all_on x) = true.
Proof.
  intros Heq. unfold all_on. special_cases x; try reflexivity.
  cbn [forallb]. unfold key_unit. now rewrite Elb, Erb, Ecm, Heq.
Qed.

Lemma escaped_type_units s : forallb type_unit (flat_map all_on s) = true.
Proof.
  induction s as [|x s IH]; [reflexivity|].
  cbn [flat_map]. now rewrite forallb_app, enc_type_units, IH.
Qed.

Lemma escaped_key_units s :
  no_unit equals s = true -> forallb key_unit (flat_map all_on s) = true.
Proof.
  unfold no_unit. induction s as [|x s IH]; [reflexivity|].
  cbn [forallb flat_map]. intros H. apply andb_true_iff in H as [Hx Hs].
  apply negb_true_iff in Hx. now rewrite forallb_app, enc_key_units, IH.
Qed.

Lemma escaped_nonempty s : s <> [] -> flat_map all_on s <> [].
Proof.
  destruct s as [|x s]; [congruence|]. intros _. cbn [flat_map].
  unfold all_on. special_cases x; discriminate.
Qed.

Lemma escape_str_inside s :
  has_pictograph s = false -> escape_str s true = flat_map all_on s.
Proof.
  intros H. rewrite escape_str_enc. apply strip_no_pictograph.
  now apply has_pictograph_enc.
Qed.

Lemma unescape_escape_str s insideCQ :
  (insideCQ = true -> has_pictograph s = false) ->
  unescape_str (escape_str s insideCQ) = s.
Proof.
  intros H. rewrite escape_str_enc. destruct insideCQ.
  - rewrite strip_no_pictograph by (apply has_pictograph_enc; auto).
    apply unescape_str_enc.
  - apply unescape_str_enc.
Qed.

(** ** Maps and objects *)

Lemma jsstring_eqb_eq a b : jsstring_eqb a b = true <-> a = b.
Proof.
  unfold jsstring_eqb. destruct (list_eq_dec N.eq_dec a b); split;
    congruence.
Qed.

Lemma jsstring_eqb_neq a b : jsstring_eqb a b = false <-> a <> b.
Proof.
  unfold jsstring_eqb. destruct (list_eq_dec N.eq_dec a b); split;
    congruence.
Qed.

Lemma map_has_false k o : map_has k o = false <-> ~ In k (keys o).
Proof.
  induction o as [|[k' v'] o IH]; cbn [map_has keys map In fst].
  - tauto.
  - rewrite orb_false_iff, jsstring_eqb_neq. unfold keys in IH. tauto.
Qed.

Lemma map_set_fresh k v m :
  map_has k m = false -> map_set k v m = m ++ [(k, v)].
Proof.
  induction m as [|[k' v'] m IH]; cbn [map_has map_set app]; [reflexivity|].
  intros H. apply orb_false_iff in H as [H1 H2]. rewrite H1.
  now rewrite IH.
Qed.

Lemma map_of_entries_nodup l : NoDup (keys l) -> map_of_entries l = l.
Proof.
  unfold map_of_entries.
  assert (H : forall acc,
             NoDup (keys (acc ++ l)) ->
             fold_left (fun m kv => map_set (fst kv) (snd kv) m) l acc
             = acc ++ l).
  { induction l as [|[k v] l IH]; intros acc Hnd; cbn [fold_left].
    - now rewrite app_nil_r.
    - cbn [fst snd]. rewrite map_set_fresh.
      + rewrite IH; rewrite <- app_assoc; [reflexivity|exact Hnd].
      + apply map_has_false. unfold keys in *. rewrite map_app in Hnd.
        cbn [map fst] in Hnd. apply NoDup_remove_2 in Hnd.
        intros Hin. apply Hnd. apply in_or_app. now left. }
  intros Hnd. apply (H []). exact Hnd.
Qed.

Lemma obj_insert_perm k v o : Permutation (obj_insert k v o) ((k, v) :: o).
Proof.
  induction o as [|[k' v'] o IH]; cbn [obj_insert]; [reflexivity|].
  destruct (array_index k) as [i|]; [destruct (array_index k') as [i'|]|].
  - destruct (N.ltb i i'); [reflexivity|].
    rewrite IH. apply perm_swap.
  - reflexivity.
  - rewrite IH. apply perm_swap.
Qed.

Lemma obj_insert_plain k v o :
  array_index k = None -> obj_insert k v o = o ++ [(k, v)].
Proof.
  intros H. induction o as [|[k' v'] o IH]; cbn [obj_insert app];
    rewrite ?H; [reflexivity|]. now rewrite IH.
Qed.

Lemma obj_set_fresh k v o :
  k <> proto_key -> ~ In k (keys o) -> obj_set k v o = obj_insert k v o.
Proof.
  intros Hp Hin. unfold obj_set.
  apply jsstring_eqb_neq in Hp. apply map_has_false in Hin.
  now rewrite Hp, Hin.
Qed.

Lemma object_of_perm l :
  NoDup (keys l) -> ~ In proto_key (keys l) -> Permutation (object_of l) l.
Proof.
  unfold object_of.
  assert (H : forall acc,
             NoDup (keys (acc ++ l)) -> ~ In proto_key (keys l) ->
             Permutation
               (fold_left (fun o kv => obj_set (fst kv) (snd kv) o) l acc)
               (acc ++ l)).
  { induction l as [|[k v] l IH]; intros acc Hnd Hp; cbn [fold_left].
    - now rewrite app_nil_r.
    - cbn [fst snd keys map In] in *.
      assert (Hfresh : ~ In k (keys acc)).
      { unfold keys in *. rewrite map_app in Hnd. cbn [map fst] in Hnd.
        apply NoDup_remove_2 in Hnd. intros Hin. apply Hnd.
        apply in_or_app. now left. }
      rewrite obj_set_fresh by (auto; intros ->; tauto).
      rewrite IH.
      + rewrite (obj_insert_perm k v acc). cbn [app].
        apply Permutation_middle.
      + unfold keys in *.
        apply (Permutation_NoDup (l := map fst (acc ++ (k, v) :: l)));
          [|exact Hnd].
        apply Permutation_map. symmetry.
        rewrite (obj_insert_perm k v acc). cbn [app].
        apply Permutation_middle.
      + tauto. }
  intros Hnd Hp. apply (H [] Hnd Hp).
Qed.

Lemma object_of_plain l :
  NoDup (keys l) -> ~ In proto_key (keys l) ->
  Forall (fun k => array_index k = None) (keys l) ->
  object_of l = l.
Proof.
  unfold object_of.
  assert (H : forall acc,
             NoDup (keys (acc ++ l)) -> ~ In proto_key (keys l) ->
             Forall (fun k => array_index k = None) (keys l) ->
             fold_left (fun o kv => obj_set (fst kv) (snd kv) o) l acc
             = acc ++ l).
  { induction l as [|[k v] l IH]; intros acc Hnd Hp Hidx; cbn [fold_left].
    - now rewrite app_nil_r.
    - cbn [fst snd keys map In] in *.
      inversion Hidx as [|? ? Hk Hl]; subst.
      assert (Hfresh : ~ In k (keys acc)).
      { unfold keys in *. rewrite map_app in Hnd. cbn [map fst] in Hnd.
        apply NoDup_remove_2 in Hnd. intros Hin. apply Hnd.
        apply in_or_app. now left. }
      rewrite obj_set_fresh by (auto; intros ->; tauto).
      rewrite (obj_insert_plain k v acc Hk).
      rewrite IH; rewrite <- ?app_assoc; auto. }
  intros Hnd Hp Hidx. apply (H [] Hnd Hp Hidx).
Qed.

(** ** Serialising, then parsing *)

Lemma serialize_spec_code_text c :
  serialize_spec c =
  code_text (type c) (map text_of (filter present (data c))).
Proof.
  unfold serialize_spec, code_text. do 2 f_equal. f_equal.
  induction (filter present (data c)) as [|kv l IH]; [reflexivity|].
  cbn [map flat_map]. now rewrite IH.
Qed.

Lemma string_fields_present l :
  Forall string_field l -> filter present l = l.
Proof.
  induction 1 as [|kv l (_ & _ & _ & s & Hs & _) _ IH]; [reflexivity|].
  cbn [filter]. unfold present at 1. rewrite Hs. cbn. now rewrite IH.
Qed.

Lemma string_field_wf kv : string_field kv -> wf_field (text_of kv).
Proof.
  intros (Hne & Heq & Hpk & s & Hs & Hps). unfold wf_field, text_of.
  cbn [fst snd]. unfold value_text. rewrite Hs. cbn [escape join_to_string].
  rewrite !escape_str_inside by assumption. repeat split.
  - now apply escaped_nonempty.
  - now apply escaped_key_units.
  - apply escaped_type_units.
Qed.

Lemma string_fields_object l :
  Forall string_field l -> pairs_object (map text_of l) = object_of l.
Proof.
  unfold pairs_object, object_of. intros H.
  generalize (@nil (jsstring * value)).
  induction H as [|kv l (_ & _ & Hpk & s & Hs & Hps) _ IH]; intros acc;
    [reflexivity|].
  cbn [map fold_left]. rewrite IH. do 2 f_equal.
  - unfold text_of. cbn [fst snd]. now rewrite unescape_escape_str by auto.
  - unfold text_of. cbn [fst snd]. unfold value_text.
    rewrite Hs. cbn [escape join_to_string].
    now rewrite unescape_escape_str by auto.
Qed.

Lemma from_toString_strings c :
  wf_type (type c) -> NoDup (keys (data c)) ->
  ~ In proto_key (keys (data c)) -> Forall string_field (data c) ->
  from (toString c) = Returns [mkCQCode (type c) (object_of (data c))]
  /\ Permutation (object_of (data c)) (data c).
Proof.
  intros Hty Hnd Hproto Hfields.
  pose proof (object_of_perm (data c) Hnd Hproto) as Hperm. split; [|exact Hperm].
  rewrite toString_serialize_spec, serialize_spec_code_text.
  rewrite (string_fields_present _ Hfields).
  rewrite from_code_text; auto.
  - unfold entity_of, new_CQCode. cbn [fst snd].
    rewrite (string_fields_object _ Hfields), map_of_entries_nodup;
      [reflexivity|].
    unfold keys. apply (Permutation_NoDup (l := map fst (data c)));
      [|exact Hnd].
    apply Permutation_map. now symmetry.
  - apply Forall_map. revert Hfields. apply Forall_impl.
    apply string_field_wf.
Qed.

(** ** Every well-formed code of a text is found *)

Lemma pair_text_inj kv kv' :
  wf_field kv -> wf_field kv' -> pair_text kv = pair_text kv' -> kv = kv'.
Proof.
  intros (_ & Hk & _) (_ & Hk' & _) H.
  apply (f_equal (split equals)) in H. unfold pair_text in H.
  rewrite (split_app_no_unit _ _ _ (key_no_equals _ Hk)) in H.
  rewrite (split_app_no_unit _ _ _ (key_no_equals _ Hk')) in H.
  cbn [split] in H. rewrite N.eqb_refl, !app_nil_r in H.
  injection H as H1 H2. apply (f_equal (join [equals])) in H2.
  rewrite !join_split in H2. destruct kv, kv'. cbn [fst snd] in *.
  congruence.
Qed.

Lemma fields_inj kvs :
  forall kvs',
    Forall wf_field kvs -> Forall wf_field kvs' ->
    flat_map field kvs = flat_map field kvs' -> kvs = kvs'.
Proof.
  intros kvs' Hwf Hwf' H. apply (f_equal (split comma)) in H.
  rewrite (split_fields kvs Hwf), (split_fields kvs' Hwf') in H.
  assert (Hmap : map pair_text kvs = map pair_text kvs').
  { destruct kvs, kvs'; cbn [map] in *; congruence. }
  clear H. revert kvs' Hwf' Hmap.
  induction Hwf as [|kv kvs Hkv _ IH]; intros kvs' Hwf' Hmap.
  - destruct kvs'; [reflexivity|discriminate].
  - destruct kvs' as [|kv' kvs']; [discriminate|].
    inversion Hwf' as [|? ? Hkv' Hkvs']; subst.
    cbn [map] in Hmap. injection Hmap as H1 H2.
    f_equal; [now apply pair_text_inj | now apply IH].
Qed.

Lemma code_text_inj ty kvs r ty' kvs' r' :
  wf_type ty -> Forall wf_field kvs -> wf_type ty' -> Forall wf_field kvs' ->
  code_text ty kvs ++ r = code_text ty' kvs' ++ r' ->
  ty = ty' /\ kvs = kvs' /\ r = r'.
Proof.
  intros Hty Hkvs Hty' Hkvs' H.
  pose proof (match_here_cq_complete ty kvs r Hty Hkvs) as M.
  rewrite H, (match_here_cq_complete ty' kvs' r' Hty' Hkvs') in M.
  injection M as Hr Hf Ht. repeat split; auto.
  symmetry. now apply fields_inj.
Qed.

Lemma no_unit_app sep a b :
  no_unit sep (a ++ b) = no_unit sep a && no_unit sep b.
Proof. apply forallb_app. Qed.

Lemma type_no_lbracket s :
  forallb type_unit s = true -> no_unit lbracket s = true.
Proof.
  unfold no_unit. induction s as [|x s IH]; [reflexivity|].
  cbn [forallb]. intros H. apply andb_true_iff in H as [Hx Hs].
  apply type_unit_not in Hx as (_ & Hl & _). rewrite Hl. cbn. auto.
Qed.

Lemma key_units_type_units s :
  forallb key_unit s = true -> forallb type_unit s = true.
Proof.
  induction s as [|x s IH]; [reflexivity|]. cbn [forallb]. intros H.
  apply andb_true_iff in H as [Hx Hs].
  now rewrite (key_unit_type_unit x Hx), IH.
Qed.

Lemma fields_no_lbracket kvs :
  Forall wf_field kvs -> no_unit lbracket (flat_map field kvs) = true.
Proof.
  induction 1 as [|kv kvs (_ & Hk & Hv) _ IH]; [reflexivity|].
  cbn [flat_map]. rewrite no_unit_app, IH, andb_true_r.
  unfold field. change (comma :: ?x) with ([comma] ++ x).
  change (equals :: ?x) with ([equals] ++ x).
  rewrite !no_unit_app, (type_no_lbracket (snd kv) Hv).
  now rewrite (type_no_lbracket (fst kv) (key_units_type_units _ Hk)).
Qed.

(** A code has one opening bracket, its first code unit. *)
Lemma code_text_one_lbracket ty kvs :
  wf_type ty -> Forall wf_field kvs ->
  exists body,
    code_text ty kvs = lbracket :: body /\ no_unit lbracket body = true.
Proof.
  intros [_ Hty] Hkvs. unfold code_text, cq_open. cbn [app].
  eexists. split; [reflexivity|].
  change (67%N :: 81%N :: 58%N :: ?x) with ([67%N; 81%N; 58%N] ++ x).
  rewrite !no_unit_app, (type_no_lbracket ty Hty),
    (fields_no_lbracket kvs Hkvs).
  reflexivity.
Qed.

Lemma no_unit_suffix sep a b :
  no_unit sep (a ++ b) = true -> no_unit sep b = true.
Proof.
  rewrite no_unit_app. intros H. now apply andb_true_iff in H as [_ H].
Qed.

Lemma occurs_at_lbracket s : occurs_at s -> exists u, s = lbracket :: u.
Proof.
  intros (ty & kvs & rest & _ & _ & ->). unfold code_text, cq_open.
  cbn [app]. eauto.
Qed.

Lemma parses_all s ms :
  parses s ms ->
  forall a ty kvs b,
    wf_type ty -> Forall wf_field kvs ->
    s = a ++ code_text ty kvs ++ b -> In (ty, kvs) ms.
Proof.
  induction 1 as [s Hnone | pre ty0 kvs0 rest ms Hty0 Hkvs0 Hfree Hms IH];
    intros a ty kvs b Hty Hkvs Hs.
  - exfalso. apply (Hnone a _ Hs). exists ty, kvs, b. auto.
  - assert (Hocc : occurs_at (code_text ty kvs ++ b))
      by (exists ty, kvs, b; auto).
    apply app_eq_app in Hs as [l [[-> Hs] | [-> Hs]]].
    + (* the occurrence starts in [pre] or where the first code starts *)
      destruct l as [|x l].
      * cbn [app] in Hs.
        apply code_text_inj in Hs as (-> & -> & _); auto. now left.
      * exfalso. apply (Hfree a (x :: l) eq_refl); [discriminate|].
        rewrite <- Hs. exact Hocc.
    + (* the occurrence starts after [pre] *)
      destruct l as [|x l].
      * cbn [app] in Hs. symmetry in Hs.
        apply code_text_inj in Hs as (-> & -> & _); auto. now left.
      * apply app_eq_app in Hs as [l2 [[Hc Hr] | [Hl Hr]]].
        -- (* it starts inside the first code *)
           destruct l2 as [|y l2].
           ++ cbn [app] in Hr. right.
              apply (IH [] ty kvs b Hty Hkvs). symmetry. exact Hr.
           ++ exfalso.
              destruct (code_text_one_lbracket ty0 kvs0 Hty0 Hkvs0)
                as (body & Hbody & Hno).
              rewrite Hbody in Hc. cbn [app] in Hc.
              injection Hc as Hx Hb. subst x body.
              apply no_unit_suffix in Hno.
              destruct (occurs_at_lbracket _ Hocc) as (u & Hu).
              rewrite Hr in Hu. cbn [app] in Hu.
              injection Hu as Hy _. subst y.
              cbn [no_unit forallb] in Hno. rewrite N.eqb_refl in Hno.
              discriminate.
        -- right. apply (IH l2 ty kvs b Hty Hkvs). exact Hr.
Qed.

Lemma parses_inv s ms :
  parses s ms ->
  (ms = [] /\ forall a b, s = a ++ b -> ~ occurs_at b)
  \/ (exists pre ty kvs rest ms0,
         s = pre ++ code_text ty kvs ++ rest /\ ms = (ty, kvs) :: ms0
         /\ wf_type ty /\ Forall wf_field kvs
         /\ code_free pre (code_text ty kvs ++ rest) /\ parses rest ms0).
Proof.
  destruct 1 as [s Hnone | pre ty kvs rest ms Hty Hkvs Hfree Hms].
  - left. auto.
  - right. exists pre, ty, kvs, rest, ms. auto 10.
Qed.

(** The codes of a text are determined. *)
Lemma parses_unique s ms :
  parses s ms -> forall ms', parses s ms' -> ms' = ms.
Proof.
  induction 1 as [s Hnone | pre ty kvs rest ms Hty Hkvs Hfree Hms IH];
    intros ms' H'; apply parses_inv in H'.
  - destruct H' as [[-> _] | (pre' & ty' & kvs' & rest' & ms0 & Hs & _ & Hty'
                              & Hkvs' & _)]; [reflexivity|].
    exfalso. apply (Hnone pre' _ Hs). exists ty', kvs', rest'. auto.
  - assert (Hocc : occurs_at (code_text ty kvs ++ rest))
      by (exists ty, kvs, rest; auto).
    destruct H' as [[_ Hnone] | (pre' & ty' & kvs' & rest' & ms0 & Hs & -> & Hty'
                                 & Hkvs' & Hfree' & Hms')].
    + exfalso. now apply (Hnone pre _ eq_refl).
    + assert (Hocc' : occurs_at (code_text ty' kvs' ++ rest'))
        by (exists ty', kvs', rest'; auto).
      apply app_eq_app in Hs as [l [[-> Hs] | [-> Hs]]].
      * destruct l as [|x l].
        -- cbn [app] in Hs.
           apply code_text_inj in Hs as (-> & -> & ->); auto.
           f_equal. now apply IH.
        -- exfalso. apply (Hfree pre' (x :: l) eq_refl); [discriminate|].
           rewrite <- Hs. exact Hocc'.
      * destruct l as [|x l].
        -- cbn [app] in Hs.
           apply code_text_inj in Hs as (-> & -> & ->); auto.
           f_equal. now apply IH.
        -- exfalso. apply (Hfree' pre (x :: l) eq_refl); [discriminate|].
           rewrite <- Hs. exact Hocc.
Qed.

(** ** The loop of [from] *)

Lemma from_loop_mono fuel :
  forall fuel' str i acc es,
    fuel <= fuel' ->
    from_loop fuel str i acc = Returns es ->
    from_loop fuel' str i acc = Returns es.
Proof.
  induction fuel as [|fuel IH]; intros fuel' str i acc es Hle H;
    [discriminate|].
  destruct fuel' as [|fuel']; [lia|]. cbn [from_loop] in *.
  destruct (exec re_cq str i) as [[caps i']|]; [|exact H].
  destruct (capture caps 1); [|discriminate].
  destruct (capture caps 2); [|discriminate].
  apply (IH fuel'); [lia|exact H].
Qed.

Lemma from_spec str :
  exists ms, parses str ms /\ from str = Returns (map entity_of ms).
Proof.
  destruct (from_loop_spec (S (length str)) str 0 []) as (ms & Hms & H);
    [lia|lia|].
  exists ms. split; [exact Hms|exact H].
Qed.

Lemma parses_sound s ms :
  parses s ms ->
  forall m, In m ms ->
            exists a b,
              s = a ++ code_text (fst m) (snd m) ++ b
              /\ wf_type (fst m) /\ Forall wf_field (snd m).
Proof.
  induction 1 as [s Hnone | pre ty kvs rest ms Hty Hkvs Hfree Hms IH];
    intros m Hin; [destruct Hin|].
  destruct Hin as [<- | Hin].
  - exists pre, rest. auto.
  - destruct (IH m Hin) as (a & b & -> & Hwf).
    exists (pre ++ code_text ty kvs ++ a), b. split; [|exact Hwf].
    now rewrite <- !app_assoc.
Qed.

(** ** The values of a parsed entity *)

Lemma map_set_strings k s m :
  Forall string_value m -> Forall string_value (map_set k (VStr s) m).
Proof.
  induction 1 as [|[k' v'] m Hkv Hm IH]; cbn [map_set].
  - constructor; [now exists s|constructor].
  - destruct (jsstring_eqb k' k); constructor; auto. now exists s.
Qed.

Lemma obj_set_strings k s o :
  Forall string_value o -> Forall string_value (obj_set k (VStr s) o).
Proof.
  intros H. unfold obj_set. destruct (jsstring_eqb k proto_key); [exact H|].
  destruct (map_has k o); [now apply map_set_strings|].
  apply (Permutation_Forall (x := (k, VStr s) :: o)).
  - symmetry. apply obj_insert_perm.
  - constructor; [now exists s|exact H].
Qed.

Lemma pairs_object_strings kvs : Forall string_value (pairs_object kvs).
Proof.
  unfold pairs_object.
  assert (H : forall acc, Forall string_value acc ->
                          Forall string_value
                            (fold_left
                               (fun obj (kv : jsstring * jsstring) =>
                                  obj_set (unescape_str (fst kv))
                                    (VStr (unescape_str (snd kv))) obj)
                               kvs acc)).
  { induction kvs as [|kv kvs IH]; intros acc Hacc; [exact Hacc|].
    cbn [fold_left]. apply IH. now apply obj_set_strings. }
  apply H. constructor.
Qed.

Lemma map_of_entries_strings l :
  Forall string_value l -> Forall string_value (map_of_entries l).
Proof.
  unfold map_of_entries.
  assert (H : forall acc, Forall string_value acc -> Forall string_value l ->
                          Forall string_value
                            (fold_left
                               (fun m kv => map_set (fst kv) (snd kv) m)
                               l acc)).
  { induction l as [|[k v] l IH]; intros acc Hacc Hl; [exact Hacc|].
    inversion Hl as [|? ? [s Hs] Hl']; subst. cbn [fold_left fst snd] in *.
    subst v. apply IH; [now apply map_set_strings|exact Hl']. }
  apply H. constructor.
Qed.

Lemma entity_of_strings m : Forall string_value (data (entity_of m)).
Proof.
  unfold entity_of, new_CQCode. cbn [data].
  apply map_of_entries_strings, pairs_object_strings.
Qed.

(** ** Decimal numerals *)

Lemma decimal_numeral n : forallb numeral_unit (decimal n) = true.
Proof.
  unfold decimal.
  assert (Hu : forall d,
             forallb numeral_unit
               (lit (DecimalString.NilEmpty.string_of_uint d)) = true).
  { induction d; cbn [DecimalString.NilEmpty.string_of_uint lit
                      list_ascii_of_string map forallb];
      try rewrite andb_true_iff; try split; try reflexivity; exact IHd. }
  assert (Hz : forall d,
             forallb numeral_unit
               (lit (DecimalString.NilZero.string_of_uint d)) = true).
  { destruct d; try apply Hu. reflexivity. }
  destruct (Z.to_int n) as [d|d];
    cbn [DecimalString.NilZero.string_of_int]; [apply Hz|].
  cbn [lit list_ascii_of_string map forallb]. rewrite andb_true_iff.
  split; [reflexivity|apply Hz].
Qed.

(** A string of numeral units is written and read as it is. *)
Lemma numeral_units_plain s :
  forallb numeral_unit s = true ->
  forallb value_unit s = true /\ unescape_str s = s.
Proof.
  intros H.
  assert (Hx : forall x, numeral_unit x = true ->
                         low x = true /\ all_on x = [x]
                         /\ type_unit x = true).
  { intros x Hx. unfold numeral_unit, is_digit in Hx.
    assert (Hr : (45 <= x <= 57)%N).
    { apply orb_true_iff in Hx as [Hx | Hx].
      - apply andb_true_iff in Hx as [H1 H2].
        apply N.leb_le in H1, H2. lia.
      - apply N.eqb_eq in Hx. lia. }
    assert (Hne : forall c, (c < 45 \/ 57 < c)%N -> N.eqb x c = false)
      by (intros c Hc; apply N.eqb_neq; lia).
    unfold low, all_on, enc, type_unit, amp, comma, lbracket, rbracket.
    rewrite !Hne by lia. repeat split. apply N.ltb_lt. lia. }
  assert (Hall : forallb low s = true /\ flat_map all_on s = s
                 /\ forallb type_unit s = true).
  { induction s as [|x s IH]; [auto|]. cbn [forallb flat_map] in *.
    apply andb_true_iff in H as [H1 H2].
    destruct (Hx x H1) as (Hl & He & Ht). destruct (IH H2) as (IH1 & IH2 & IH3).
    rewrite Hl, He, Ht, IH1, IH2, IH3. auto. }
  destruct Hall as (Hlow & Henc & Hty). split; [exact Hty|].
  rewrite <- Henc at 1. apply unescape_str_enc.
Qed.

(** * The claims *)

(** ** Escaping *)

(** C3, as the specification states it, fails: a string without any entity
    that holds the symbol U+2600 is not restored in the inside-field mode,
    which writes a space for the symbol. *)
Lemma unescape_escape_as_stated_fails :
  ~ (forall (s : jsstring) (insideCQ : bool),
        entity_free s = true ->
        unescape (escape (VStr s) insideCQ) = VStr s).
Proof.
  intros H. specialize (H [0x2600%N] true eq_refl).
  vm_compute in H. discriminate.
Qed.

(** C3, amended: for every string [s] without the literal entities and for
    either mode, [unescape (escape s mode) = s], provided that in the
    inside-field mode [s] holds no pictograph of the enumerated ranges. *)
Theorem unescape_escape_roundtrip (s : jsstring) (insideCQ : bool) :
  entity_free s = true ->
  (insideCQ = true -> has_pictograph s = false) ->
  unescape (escape (VStr s) insideCQ) = VStr s.
Proof.
  intros _ H. cbn [escape unescape]. f_equal.
  now apply unescape_escape_str.
Qed.

Lemma unescape_escape_roundtrip_witness :
  let s := lit "a,b[c]d&e" in
  entity_free s = true
  /\ (true = true -> has_pictograph s = false)
  /\ unescape (escape (VStr s) true) = VStr s.
Proof.
  split; [reflexivity|]. split; [reflexivity|].
  apply (unescape_escape_roundtrip (lit "a,b[c]d&e") true); reflexivity.
Defined.

Lemma escape_str_plain_spec s : escape_str s false = escape_plain_spec s.
Proof.
  unfold escape_str, escape_plain_spec. cbn [negb]. now rewrite !replace_Chr.
Qed.

Lemma escape_str_inside_spec s : escape_str s true = escape_inside_spec s.
Proof.
  unfold escape_str, escape_inside_spec, escape_plain_spec. cbn [negb].
  now rewrite replace_pictograph, !replace_Chr.
Qed.

(** C4: in the plain mode [escape] replaces every [&], then every opening
    bracket, then every closing bracket by its entity; in the inside-field
    mode it then replaces every comma by its entity and then every
    pictograph of the enumerated ranges by one space. *)
Theorem escape_replacements (s : jsstring) :
  escape (VStr s) false = VStr (escape_plain_spec s)
  /\ escape (VStr s) true = VStr (escape_inside_spec s).
Proof.
  cbn [escape]. split; f_equal.
  - apply escape_str_plain_spec.
  - apply escape_str_inside_spec.
Qed.

(** ** Serialisation *)

Lemma serialize_spec_in_words c : serialize_spec c = serialize_in_words c.
Proof.
  unfold serialize_spec, serialize_in_words. fold present.
  change (lit "[CQ:") with cq_open. change (lit "]") with [rbracket].
  do 2 f_equal. f_equal. apply flat_map_ext. intros [k v].
  unfold serialized_field, value_text, value_in_words. cbn [fst snd app lit].
  change (lit "," ++ ?x) with (comma :: x).
  f_equal. rewrite escape_str_inside_spec. f_equal.
  change (lit "=" ++ ?x) with (equals :: x). f_equal.
  destruct v; cbn [escape join_to_string]; try reflexivity.
  apply escape_str_inside_spec.
Qed.

(** C5: [toString] writes [[CQ:], the type, then for each field in the
    order of insertion whose value is not nil a comma, the escaped key, an
    equals sign and the escaped value, and the closing bracket; a field
    whose value is nil leaves no text, so that a reply whose [id] was
    deleted, or set to [undefined], is [[CQ:reply]]. *)
Theorem toString_fields (c : CQCode) :
  toString c = serialize_in_words c
  /\ toString (del (new_CQCode (lit "reply") (Some [(lit "id", VNum 9)]))
                   (lit "id")) = lit "[CQ:reply]"
  /\ toString (set (new_CQCode (lit "reply") (Some [(lit "id", VNum 9)]))
                   (lit "id") VUndefined) = lit "[CQ:reply]".
Proof.
  split; [|split; reflexivity].
  rewrite toString_serialize_spec. apply serialize_spec_in_words.
Qed.

(** ** Parsing *)

(** C6: [from] returns the well-formed codes of the text, leftmost first
    and each after the end of the one before; every well-formed code that
    occurs in the text is among them; the entity of a code has the type as
    it stands and, for each pair, the key up to the first equals sign and
    the value after it, both unescaped. *)
Theorem from_parses (text : jsstring) :
  exists ms,
    parses text ms
    /\ (forall ms', parses text ms' -> ms' = ms)
    /\ from text = Returns (map entity_of ms)
    /\ (forall a ty kvs b,
           wf_type ty -> Forall wf_field kvs ->
           text = a ++ code_text ty kvs ++ b -> In (ty, kvs) ms).
Proof.
  destruct (from_spec text) as (ms & Hms & H).
  exists ms. split; [exact Hms|]. split; [|split; [exact H|]].
  - now apply parses_unique.
  - intros a ty kvs b. now apply parses_all.
Qed.

(** C7: on every text the loop of [from] ends, within one round for each
    code unit and one more, and [from] returns without throwing; each
    entity returned is the entity of a well-formed code of the text, so a
    text without a closing bracket, such as a stray [[CQ:], gives none. *)
Theorem from_total (str : jsstring) :
  exists es,
    from str = Returns es
    /\ (forall fuel, length str < fuel -> from_loop fuel str 0 [] = Returns es)
    /\ Forall
         (fun e =>
            exists a ty kvs b,
              str = a ++ code_text ty kvs ++ b
              /\ wf_type ty /\ Forall wf_field kvs
              /\ e = entity_of (ty, kvs)) es
    /\ (no_unit rbracket str = true -> es = []).
Proof.
  destruct (from_spec str) as (ms & Hms & H).
  exists (map entity_of ms). split; [exact H|]. split; [|split].
  - intros fuel Hfuel. apply (from_loop_mono (S (length str))); [lia|exact H].
  - apply Forall_forall. intros e Hin. apply in_map_iff in Hin as (m & <- & Hin).
    destruct (parses_sound str ms Hms m Hin) as (a & b & Hs & Hty & Hkvs).
    exists a, (fst m), (snd m), b. destruct m. auto.
  - intros Hno. destruct ms as [|m ms]; [reflexivity|]. exfalso.
    destruct (parses_sound str (m :: ms) Hms m (or_introl eq_refl))
      as (a & b & Hs & _).
    rewrite Hs in Hno. unfold code_text in Hno.
    rewrite !no_unit_app in Hno. cbn [no_unit forallb] in Hno.
    rewrite N.eqb_refl in Hno. cbn [negb andb] in Hno.
    rewrite !andb_false_r in Hno. discriminate.
Qed.

(** ** Serialising, then parsing *)

(** C1, as the specification states it, fails: the entity [sun_image] has
    no reserved code unit, and the entity parsed from its text has a space
    where it has the symbol U+2600. *)
Lemma roundtrip_as_stated_fails :
  ~ (forall c : CQCode,
        fields_reserved_free c ->
        exists c', from (toString c) = Returns [c'] /\ struct_eq c' c).
Proof.
  intros H. destruct (H sun_image) as (c' & Hfrom & _ & Hperm).
  - repeat constructor. intros s Hs. injection Hs as <-. reflexivity.
  - vm_compute in Hfrom. injection Hfrom as <-.
    apply Permutation_length_1_inv in Hperm. discriminate.
Qed.

Lemma reserved_free_no_equals s :
  reserved_free s = true -> no_unit equals s = true.
Proof.
  unfold reserved_free, no_unit. induction s as [|x s IH]; [reflexivity|].
  cbn [forallb]. intros H. apply andb_true_iff in H as [Hx Hs].
  rewrite (IH Hs), andb_true_r. unfold reserved in Hx.
  destruct (N.eqb x equals); [|reflexivity].
  now rewrite orb_true_r in Hx.
Qed.

(** C1, amended: for every entity whose type is not empty and has no comma
    and no bracket, whose keys are distinct, not empty and not
    [__proto__], whose values are all strings, and whose keys and values
    hold no reserved code unit and no pictograph of the enumerated ranges,
    [from] on the text of the entity returns exactly one entity, with the
    same type and the same pairs of key and value; the pairs come in the
    same order unless a key is an array index. *)
Theorem from_toString_roundtrip (c : CQCode) :
  wf_type (type c) ->
  NoDup (keys (data c)) ->
  Forall roundtrip_field (data c) ->
  exists c',
    from (toString c) = Returns [c'] /\ struct_eq c' c
    /\ (Forall (fun k => array_index k = None) (keys (data c)) -> c' = c).
Proof.
  intros Hty Hnd Hfields.
  assert (Hproto : ~ In proto_key (keys (data c))).
  { intros Hin. unfold keys in Hin. apply in_map_iff in Hin as (kv & Hk & Hin).
    rewrite Forall_forall in Hfields.
    destruct (Hfields kv Hin) as (_ & Hp & _). congruence. }
  destruct (from_toString_strings c Hty Hnd Hproto) as [Hfrom Hperm].
  - revert Hfields. apply Forall_impl.
    intros kv (Hne & _ & Hres & Hpk & s & Hs & _ & Hps).
    repeat split; auto using reserved_free_no_equals. now exists s.
  - eexists. split; [exact Hfrom|]. split; [split; [reflexivity|exact Hperm]|].
    intros Hplain. rewrite (object_of_plain (data c) Hnd Hproto Hplain).
    now destruct c.
Qed.

Lemma from_toString_roundtrip_witness :
  wf_type (type flash_image)
  /\ NoDup (keys (data flash_image))
  /\ Forall roundtrip_field (data flash_image)
  /\ exists c',
       from (toString flash_image) = Returns [c'] /\ struct_eq c' flash_image
       /\ (Forall (fun k => array_index k = None) (keys (data flash_image))
           -> c' = flash_image).
Proof.
  assert (Hty : wf_type (type flash_image))
    by (split; [discriminate|reflexivity]).
  assert (Hnd : NoDup (keys (data flash_image))).
  { repeat constructor; cbn; intuition discriminate. }
  assert (Hf : Forall roundtrip_field (data flash_image)).
  { repeat constructor; cbn [fst snd]; try discriminate;
      eexists; repeat split; reflexivity. }
  split; [exact Hty|]. split; [exact Hnd|]. split; [exact Hf|].
  apply (from_toString_roundtrip flash_image Hty Hnd Hf).
Defined.

(** C10: every value of an entity that [from] returns is a string; the
    text of an entity with a numeric value, such as [reply(9)] or
    [at(123)], is parsed into an entity whose value is the decimal numeral
    of the number, which is not the entity that was written.  The number is
    a safe integer, whose [ToString] is that numeral. *)
Theorem from_values_are_strings :
  (forall str,
      exists es,
        from str = Returns es
        /\ Forall (fun e => Forall string_value (data e)) es)
  /\ (forall n,
         safe_integer n ->
         from (reply (VNum n))
         = Returns [mkCQCode (lit "reply") [(lit "id", VStr (decimal n))]])
  /\ (forall n,
         safe_integer n ->
         from (at_ (VNum n))
         = Returns [mkCQCode (lit "at") [(lit "qq", VStr (decimal n))]])
  /\ decimal 9 = lit "9" /\ decimal 123 = lit "123"
  /\ (forall n,
         safe_integer n ->
         mkCQCode (lit "reply") [(lit "id", VStr (decimal n))]
         <> new_CQCode (lit "reply") (Some [(lit "id", VNum n)])).
Proof.
  assert (Hnum : forall ty k n,
             wf_type ty -> wf_field (k, []) ->
             escape_str k true = k -> unescape_str k = k ->
             obj_set k (VStr (decimal n)) [] = [(k, VStr (decimal n))] ->
             from (toString (new_CQCode ty (Some [(k, VNum n)])))
             = Returns [mkCQCode ty [(k, VStr (decimal n))]]).
  { intros ty k n Hty (Hne & Hk & _) Hesc Hun Hobj.
    destruct (numeral_units_plain (decimal n) (decimal_numeral n))
      as [Hval Hplain].
    rewrite toString_serialize_spec, serialize_spec_code_text.
    cbn [new_CQCode map_of_entries fold_left fst snd map_set data type
         filter present isNil negb map text_of value_text escape
         join_to_string].
    unfold text_of, value_text. cbn [fst snd escape join_to_string].
    rewrite Hesc, from_code_text; auto.
    - unfold entity_of, new_CQCode, pairs_object.
      cbn [fst snd fold_left]. rewrite Hun, Hplain, Hobj. reflexivity.
    - repeat constructor; auto. }
  split; [|split; [|split; [|split; [|split]]]].
  - intros str. destruct (from_spec str) as (ms & _ & H).
    exists (map entity_of ms). split; [exact H|].
    apply Forall_forall. intros e Hin.
    apply in_map_iff in Hin as (m & <- & _). apply entity_of_strings.
  - intros n _. apply Hnum; try reflexivity; repeat split; discriminate.
  - intros n _. apply Hnum; try reflexivity; repeat split; discriminate.
  - reflexivity.
  - reflexivity.
  - intros n _ H. discriminate.
Qed.

Lemma from_values_are_strings_witness :
  safe_integer 9 /\ safe_integer 123
  /\ from (reply (VNum 9))
     = Returns [mkCQCode (lit "reply") [(lit "id", VStr (lit "9"))]]
  /\ from (at_ (VNum 123))
     = Returns [mkCQCode (lit "at") [(lit "qq", VStr (lit "123"))]]
  /\ mkCQCode (lit "reply") [(lit "id", VStr (lit "9"))]
     <> new_CQCode (lit "reply") (Some [(lit "id", VNum 9)]).
Proof.
  assert (H9 : safe_integer 9) by reflexivity.
  assert (H123 : safe_integer 123) by reflexivity.
  destruct from_values_are_strings as (_ & Hreply & Hat & _ & _ & Hneq).
  split; [exact H9|]. split; [exact H123|].
  split; [exact (Hreply 9%Z H9)|].
  split; [exact (Hat 123%Z H123)|].
  exact (Hneq 9%Z H9).
Defined.

(** ** Pre-download *)

Module PrefetchFacts.
Import Prefetch.

Section Collaborators.

Context {world error config bytes : Type}.
Variable getCache : jsstring -> world -> res error (option jsstring) * world.
Variable retryGet :
  jsstring -> request (config := config) -> world -> res error bytes * world.
Variable createCache :
  jsstring -> bytes -> world -> res error jsstring * world.
Variable pathToFileURL : jsstring -> jsstring.
Variable logError : payload (error := error) -> world -> world.

#[local] Abbreviation run :=
  (imgPreDl getCache retryGet createCache pathToFileURL logError).
#[local] Abbreviation attempt :=
  (try_block getCache retryGet createCache pathToFileURL).

Lemma stage_fails_try_block url ty cfg st :
  stage_fails getCache retryGet createCache url cfg (ext st) ->
  exists e st', attempt url ty cfg st = (Err e, st').
Proof.
  unfold try_block, bind, call, dlImgLimit.
  intros [(e & w1 & H) | (path & w1 & H & Hfalsy & Hrest)]; rewrite H.
  - eauto.
  - destruct path as [[|c p]|]; try discriminate; cbn [ext trace].
    all: destruct Hrest as [(e & w2 & Hget) | (ct & w2 & e & w3 & Hget & Hput)];
      rewrite Hget; cbn [ext trace]; [eauto|rewrite Hput; eauto].
Qed.

(** What a call of [imgPreDl] adds to the trace: its transport call, if
    any, lies inside a slot of the limiter, and no slot is held when the
    call returns, whether a stage failed or not. *)
Lemma imgPreDl_transport_in_slot url ty cfg st :
  exists added,
    trace (snd (run url ty cfg st)) = trace st ++ added
    /\ bracketed false added = true
    /\ length (filter is_transport added) <= 1.
Proof.
  unfold imgPreDl, try_block, bind, call, dlImgLimit, log.
  destruct (getCache url (ext st)) as [[path|e] w1]; cbn [ext trace snd].
  - destruct path as [[|c p]|]; cbn [ext trace snd].
    2:{ eexists. split; [reflexivity|]. split; [reflexivity|cbn; lia]. }
    all: destruct (retryGet url _ w1) as [[ct|e] w2]; cbn [ext trace snd];
      [destruct (createCache url ct w2) as [[p'|e] w3]; cbn [ext trace snd]|];
      rewrite <- ?app_assoc; cbn [app];
      (eexists; split; [reflexivity|]; split; [reflexivity|cbn; lia]).
  - rewrite <- ?app_assoc. cbn [app].
    eexists. split; [reflexivity|]. split; [reflexivity|cbn; lia].
Qed.

(** C2: when the lookup throws, or after a miss the transport or the write
    to the cache throws, [imgPreDl] does not throw: it calls the logger,
    with the message and with what was thrown, and returns the text of
    [img(url, type)]. *)
Theorem imgPreDl_fallback url ty cfg st :
  stage_fails getCache retryGet createCache url cfg (ext st) ->
  exists e st1,
    run url ty cfg st
    = (Ok (img url ty),
       log logError (LogThrown e) (log logError (LogMessage log_message) st1))
    /\ logs st + 1 <= logs (snd (run url ty cfg st)).
Proof.
  intros Hfail.
  assert (Hmono : forall r (st0 st' : state),
             attempt url ty cfg st0 = (r, st') -> logs st0 <= logs st').
  { intros r st0 st'. unfold try_block, bind, call, dlImgLimit, logs.
    destruct (getCache url (ext st0)) as [[path|e] w1]; cbn [ext trace].
    - destruct path as [[|c p]|]; cbn [ext trace].
      2:{ intros H. injection H as _ <-. cbn [trace].
          rewrite !filter_app, !length_app. lia. }
      all: destruct (retryGet url _ w1) as [[ct|e] w2]; cbn [ext trace];
        [destruct (createCache url ct w2) as [[p'|e] w3]|];
        intros H; injection H as _ <-; cbn [trace];
        rewrite !filter_app, !length_app; lia.
    - intros H. injection H as _ <-. cbn [trace].
      rewrite !filter_app, !length_app. lia. }
  destruct (stage_fails_try_block url ty cfg st Hfail) as (e & st1 & H).
  exists e, st1. unfold imgPreDl. rewrite H. split; [reflexivity|].
  cbn [snd]. pose proof (Hmono _ _ _ H) as Hle.
  unfold logs, log in *. cbn [trace]. rewrite !filter_app, !length_app.
  cbn [filter is_log length]. lia.
Qed.

(** C9: when the lookup returns a path, [imgPreDl] returns the text of the
    image code whose [file] is the URL object that [pathToFileURL] makes of
    the path; the lookup is the only call it makes: the transport and the
    limiter are not used. *)
Theorem imgPreDl_cache_hit url ty cfg st c p w1 :
  getCache url (ext st) = (Ok (Some (c :: p)), w1) ->
  run url ty cfg st
  = (Ok (toString
           (new_CQCode (lit "image")
              (Some [(lit "file", VUrl (pathToFileURL (c :: p)));
                     (lit "type", ty)]))),
     mkState w1 (trace st ++ [EvGetCache url]))
  /\ filter is_transport (trace (snd (run url ty cfg st)))
     = filter is_transport (trace st)
  /\ filter is_limiter (trace (snd (run url ty cfg st)))
     = filter is_limiter (trace st).
Proof.
  intros H.
  assert (Hrun : run url ty cfg st
                 = (Ok (toString
                          (new_CQCode (lit "image")
                             (Some [(lit "file",
                                     VUrl (pathToFileURL (c :: p)));
                                    (lit "type", ty)]))),
                    mkState w1 (trace st ++ [EvGetCache url]))).
  { unfold imgPreDl, try_block, bind, call. now rewrite H. }
  rewrite Hrun. cbn [snd trace]. rewrite !filter_app. cbn [filter is_transport is_limiter].
  now rewrite !app_nil_r.
Qed.

End Collaborators.

End PrefetchFacts.

Module PrefetchWitnesses.
Import Prefetch PrefetchExamples.

Lemma imgPreDl_fallback_witness :
  stage_fails empty_cache failing_transport store url tt (ext fresh)
  /\ exists e st1,
       imgPreDl empty_cache failing_transport store file_url silent
         url VUndefined tt fresh
       = (Ok (img url VUndefined),
          log silent (LogThrown e) (log silent (LogMessage log_message) st1))
       /\ logs fresh + 1
          <= logs (snd (imgPreDl empty_cache failing_transport store file_url
                          silent url VUndefined tt fresh)).
Proof.
  assert (H : stage_fails empty_cache failing_transport store url tt
                (ext fresh)).
  { right. exists None, tt. split; [reflexivity|]. split; [reflexivity|].
    left. exists (lit "ECONNREFUSED"), tt. reflexivity. }
  split; [exact H|].
  apply (PrefetchFacts.imgPreDl_fallback empty_cache failing_transport store
           file_url silent url VUndefined tt fresh H).
Defined.

Lemma imgPreDl_cache_hit_witness :
  full_cache url (ext fresh)
  = (Ok (Some (47%N :: lit "cache/y.png")), tt)
  /\ imgPreDl full_cache failing_transport store file_url silent
       url VUndefined tt fresh
     = (Ok (lit "[CQ:image,file=file:///cache/y.png]"),
        mkState tt [EvGetCache url]).
Proof.
  split; [reflexivity|].
  apply (PrefetchFacts.imgPreDl_cache_hit full_cache failing_transport store
           file_url silent url VUndefined tt fresh 47%N (lit "cache/y.png") tt
           eq_refl).
Defined.

End PrefetchWitnesses.

(** ** The limiter *)

Module LimiterFacts.
Import Limiter.

Lemma count_update_le i p cs : count (update i p cs) <= S (count cs).
Proof.
  unfold count. revert i; induction cs as [|x cs IH]; intros i.
  - destruct i; cbn; lia.
  - destruct i as [|i]; cbn [update filter].
    + destruct (is_in_flight p), (is_in_flight x); cbn [length]; lia.
    + specialize (IH i). destruct (is_in_flight x); cbn [length]; lia.
Qed.

Lemma count_update_idle i p cs :
  is_in_flight p = false -> count (update i p cs) <= count cs.
Proof.
  intros Hp. unfold count. revert i; induction cs as [|x cs IH]; intros i.
  - destruct i; cbn; lia.
  - destruct i as [|i]; cbn [update filter].
    + rewrite Hp. destruct (is_in_flight x); cbn [length]; lia.
    + specialize (IH i). destruct (is_in_flight x); cbn [length]; lia.
Qed.

Lemma count_update_settle i p cs :
  nth_error cs i = Some InFlight -> is_in_flight p = false ->
  S (count (update i p cs)) = count cs.
Proof.
  intros Hi Hp. unfold count. revert i Hi.
  induction cs as [|x cs IH]; intros i Hi.
  - destruct i; discriminate.
  - destruct i as [|i]; cbn [update filter nth_error] in *.
    + injection Hi as ->. rewrite Hp. reflexivity.
    + specialize (IH i Hi). destruct (is_in_flight x); cbn [length]; lia.
Qed.

Lemma step_invariant s s' :
  step s s' ->
  in_flight s <= active (gate s) /\ active (gate s) <= capacity ->
  in_flight s' <= active (gate s') /\ active (gate s') <= capacity.
Proof.
  intros Hstep. destruct Hstep; unfold in_flight; cbn [calls gate active];
    repeat match goal with
           | |- context [length (filter is_in_flight ?x)] =>
               change (length (filter is_in_flight x)) with (count x)
           end;
    intros [H1 H2].
  - pose proof (count_update_idle i Finished cs eq_refl). lia.
  - pose proof (count_update_le i InFlight cs). lia.
  - pose proof (count_update_idle i Queued cs eq_refl). lia.
  - pose proof (count_update_settle i Settled cs H eq_refl). lia.
  - pose proof (count_update_settle i Settled cs H eq_refl).
    pose proof (count_update_le j InFlight (update i Settled cs)). lia.
  - pose proof (count_update_idle i Finished cs eq_refl). lia.
Qed.

Lemma count_repeat_start n : count (repeat Start n) = 0.
Proof. induction n as [|n IH]; [reflexivity|exact IH]. Qed.

(** C8: however many calls of [imgPreDl] run together and however they
    interleave, at most four transport calls are in flight at a time: the
    calls share one limiter of capacity four, and the transport is only
    called inside it. *)
Theorem in_flight_bound (n : nat) (s : system) :
  reachable n s -> in_flight s <= 4.
Proof.
  intros Hreach.
  assert (H : in_flight s <= active (gate s) /\ active (gate s) <= capacity).
  { induction Hreach as [|s s' _ IH Hstep].
    - unfold in_flight, initial. cbn [calls gate active].
      fold (count (repeat Start n)). rewrite count_repeat_start.
      unfold capacity. lia.
    - now apply (step_invariant s s'). }
  unfold capacity in H. lia.
Qed.

End LimiterFacts.

Module LimiterWitnesses.
Import Limiter LimiterExamples.

Lemma in_flight_bound_witness : reachable 20 busy /\ in_flight busy <= 4.
Proof.
  assert (H0 : reachable 20 (misses 0)) by apply reach_initial.
  assert (H1 : reachable 20 (misses 1)).
  { apply (reach_step 20 (misses 0) (misses 1) H0).
    apply (step_enter 0 (calls (misses 0)) 0 []); [reflexivity|].
    unfold capacity. lia. }
  assert (H2 : reachable 20 (misses 2)).
  { apply (reach_step 20 (misses 1) (misses 2) H1).
    apply (step_enter 1 (calls (misses 1)) 1 []); [reflexivity|].
    unfold capacity. lia. }
  assert (H3 : reachable 20 (misses 3)).
  { apply (reach_step 20 (misses 2) (misses 3) H2).
    apply (step_enter 2 (calls (misses 2)) 2 []); [reflexivity|].
    unfold capacity. lia. }
  assert (H4 : reachable 20 (misses 4)).
  { apply (reach_step 20 (misses 3) (misses 4) H3).
    apply (step_enter 3 (calls (misses 3)) 3 []); [reflexivity|].
    unfold capacity. lia. }
  assert (H5 : reachable 20 busy).
  { apply (reach_step 20 (misses 4) busy H4).
    apply (step_wait 4 (calls (misses 4)) 4 []); [reflexivity|].
    unfold capacity. lia. }
  split; [exact H5|].
  apply (LimiterFacts.in_flight_bound 20 busy H5).
Defined.

End LimiterWitnesses.

(** ** Examples *)

Example from_two_codes :
  from (lit "hello [CQ:at,qq=123] world [CQ:reply,id=9]")
  = Returns [mkCQCode (lit "at") [(lit "qq", VStr (lit "123"))];
             mkCQCode (lit "reply") [(lit "id", VStr (lit "9"))]].
Proof. vm_compute. reflexivity. Qed.

Example from_stray_open : from (lit "[CQ:image,file=a.png") = Returns [].
Proof. vm_compute. reflexivity. Qed.

Example from_unbalanced :
  from (lit "]] [[CQ:at,qq=1] [CQ:,a=b] [CQ:x,=b] [CQ:x,a]")
  = Returns [mkCQCode (lit "at") [(lit "qq", VStr (lit "1"))]].
Proof. vm_compute. reflexivity. Qed.

Example from_later_equals :
  from (lit "[CQ:x,k=a=b=,e=&#91;&amp;#44;&#44;]")
  = Returns [mkCQCode (lit "x")
               [(lit "k", VStr (lit "a=b=")); (lit "e", VStr (lit "[&#44;,"))]].
Proof. vm_compute. reflexivity. Qed.

Example from_index_keys :
  from (lit "[CQ:x,b=1,2=3,__proto__=4,10=5,1=6,b=7]")
  = Returns [mkCQCode (lit "x")
               [(lit "1", VStr (lit "6")); (lit "2", VStr (lit "3"));
                (lit "10", VStr (lit "5")); (lit "b", VStr (lit "7"))]].
Proof. vm_compute. reflexivity. Qed.

Example escape_inside :
  escape (VStr (lit "a,b[c]d&e")) true
  = VStr (lit "a&#44;b&#91;c&#93;d&amp;e").
Proof. vm_compute. reflexivity. Qed.

Example atAll_text : atAll = lit "[CQ:at,qq=all]".
Proof. reflexivity. Qed.

Example img_without_type :
  img (lit "http://x/y.png") VUndefined = lit "[CQ:image,file=http://x/y.png]".
Proof. vm_compute. reflexivity. Qed.

(** The matcher backtracks: into a star, into the second alternative; and
    [replace] steps over an empty match. *)
Example match_backtracks_star :
  match_here (Seq (Star (Chr 97%N)) (Seq (Chr 97%N) (Chr 98%N))) (lit "aaab")
  = Some ([], []).
Proof. reflexivity. Qed.

Example match_backtracks_alternative :
  match_here (Seq (Alt (Chr 97%N) (Seq (Chr 97%N) (Chr 98%N))) (Chr 99%N))
    (lit "abc")
  = Some ([], []).
Proof. reflexivity. Qed.

Example replace_empty_matches :
  replace (Star (Chr 97%N)) (lit "x") (lit "baac") = lit "xbxxcx".
Proof. reflexivity. Qed.

Example escape_pictographs :
  escape (VStr [0xd83c%N; 0xdf00%N; 97%N; 0x2600%N; 0xd83d%N; 0xde50%N]) true
  = VStr [32%N; 97%N; 32%N; 0xd83d%N; 0xde50%N].
Proof. vm_compute. reflexivity. Qed.

Example unescape_entities :
  unescape (VStr (lit "&amp;#44;&#44;&#91;&#93;&amp;amp;"))
  = VStr (lit "&#44;,[]&amp;").
Proof. vm_compute. reflexivity. Qed.

(** * Further properties *)

(** ** Pictographs, one match at a time *)

Lemma pictograph_len_range (s : jsstring) :
  pictograph_len s = 0 \/ pictograph_len s = 1 \/ pictograph_len s = 2.
Proof.
  destruct s as [|a [|b t]]; cbn [pictograph_len]; auto;
    repeat match goal with |- context [if ?c then _ else _] => destruct c end;
    auto.
Qed.

Lemma pictograph_len_not_low (a : N) (t : jsstring) :
  pictograph_len (a :: t) <> 0 -> low a = false.
Proof.
  intros H. destruct (low a) eqn:E; [|reflexivity].
  now rewrite (pictograph_len_low a t E) in H.
Qed.

Lemma pictograph_len_pair (a b : N) (t : jsstring) :
  pictograph_len (a :: b :: t) = 2 -> low a = false /\ low b = false.
Proof.
  intros H. split; [apply (pictograph_len_not_low a (b :: t)); lia|].
  destruct (low b) eqn:E; [|reflexivity].
  rewrite (pictograph_len_low_next a b t E) in H. cbn [pictograph_len] in H.
  destruct (in_ranges _ a); discriminate.
Qed.

Lemma pictograph_len_alone (a : N) (t : jsstring) :
  pictograph_len (a :: t) = 0 -> pictograph_len [a] = 0.
Proof.
  destruct t as [|b t]; [auto|]. cbn [pictograph_len].
  repeat match goal with |- context [if ?c then _ else _] => destruct c end;
    auto; discriminate.
Qed.

(** The cases of [strip_pictographs]. *)
Lemma strip_cases (P : jsstring -> Prop) :
  P [] ->
  (forall a t, pictograph_len (a :: t) = 0 -> P t -> P (a :: t)) ->
  (forall a t, pictograph_len (a :: t) = 1 -> P t -> P (a :: t)) ->
  (forall a b t, pictograph_len (a :: b :: t) = 2 -> P t -> P (a :: b :: t)) ->
  forall s, P s.
Proof.
  intros Hnil H0 H1 H2 s.
  assert (H : forall n s, length s <= n -> P s).
  { induction n as [|n IH]; intros [|a t] Hlen; auto;
      cbn [length] in Hlen; [lia|].
    destruct (pictograph_len_range (a :: t)) as [E | [E | E]].
    - apply H0; [exact E|apply IH; lia].
    - apply H1; [exact E|apply IH; lia].
    - destruct t as [|b t].
      + cbn [pictograph_len] in E. destruct (in_ranges _ a); discriminate.
      + apply H2; [exact E|apply IH; cbn [length] in Hlen; lia]. }
  apply (H (length s)). lia.
Qed.

Lemma strip_none a t :
  pictograph_len (a :: t) = 0 ->
  strip_pictographs (a :: t) = a :: strip_pictographs t.
Proof. intros E. cbn [strip_pictographs]. now rewrite E. Qed.

Lemma strip_symbol a t :
  pictograph_len (a :: t) = 1 ->
  strip_pictographs (a :: t) = space ++ strip_pictographs t.
Proof. intros E. cbn [strip_pictographs]. now rewrite E. Qed.

Lemma strip_pair a b t :
  pictograph_len (a :: b :: t) = 2 ->
  strip_pictographs (a :: b :: t) = space ++ strip_pictographs t.
Proof.
  intros E. change (strip_pictographs (a :: b :: t))
    with (match pictograph_len (a :: b :: t) with
          | 0 => a :: strip_pictographs (b :: t)
          | 1 => space ++ strip_pictographs (b :: t)
          | _ => space ++ strip_pictographs t
          end).
  now rewrite E.
Qed.

(** What is left after the pictographs holds no pictograph. *)
Lemma strip_head (s : jsstring) :
  s = [] \/ (exists a t u, s = a :: t /\ pictograph_len s = 0
                           /\ strip_pictographs s = a :: u)
  \/ exists u, strip_pictographs s = 32%N :: u.
Proof.
  destruct s as [|a t]; [now left|]. right.
  destruct (pictograph_len_range (a :: t)) as [E | [E | E]].
  - left. exists a, t, (strip_pictographs t). now rewrite strip_none.
  - right. rewrite strip_symbol by exact E. cbn [space app]. eauto.
  - right. destruct t as [|b t].
    + cbn [pictograph_len] in E. destruct (in_ranges _ a); discriminate.
    + rewrite strip_pair by exact E. cbn [space app]. eauto.
Qed.

Lemma strip_has_no_pictograph (s : jsstring) :
  has_pictograph (strip_pictographs s) = false.
Proof.
  induction s as [|a t E IH|a t E IH|a b t E IH] using strip_cases.
  - reflexivity.
  - rewrite strip_none by exact E. cbn [has_pictograph]. rewrite IH.
    rewrite orb_false_r. apply negb_false_iff, Nat.eqb_eq.
    destruct (strip_head t) as [-> | [(b & t' & u & -> & Eb & Hu) | (u & Hu)]].
    + cbn [strip_pictographs]. exact (pictograph_len_alone a _ E).
    + rewrite Hu. rewrite <- E. reflexivity.
    + rewrite Hu. rewrite pictograph_len_low_next by reflexivity.
      exact (pictograph_len_alone a _ E).
  - rewrite strip_symbol by exact E. cbn [space app has_pictograph].
    rewrite IH. now rewrite pictograph_len_low by reflexivity.
  - rewrite strip_pair by exact E. cbn [space app has_pictograph].
    rewrite IH. now rewrite pictograph_len_low by reflexivity.
Qed.

Lemma strip_forallb (p : N -> bool) (s : jsstring) :
  p 32%N = true -> forallb p s = true ->
  forallb p (strip_pictographs s) = true.
Proof.
  intros Hsp.
  induction s as [|a t E IH|a t E IH|a b t E IH] using strip_cases;
    cbn [forallb]; intros H.
  - reflexivity.
  - rewrite strip_none by exact E. cbn [forallb].
    apply andb_true_iff in H as [Ha Ht]. now rewrite Ha, IH.
  - rewrite strip_symbol by exact E. cbn [space app forallb].
    apply andb_true_iff in H as [Ha Ht]. now rewrite Hsp, IH.
  - rewrite strip_pair by exact E. cbn [space app forallb].
    apply andb_true_iff in H as [Ha H]. apply andb_true_iff in H as [Hb Ht].
    now rewrite Hsp, IH.
Qed.

Lemma strip_low_prefix (l u : jsstring) :
  forallb low l = true ->
  strip_pictographs (l ++ u) = l ++ strip_pictographs u.
Proof.
  induction l as [|x l IH]; [reflexivity|]. cbn [forallb app]. intros H.
  apply andb_true_iff in H as [Hx Hl].
  rewrite strip_none by (now apply pictograph_len_low). now rewrite IH.
Qed.

Lemma all_on_not_low x : low x = false -> all_on x = [x].
Proof.
  intros H. destruct (enc_shape true true true true x) as [E | (Hl & _)];
    [exact E|congruence].
Qed.

(** The pictographs can be replaced before or after the entities are
    written. *)
Lemma strip_escaped (s : jsstring) :
  strip_pictographs (flat_map all_on s)
  = flat_map all_on (strip_pictographs s).
Proof.
  induction s as [|a t E IH|a t E IH|a b t E IH] using strip_cases.
  - reflexivity.
  - rewrite strip_none by exact E. cbn [flat_map]. rewrite <- IH.
    destruct (enc_shape true true true true a) as [Ea | (_ & Hlow & _)].
    + fold all_on in Ea. rewrite Ea. cbn [app]. apply strip_none.
      destruct t as [|b t']; [exact E|].
      cbn [flat_map]. unfold all_on. now rewrite pictograph_len_enc_next.
    + now apply strip_low_prefix.
  - rewrite strip_symbol by exact E.
    assert (Ha : all_on a = [a])
      by (apply all_on_not_low, (pictograph_len_not_low a t); lia).
    cbn [flat_map space app]. rewrite Ha, <- IH. cbn [app].
    change (all_on 32%N ++ ?x) with (space ++ x). apply strip_symbol.
    destruct t as [|b t']; [exact E|].
    cbn [flat_map]. unfold all_on. now rewrite pictograph_len_enc_next.
  - rewrite strip_pair by exact E.
    destruct (pictograph_len_pair a b t E) as [Hla Hlb].
    cbn [flat_map space app].
    rewrite (all_on_not_low a Hla), (all_on_not_low b Hlb), <- IH.
    cbn [app]. change (all_on 32%N ++ ?x) with (space ++ x).
    now apply strip_pair.
Qed.

(** ** Escaping and unescaping *)

(** X1: in the plain mode [unescape] undoes [escape] on every string, also
    on one that holds the text of an entity. *)
Theorem unescape_escape_plain (s : jsstring) :
  unescape (escape (VStr s) false) = VStr s.
Proof.
  cbn [escape unescape]. f_equal. rewrite escape_str_enc.
  apply unescape_str_enc.
Qed.

(** X2: in the inside-field mode [unescape] after [escape] gives the string
    with each pictograph replaced by one space, and nothing else changed. *)
Theorem unescape_escape_inside (s : jsstring) :
  unescape (escape (VStr s) true) = VStr (strip_pictographs s).
Proof.
  cbn [escape unescape]. f_equal. rewrite escape_str_enc.
  fold all_on. rewrite strip_escaped. apply unescape_str_enc.
Qed.

Lemma enc_no_bracket (c : bool) (x : N) :
  no_unit lbracket (enc true true true c x) = true
  /\ no_unit rbracket (enc true true true c x) = true.
Proof.
  special_cases x; try destruct c; try (split; reflexivity);
    cbn [no_unit forallb]; now rewrite ?Elb, ?Erb.
Qed.

Lemma escaped_no_bracket (c : bool) (s : jsstring) :
  no_unit lbracket (flat_map (enc true true true c) s) = true
  /\ no_unit rbracket (flat_map (enc true true true c) s) = true.
Proof.
  induction s as [|x s [IH1 IH2]]; [split; reflexivity|].
  cbn [flat_map]. rewrite !no_unit_app, IH1, IH2.
  destruct (enc_no_bracket c x) as [-> ->]. split; reflexivity.
Qed.

Lemma type_units_no_delimiter s :
  forallb type_unit s = true ->
  no_unit comma s = true /\ no_unit lbracket s = true
  /\ no_unit rbracket s = true.
Proof.
  unfold no_unit. induction s as [|x s IH]; [auto|]. cbn [forallb].
  intros H. apply andb_true_iff in H as [Hx Hs].
  destruct (type_unit_not x Hx) as (-> & -> & ->).
  destruct (IH Hs) as (-> & -> & ->). auto.
Qed.

Lemma escape_str_inside_units s :
  forallb type_unit (escape_str s true) = true.
Proof.
  rewrite escape_str_enc. apply strip_forallb; [reflexivity|].
  apply escaped_type_units.
Qed.

Lemma escape_str_no_lbracket (s : jsstring) (insideCQ : bool) :
  no_unit lbracket (escape_str s insideCQ) = true.
Proof.
  destruct insideCQ.
  - now destruct (type_units_no_delimiter _ (escape_str_inside_units s))
      as (_ & Hl & _).
  - rewrite escape_str_enc. now destruct (escaped_no_bracket false s).
Qed.

(** X3: escaped text cannot end or start a code: in either mode it holds no
    bracket, and in the inside-field mode no comma and no pictograph
    either. *)
Theorem escape_no_delimiter (s : jsstring) (insideCQ : bool) :
  no_unit lbracket (escape_str s insideCQ) = true
  /\ no_unit rbracket (escape_str s insideCQ) = true
  /\ (insideCQ = true ->
      no_unit comma (escape_str s true) = true
      /\ has_pictograph (escape_str s true) = false).
Proof.
  destruct insideCQ.
  - destruct (type_units_no_delimiter _ (escape_str_inside_units s))
      as (Hc & Hl & Hr).
    repeat split; auto. rewrite escape_str_enc. apply strip_has_no_pictograph.
  - rewrite escape_str_enc. destruct (escaped_no_bracket false s) as [Hl Hr].
    repeat split; auto; discriminate.
Qed.

(** X4: escaping in the plain mode goes through concatenation: the pieces
    of a message can be escaped one by one. *)
Theorem escape_plain_app (a b : jsstring) :
  escape_str (a ++ b) false = escape_str a false ++ escape_str b false.
Proof. rewrite !escape_str_enc. apply flat_map_app. Qed.

(** X5: a string without [&] and without brackets is its own plain escape,
    and a string without [&] is its own unescape. *)
Theorem escape_unescape_plain_text (s : jsstring) :
  no_unit amp s = true ->
  (no_unit lbracket s = true -> no_unit rbracket s = true ->
   escape (VStr s) false = VStr s)
  /\ unescape (VStr s) = VStr s.
Proof.
  intros Hamp. split.
  - intros Hl Hr. cbn [escape]. f_equal. rewrite escape_str_enc.
    revert Hamp Hl Hr. unfold no_unit.
    induction s as [|x s IH]; [reflexivity|]. cbn [forallb flat_map].
    intros Ha Hl Hr.
    apply andb_true_iff in Ha as [Ha Ha'], Hl as [Hl Hl'], Hr as [Hr Hr'].
    apply negb_true_iff in Ha, Hl, Hr.
    rewrite (IH Ha' Hl' Hr'). unfold enc. rewrite Ha, Hl, Hr.
    now destruct (N.eqb x comma).
  - cbn [unescape]. f_equal.
    rewrite <- (unescape_str_enc false false false s) at 2. f_equal.
    revert Hamp. unfold no_unit.
    induction s as [|x s IH]; [reflexivity|]. cbn [forallb flat_map].
    intros Ha. apply andb_true_iff in Ha as [Ha Ha'].
    apply negb_true_iff in Ha. rewrite <- (IH Ha'). unfold enc. rewrite Ha.
    now destruct (N.eqb x lbracket), (N.eqb x rbracket), (N.eqb x comma).
Qed.

Lemma escape_unescape_plain_text_witness :
  no_unit amp (lit "hello, world") = true
  /\ (no_unit lbracket (lit "hello, world") = true ->
      no_unit rbracket (lit "hello, world") = true ->
      escape (VStr (lit "hello, world")) false = VStr (lit "hello, world"))
  /\ unescape (VStr (lit "hello, world")) = VStr (lit "hello, world").
Proof.
  split; [reflexivity|].
  apply (escape_unescape_plain_text (lit "hello, world")). reflexivity.
Defined.

(** ** Codes in a message *)

Lemma from_no_lbracket (s : jsstring) :
  no_unit lbracket s = true -> from s = Returns [].
Proof.
  intros Hno. destruct (from_spec s) as (ms & Hms & H).
  destruct ms as [|m ms]; [exact H|]. exfalso.
  destruct (parses_sound s (m :: ms) Hms m (or_introl eq_refl))
    as (a & b & Hs & _).
  rewrite Hs in Hno. unfold code_text, cq_open in Hno.
  rewrite no_unit_app in Hno. cbn [app no_unit forallb] in Hno.
  rewrite N.eqb_refl in Hno. cbn [negb andb] in Hno.
  now rewrite andb_false_r in Hno.
Qed.

(** X6: escaped text holds no code: whatever the string, [from] finds
    nothing in its escape, in either mode. *)
Theorem from_escaped_text (s : jsstring) (insideCQ : bool) :
  from (escape_str s insideCQ) = Returns [].
Proof.
  apply from_no_lbracket. apply escape_str_no_lbracket.
Qed.

Lemma from_parses_eq s ms : parses s ms -> from s = Returns (map entity_of ms).
Proof.
  intros H. destruct (from_spec s) as (ms' & Hms' & Hfrom).
  now rewrite (parses_unique s ms H ms' Hms') in Hfrom.
Qed.

Lemma no_lbracket_not_code x l tail :
  no_unit lbracket (x :: l) = true -> ~ occurs_at ((x :: l) ++ tail).
Proof.
  intros Hno Hocc. destruct (occurs_at_lbracket _ Hocc) as (u & Hu).
  cbn [app] in Hu. injection Hu as Hx _. subst x.
  cbn [no_unit forallb] in Hno. now rewrite N.eqb_refl in Hno.
Qed.

Lemma parses_prefix pre s ms :
  no_unit lbracket pre = true -> parses s ms -> parses (pre ++ s) ms.
Proof.
  intros Hpre H.
  destruct H as [s Hnone | pre' ty kvs rest ms Hty Hkvs Hfree Hms].
  - constructor. intros a b Hab.
    apply app_eq_app in Hab as [l [[-> ->] | [-> ->]]].
    + destruct l as [|x l]; [now apply (Hnone [] s)|].
      rewrite no_unit_app in Hpre. apply andb_true_iff in Hpre as [_ Hl].
      now apply no_lbracket_not_code.
    + now apply (Hnone l b).
  - rewrite app_assoc. constructor; auto.
    intros a b Hab Hb.
    apply app_eq_app in Hab as [l [[-> ->] | [-> ->]]].
    + destruct l as [|x l]; [now apply (Hfree [] pre')|].
      rewrite no_unit_app in Hpre. apply andb_true_iff in Hpre as [_ Hl].
      rewrite <- app_assoc. now apply no_lbracket_not_code.
    + now apply (Hfree l b).
Qed.

(** X7: text without an opening bracket, such as escaped text, does not
    change what [from] finds after it. *)
Theorem from_after_text (pre text : jsstring) :
  no_unit lbracket pre = true -> from (pre ++ text) = from text.
Proof.
  intros Hpre. destruct (from_spec text) as (ms & Hms & ->).
  apply from_parses_eq. now apply parses_prefix.
Qed.

Lemma from_after_text_witness :
  no_unit lbracket (lit "hello ") = true
  /\ from (lit "hello " ++ lit "[CQ:at,qq=1] bye") = from (lit "[CQ:at,qq=1] bye").
Proof.
  split; [reflexivity|].
  apply (from_after_text (lit "hello ") (lit "[CQ:at,qq=1] bye")).
  reflexivity.
Defined.

Lemma from_code_then rest ty kvs :
  wf_type ty -> Forall wf_field kvs ->
  exists es,
    from rest = Returns es
    /\ from (code_text ty kvs ++ rest) = Returns (entity_of (ty, kvs) :: es).
Proof.
  intros Hty Hkvs. destruct (from_spec rest) as (ms & Hms & Hrest).
  exists (map entity_of ms). split; [exact Hrest|].
  apply (from_parses_eq (code_text ty kvs ++ rest) ((ty, kvs) :: ms)).
  apply (parses_code [] ty kvs rest ms Hty Hkvs); [|exact Hms].
  intros a b Hab Hb. symmetry in Hab. apply app_eq_nil in Hab as [_ ->].
  congruence.
Qed.

(** The text of an entity is the text of its fields that are not nil. *)
Lemma toString_present c :
  toString c = toString (mkCQCode (type c) (filter present (data c))).
Proof.
  rewrite !toString_serialize_spec. unfold serialize_spec. cbn [type data].
  assert (H : forall l : entries,
             filter present (filter present l) = filter present l).
  { induction l as [|kv l IH]; [reflexivity|]. cbn [filter].
    destruct (present kv) eqn:E; cbn [filter]; rewrite ?E; now rewrite IH. }
  now rewrite H.
Qed.

Lemma toString_string_fields c :
  Forall string_field (data c) ->
  toString c = code_text (type c) (map text_of (data c))
  /\ Forall wf_field (map text_of (data c)).
Proof.
  intros H. rewrite toString_serialize_spec, serialize_spec_code_text.
  rewrite (string_fields_present _ H). split; [reflexivity|].
  apply Forall_map. revert H. apply Forall_impl, string_field_wf.
Qed.

(** X8: the text of an entity followed by more text: [from] returns the
    entity, read back, and then what it finds in the text that follows. *)
Theorem from_toString_then (c : CQCode) (rest : jsstring) :
  wf_type (type c) -> NoDup (keys (data c)) ->
  ~ In proto_key (keys (data c)) -> Forall string_field (data c) ->
  exists es,
    from rest = Returns es
    /\ from (toString c ++ rest)
       = Returns (mkCQCode (type c) (object_of (data c)) :: es).
Proof.
  intros Hty Hnd Hproto Hfields.
  destruct (toString_string_fields c Hfields) as [-> Hwf].
  destruct (from_code_then rest (type c) (map text_of (data c)) Hty Hwf)
    as (es & Hrest & H).
  exists es. split; [exact Hrest|]. rewrite H. do 2 f_equal.
  unfold entity_of, new_CQCode. cbn [fst snd].
  rewrite (string_fields_object _ Hfields), map_of_entries_nodup;
    [reflexivity|].
  unfold keys. apply (Permutation_NoDup (l := map fst (data c)));
    [|exact Hnd].
  apply Permutation_map. symmetry. now apply object_of_perm.
Qed.

Lemma from_toString_then_witness :
  wf_type (type query_image) /\ NoDup (keys (data query_image))
  /\ ~ In proto_key (keys (data query_image))
  /\ Forall string_field (data query_image)
  /\ exists es,
       from (lit " and [CQ:at,qq=1]") = Returns es
       /\ from (toString query_image ++ lit " and [CQ:at,qq=1]")
          = Returns (mkCQCode (type query_image)
                       (object_of (data query_image)) :: es).
Proof.
  assert (Hty : wf_type (type query_image))
    by (split; [discriminate|reflexivity]).
  assert (Hnd : NoDup (keys (data query_image))).
  { repeat constructor; cbn; intuition discriminate. }
  assert (Hp : ~ In proto_key (keys (data query_image))).
  { cbn. intuition discriminate. }
  assert (Hf : Forall string_field (data query_image)).
  { repeat constructor; cbn [fst snd]; try discriminate.
    eexists. split; reflexivity. }
  split; [exact Hty|]. split; [exact Hnd|]. split; [exact Hp|].
  split; [exact Hf|].
  apply (from_toString_then query_image (lit " and [CQ:at,qq=1]")
           Hty Hnd Hp Hf).
Defined.

(** ** Round trips *)

Lemma keys_filter_NoDup (f : jsstring * value -> bool) (l : entries) :
  NoDup (keys l) -> NoDup (keys (filter f l)).
Proof.
  unfold keys. induction l as [|kv l IH]; [auto|]. cbn [map filter].
  intros H. inversion H as [|? ? Hnotin Hnd]; subst.
  destruct (f kv); [|auto]. cbn [map]. constructor; [|auto].
  intros Hin. apply Hnotin. apply in_map_iff in Hin as (kv' & Hk & Hin).
  apply filter_In in Hin as [Hin _]. apply in_map_iff. eauto.
Qed.

Lemma keys_filter_incl (f : jsstring * value -> bool) (l : entries) k :
  In k (keys (filter f l)) -> In k (keys l).
Proof.
  unfold keys. intros Hin. apply in_map_iff in Hin as (kv & Hk & Hin).
  apply filter_In in Hin as [Hin _]. apply in_map_iff. eauto.
Qed.

Lemma present_string_fields (l : entries) :
  Forall nil_or_string_field l -> Forall string_field (filter present l).
Proof.
  induction 1 as [|kv l [Hnil | Hs] _ IH]; cbn [filter]; [constructor| |].
  - unfold present. now rewrite Hnil.
  - destruct (present kv); [constructor|]; auto.
Qed.

Lemma from_toString_present c :
  wf_type (type c) -> NoDup (keys (data c)) ->
  ~ In proto_key (keys (data c)) ->
  Forall nil_or_string_field (data c) ->
  from (toString c)
  = Returns [mkCQCode (type c) (object_of (filter present (data c)))]
  /\ Permutation (object_of (filter present (data c)))
       (filter present (data c))
  /\ (Forall (fun k => array_index k = None) (keys (data c)) ->
      object_of (filter present (data c)) = filter present (data c)).
Proof.
  intros Hty Hnd Hproto Hfields.
  pose proof (keys_filter_NoDup present (data c) Hnd) as Hnd'.
  assert (Hproto' : ~ In proto_key (keys (filter present (data c))))
    by (intros Hin; apply Hproto; now apply (keys_filter_incl present)).
  pose proof (present_string_fields _ Hfields) as Hfields'.
  rewrite toString_present.
  destruct (from_toString_strings
              (mkCQCode (type c) (filter present (data c)))
              Hty Hnd' Hproto' Hfields') as [Hfrom Hperm].
  cbn [type data] in *. split; [exact Hfrom|]. split; [exact Hperm|].
  intros Hplain. apply object_of_plain; auto.
  rewrite Forall_forall in *. intros k Hk. apply Hplain.
  now apply (keys_filter_incl present).
Qed.

(** X9: the round trip of an entity whose values are strings or nil: the
    nil fields are dropped and every other field comes back as it was, also
    when its value holds commas, equals signs, brackets or [&]; the fields
    keep their order when no key is an array index.  The type is not empty
    and has no comma and no bracket, the keys are distinct, not empty, not
    [__proto__] and without an equals sign, and neither keys nor values
    hold a pictograph. *)
Theorem from_toString_values (c : CQCode) :
  wf_type (type c) -> NoDup (keys (data c)) ->
  ~ In proto_key (keys (data c)) ->
  Forall nil_or_string_field (data c) ->
  from (toString c)
  = Returns [mkCQCode (type c) (object_of (filter present (data c)))]
  /\ Permutation (object_of (filter present (data c)))
       (filter present (data c))
  /\ (Forall (fun k => array_index k = None) (keys (data c)) ->
      object_of (filter present (data c)) = filter present (data c)).
Proof.
  intros Hty Hnd Hproto Hfields.
  set (kept := filter present (data c)).
  assert (Hnd' : NoDup (keys kept)) by now apply keys_filter_NoDup.
  assert (Hproto' : ~ In proto_key (keys kept))
    by (intros Hin; apply Hproto; now apply (keys_filter_incl present)).
  assert (Hfields' : Forall string_field kept)
    by now apply present_string_fields.
  rewrite toString_present. fold kept.
  destruct (toString_string_fields (mkCQCode (type c) kept) Hfields')
    as [-> Hwf].
  cbn [type data] in *.
  pose proof (object_of_perm kept Hnd' Hproto') as Hperm.
  split; [|split; [exact Hperm|]].
  - rewrite (from_code_text _ _ Hty Hwf). unfold entity_of, new_CQCode.
    cbn [fst snd]. rewrite (string_fields_object _ Hfields').
    rewrite map_of_entries_nodup; [reflexivity|].
    unfold keys. apply (Permutation_NoDup (l := map fst kept)); [|exact Hnd'].
    apply Permutation_map. now symmetry.
  - intros Hplain. apply object_of_plain; auto.
    rewrite Forall_forall in *. intros k Hk. apply Hplain.
    now apply (keys_filter_incl present).
Qed.

Lemma from_toString_values_witness :
  wf_type (type reply_with_nil) /\ NoDup (keys (data reply_with_nil))
  /\ ~ In proto_key (keys (data reply_with_nil))
  /\ Forall nil_or_string_field (data reply_with_nil)
  /\ from (toString reply_with_nil)
     = Returns [mkCQCode (type reply_with_nil)
                  (object_of (filter present (data reply_with_nil)))].
Proof.
  assert (Hty : wf_type (type reply_with_nil))
    by (split; [discriminate|reflexivity]).
  assert (Hnd : NoDup (keys (data reply_with_nil))).
  { repeat constructor; cbn; intuition discriminate. }
  assert (Hp : ~ In proto_key (keys (data reply_with_nil))).
  { cbn. intuition discriminate. }
  assert (Hf : Forall nil_or_string_field (data reply_with_nil)).
  { constructor; [right|constructor; [left; reflexivity|constructor]].
    repeat split; cbn [fst snd]; try discriminate.
    eexists. split; reflexivity. }
  split; [exact Hty|]. split; [exact Hnd|]. split; [exact Hp|].
  split; [exact Hf|].
  apply (from_toString_values reply_with_nil Hty Hnd Hp Hf).
Defined.

(** ** The builders *)

Ltac field_side :=
  first
    [ left; reflexivity
    | right; unfold string_field; cbn [fst snd];
      split; [discriminate|];
      split; [reflexivity|];
      split; [reflexivity|];
      eexists; split; [reflexivity|assumption] ].

Ltac builder_side :=
  match goal with
  | |- wf_type _ => split; [discriminate|reflexivity]
  | |- NoDup _ => repeat constructor; cbn; intuition discriminate
  | |- ~ In _ _ => cbn; intuition discriminate
  | |- Forall nil_or_string_field _ =>
      repeat first [apply Forall_nil | apply Forall_cons; [field_side|]]
  | |- Forall _ _ => repeat constructor
  end.

Lemma from_builder ty o :
  wf_type ty -> NoDup (keys o) -> ~ In proto_key (keys o) ->
  Forall nil_or_string_field o ->
  Forall (fun k => array_index k = None) (keys o) ->
  from (toString (new_CQCode ty (Some o)))
  = Returns [mkCQCode ty (filter present o)].
Proof.
  intros Hty Hnd Hp Hf Hplain. unfold new_CQCode.
  rewrite (map_of_entries_nodup o Hnd).
  destruct (from_toString_present (mkCQCode ty o) Hty Hnd Hp Hf)
    as (H & _ & Hexact).
  cbn [type data] in *. now rewrite (Hexact Hplain) in H.
Qed.

(** X10: what [img] and [img64] write is read back by [from] as one image
    entity with the file as it was given, whatever commas, equals signs,
    brackets or [&] it holds, and with the type when one was given; file
    and type hold no pictograph. *)
Theorem from_img (file base64 : jsstring) (ty : option jsstring) :
  plain file -> plain base64 -> plain_variant ty ->
  from (img file (variant ty))
  = Returns [mkCQCode (lit "image")
               ((lit "file", VStr file) :: variant_fields ty)]
  /\ from (img64 base64 (variant ty))
     = Returns [mkCQCode (lit "image")
                  ((lit "file", VStr (lit "base64://" ++ base64))
                   :: variant_fields ty)].
Proof.
  unfold plain. intros Hfile Hb64 Hty.
  assert (Hb : has_pictograph (lit "base64://" ++ base64) = false)
    by (rewrite has_pictograph_low; [exact Hb64|reflexivity]).
  unfold img, img64, str_img.
  destruct ty as [t|]; cbn [variant variant_fields plain_variant] in *;
    unfold plain in *; split; rewrite from_builder; try reflexivity;
    builder_side.
Qed.

Lemma from_img_witness :
  plain (lit "http://x/y.png?a=1&b=2") /\ plain (lit "aGk=")
  /\ plain_variant (Some (lit "flash"))
  /\ from (img (lit "http://x/y.png?a=1&b=2") (variant (Some (lit "flash"))))
     = Returns [mkCQCode (lit "image")
                  ((lit "file", VStr (lit "http://x/y.png?a=1&b=2"))
                   :: variant_fields (Some (lit "flash")))].
Proof.
  split; [reflexivity|]. split; [reflexivity|]. split; [reflexivity|].
  apply (from_img (lit "http://x/y.png?a=1&b=2") (lit "aGk=")
           (Some (lit "flash")) eq_refl eq_refl eq_refl).
Defined.

(** X11: what [video], [share] and [record] write is read back by [from] as
    one entity with the fields as they were given, in their order; the
    arguments are strings without a pictograph. *)
Theorem from_video_share_record (file cover url title content image : jsstring) :
  Forall plain [file; cover; url; title; content; image] ->
  from (video (VStr file) (VStr cover))
  = Returns [mkCQCode (lit "video")
               [(lit "file", VStr file); (lit "cover", VStr cover)]]
  /\ from (share (VStr url) (VStr title) (VStr content) (VStr image))
     = Returns [mkCQCode (lit "share")
                  [(lit "url", VStr url); (lit "title", VStr title);
                   (lit "content", VStr content); (lit "image", VStr image)]]
  /\ from (record (VStr file))
     = Returns [mkCQCode (lit "record") [(lit "file", VStr file)]].
Proof.
  intros H. unfold plain in H.
  inversion H as [|? ? Hfile H1]; subst. inversion H1 as [|? ? Hcover H2]; subst.
  inversion H2 as [|? ? Hurl H3]; subst. inversion H3 as [|? ? Htitle H4]; subst.
  inversion H4 as [|? ? Hcontent H5]; subst.
  inversion H5 as [|? ? Himage _]; subst.
  unfold video, share, record.
  repeat split; rewrite from_builder; try reflexivity; builder_side.
Qed.

Lemma from_video_share_record_witness :
  Forall plain [lit "a.mp4"; lit "a.png"; lit "http://x/?q=1,2";
                lit "t[1]"; lit "a & b"; lit "i.png"]
  /\ from (share (VStr (lit "http://x/?q=1,2")) (VStr (lit "t[1]"))
             (VStr (lit "a & b")) (VStr (lit "i.png")))
     = Returns [mkCQCode (lit "share")
                  [(lit "url", VStr (lit "http://x/?q=1,2"));
                   (lit "title", VStr (lit "t[1]"));
                   (lit "content", VStr (lit "a & b"));
                   (lit "image", VStr (lit "i.png"))]].
Proof.
  assert (H : Forall plain [lit "a.mp4"; lit "a.png"; lit "http://x/?q=1,2";
                            lit "t[1]"; lit "a & b"; lit "i.png"])
    by (repeat constructor).
  split; [exact H|].
  apply (from_video_share_record (lit "a.mp4") (lit "a.png")
           (lit "http://x/?q=1,2") (lit "t[1]") (lit "a & b") (lit "i.png") H).
Defined.

(** ** Fields that are nil *)

Lemma filter_present_set_nil k v (m : entries) :
  isNil v = true ->
  filter present (map_set k v m) = filter present (map_delete k m).
Proof.
  intros Hv. induction m as [|[k' v'] m IH]; cbn [map_set map_delete filter].
  - unfold present. cbn [snd]. now rewrite Hv.
  - destruct (jsstring_eqb k' k); cbn [filter].
    + unfold present at 1. cbn [snd]. now rewrite Hv.
    + now rewrite IH.
Qed.

(** X12: for [toString], a field set to [undefined] or [null] is a field
    deleted: the text is the same. *)
Theorem toString_nil_is_deleted (c : CQCode) (key : jsstring) (v : value) :
  isNil v = true -> toString (set c key v) = toString (del c key).
Proof.
  intros Hv. rewrite (toString_present (set c key v)),
    (toString_present (del c key)).
  unfold set, del. cbn [type data]. now rewrite filter_present_set_nil.
Qed.

Lemma toString_nil_is_deleted_witness :
  isNil VNull = true
  /\ toString (set flash_image (lit "type") VNull)
     = toString (del flash_image (lit "type")).
Proof.
  split; [reflexivity|].
  apply (toString_nil_is_deleted flash_image (lit "type") VNull eq_refl).
Defined.

(** ** The fields of an entity *)

Lemma jsstring_eqb_refl k : jsstring_eqb k k = true.
Proof. now apply jsstring_eqb_eq. Qed.

Lemma jsstring_eqb_sym a b : jsstring_eqb a b = jsstring_eqb b a.
Proof.
  destruct (jsstring_eqb a b) eqn:E.
  - apply jsstring_eqb_eq in E. subst. symmetry. apply jsstring_eqb_refl.
  - apply jsstring_eqb_neq in E. symmetry. apply jsstring_eqb_neq. congruence.
Qed.

Lemma map_get_absent k m : ~ In k (keys m) -> map_get k m = VUndefined.
Proof.
  induction m as [|[k' v'] m IH]; [reflexivity|].
  cbn [keys map fst In map_get]. intros H.
  assert (Hne : jsstring_eqb k' k = false) by (apply jsstring_eqb_neq; tauto).
  rewrite Hne. apply IH. unfold keys. tauto.
Qed.

Lemma map_get_set_same k v m : map_get k (map_set k v m) = v.
Proof.
  induction m as [|[k' v'] m IH]; cbn [map_set map_get].
  - now rewrite jsstring_eqb_refl.
  - destruct (jsstring_eqb k' k) eqn:E; cbn [map_get]; now rewrite E.
Qed.

Lemma map_get_set_other k k' v m :
  k' <> k -> map_get k' (map_set k v m) = map_get k' m.
Proof.
  intros Hne. induction m as [|[k0 v0] m IH]; cbn [map_set map_get].
  - assert (E : jsstring_eqb k k' = false)
      by (apply jsstring_eqb_neq; congruence).
    now rewrite E.
  - destruct (jsstring_eqb k0 k) eqn:E; cbn [map_get].
    + apply jsstring_eqb_eq in E. subst k0.
      assert (E' : jsstring_eqb k k' = false)
        by (apply jsstring_eqb_neq; congruence).
      now rewrite E'.
    + now rewrite IH.
Qed.

Lemma map_get_delete_same k m :
  NoDup (keys m) -> map_get k (map_delete k m) = VUndefined.
Proof.
  induction m as [|[k' v'] m IH]; [reflexivity|].
  cbn [keys map fst map_delete]. intros H.
  inversion H as [|? ? Hnotin Hnd]; subst.
  destruct (jsstring_eqb k' k) eqn:E.
  - apply jsstring_eqb_eq in E. subst k'. now apply map_get_absent.
  - cbn [map_get]. rewrite E. now apply IH.
Qed.

Lemma map_get_delete_other k k' m :
  k' <> k -> map_get k' (map_delete k m) = map_get k' m.
Proof.
  intros Hne. induction m as [|[k0 v0] m IH]; [reflexivity|].
  cbn [map_delete map_get]. destruct (jsstring_eqb k0 k) eqn:E.
  - apply jsstring_eqb_eq in E. subst k0.
    assert (E' : jsstring_eqb k k' = false)
      by (apply jsstring_eqb_neq; congruence).
    now rewrite E'.
  - cbn [map_get]. now rewrite IH.
Qed.

(** X13: [get] after [set] and [del]: a key that was set has the value
    set, a key that was deleted has [undefined], and no other key changes;
    neither changes the type. *)
Theorem get_after_set_del (c : CQCode) (key other : jsstring) (v : value) :
  NoDup (keys (data c)) -> other <> key ->
  get (set c key v) key = v
  /\ get (del c key) key = VUndefined
  /\ get (set c key v) other = get c other
  /\ get (del c key) other = get c other
  /\ type (set c key v) = type c /\ type (del c key) = type c.
Proof.
  intros Hnd Hne. unfold get, set, del. cbn [data type].
  repeat split.
  - apply map_get_set_same.
  - now apply map_get_delete_same.
  - now apply map_get_set_other.
  - now apply map_get_delete_other.
Qed.

Lemma get_after_set_del_witness :
  NoDup (keys (data flash_image)) /\ lit "file" <> lit "type"
  /\ get (set flash_image (lit "type") (VStr (lit "show"))) (lit "type")
     = VStr (lit "show")
  /\ get (del flash_image (lit "type")) (lit "type") = VUndefined.
Proof.
  assert (Hnd : NoDup (keys (data flash_image))).
  { repeat constructor; cbn; intuition discriminate. }
  assert (Hne : lit "file" <> lit "type") by discriminate.
  split; [exact Hnd|]. split; [exact Hne|].
  destruct (get_after_set_del flash_image (lit "type") (lit "file")
              (VStr (lit "show")) Hnd Hne) as (H1 & H2 & _).
  split; [exact H1|exact H2].
Defined.

Lemma keys_map_set_present k v m :
  map_has k m = true -> keys (map_set k v m) = keys m.
Proof.
  induction m as [|[k' v'] m IH]; [discriminate|].
  cbn [map_has map_set]. destruct (jsstring_eqb k' k) eqn:E.
  - reflexivity.
  - cbn [orb keys map fst]. intros H. f_equal. now apply IH.
Qed.

Lemma map_has_true k m : map_has k m = true <-> In k (keys m).
Proof.
  destruct (map_has k m) eqn:E.
  - split; [|reflexivity]. intros _.
    destruct (in_dec (list_eq_dec N.eq_dec) k (keys m)) as [H|H]; [exact H|].
    apply map_has_false in H. congruence.
  - apply map_has_false in E. split; [discriminate|tauto].
Qed.

Lemma map_set_NoDup k v m : NoDup (keys m) -> NoDup (keys (map_set k v m)).
Proof.
  intros H. destruct (map_has k m) eqn:E.
  - now rewrite keys_map_set_present.
  - rewrite map_set_fresh by exact E. unfold keys. rewrite map_app.
    cbn [map fst]. apply NoDup_app_remove_l with (l := []).
    cbn [app]. apply (Permutation_NoDup (l := k :: map fst m)).
    + apply Permutation_cons_append.
    + constructor; [now apply map_has_false|exact H].
Qed.

Lemma keys_map_delete_incl k x m :
  In x (keys (map_delete k m)) -> In x (keys m).
Proof.
  induction m as [|[k0 v0] m IH]; [auto|]. cbn [map_delete].
  destruct (jsstring_eqb k0 k); unfold keys in *; cbn [map fst In].
  - now right.
  - intros [H | H]; [now left|right; now apply IH].
Qed.

Lemma map_delete_NoDup k m : NoDup (keys m) -> NoDup (keys (map_delete k m)).
Proof.
  induction m as [|[k' v'] m IH]; [auto|]. cbn [keys map fst map_delete].
  intros H. inversion H as [|? ? Hnotin Hnd]; subst.
  destruct (jsstring_eqb k' k); [exact Hnd|].
  cbn [keys map fst]. constructor; [|now apply IH].
  intros Hin. apply Hnotin. now apply (keys_map_delete_incl k).
Qed.

Lemma map_of_entries_NoDup l : NoDup (keys (map_of_entries l)).
Proof.
  unfold map_of_entries.
  assert (H : forall acc,
             NoDup (keys acc) ->
             NoDup (keys (fold_left
                            (fun m kv => map_set (fst kv) (snd kv) m) l acc))).
  { induction l as [|kv l IH]; intros acc Hacc; [exact Hacc|].
    cbn [fold_left]. apply IH. now apply map_set_NoDup. }
  apply H. constructor.
Qed.

Lemma mset_data c obj :
  data (mset c obj)
  = fold_left (fun m kv => map_set (fst kv) (snd kv) m) obj (data c)
  /\ type (mset c obj) = type c.
Proof.
  unfold mset. revert c.
  induction obj as [|kv obj IH]; intros c; [split; reflexivity|].
  cbn [fold_left]. destruct (IH (set c (fst kv) (snd kv))) as [-> ->].
  split; reflexivity.
Qed.

(** X14: the keys of an entity stay distinct: the constructor makes them
    so, whatever object it is given, and [set], [del] and [mset] keep them
    so. *)
Theorem keys_stay_distinct :
  (forall ty o, NoDup (keys (data (new_CQCode ty o))))
  /\ (forall c key v,
         NoDup (keys (data c)) -> NoDup (keys (data (set c key v))))
  /\ (forall c key,
         NoDup (keys (data c)) -> NoDup (keys (data (del c key))))
  /\ (forall c obj,
         NoDup (keys (data c)) -> NoDup (keys (data (mset c obj)))).
Proof.
  repeat split.
  - intros ty [o|]; cbn [new_CQCode data];
      [apply map_of_entries_NoDup|constructor].
  - intros c key v H. now apply map_set_NoDup.
  - intros c key H. now apply map_delete_NoDup.
  - intros c obj H. destruct (mset_data c obj) as [-> _].
    revert H. generalize (data c).
    induction obj as [|kv obj IH]; intros m Hm; [exact Hm|].
    cbn [fold_left]. apply IH. now apply map_set_NoDup.
Qed.

Lemma fold_map_set_other k (obj m : entries) :
  ~ In k (keys obj) ->
  map_get k (fold_left (fun m kv => map_set (fst kv) (snd kv) m) obj m)
  = map_get k m.
Proof.
  revert m. induction obj as [|[k0 v0] obj IH]; intros m H; [reflexivity|].
  cbn [keys map fst In] in H. cbn [fold_left fst snd].
  rewrite IH by (unfold keys; tauto).
  apply map_get_set_other. intros ->. tauto.
Qed.

Lemma fold_map_set_in k v (obj m : entries) :
  NoDup (keys obj) -> In (k, v) obj ->
  map_get k (fold_left (fun m kv => map_set (fst kv) (snd kv) m) obj m) = v.
Proof.
  revert m. induction obj as [|[k0 v0] obj IH]; intros m Hnd Hin;
    [destruct Hin|].
  cbn [keys map fst] in Hnd. inversion Hnd as [|? ? Hnotin Hnd']; subst.
  cbn [fold_left fst snd]. destruct Hin as [Heq | Hin].
  - injection Heq as -> ->. rewrite fold_map_set_other by exact Hnotin.
    apply map_get_set_same.
  - now apply IH.
Qed.

(** X15: [get] after [mset]: a key of the object has the value the object
    gives it, and a key that the object does not have keeps its value. *)
Theorem get_after_mset (c : CQCode) (obj : entries) (key : jsstring) :
  NoDup (keys obj) ->
  (forall v, In (key, v) obj -> get (mset c obj) key = v)
  /\ (~ In key (keys obj) -> get (mset c obj) key = get c key)
  /\ type (mset c obj) = type c.
Proof.
  intros Hnd. unfold get. destruct (mset_data c obj) as [-> ->].
  repeat split.
  - intros v Hin. now apply fold_map_set_in.
  - intros Hnotin. now apply fold_map_set_other.
Qed.

Lemma get_after_mset_witness :
  NoDup (keys [(lit "type", VStr (lit "show")); (lit "id", VNum 7)])
  /\ get (mset flash_image
            [(lit "type", VStr (lit "show")); (lit "id", VNum 7)])
         (lit "type") = VStr (lit "show")
  /\ get (mset flash_image
            [(lit "type", VStr (lit "show")); (lit "id", VNum 7)])
         (lit "file") = get flash_image (lit "file").
Proof.
  assert (Hnd : NoDup (keys [(lit "type", VStr (lit "show"));
                             (lit "id", VNum 7)])).
  { repeat constructor; cbn; intuition discriminate. }
  split; [exact Hnd|].
  destruct (get_after_mset flash_image
              [(lit "type", VStr (lit "show")); (lit "id", VNum 7)]
              (lit "type") Hnd) as (H1 & _).
  destruct (get_after_mset flash_image
              [(lit "type", VStr (lit "show")); (lit "id", VNum 7)]
              (lit "file") Hnd) as (_ & H2 & _).
  split.
  - apply H1. left. reflexivity.
  - apply H2. cbn. intuition discriminate.
Defined.

(** ** The entities that [from] returns *)

Lemma keys_obj_insert k v o :
  Permutation (keys (obj_insert k v o)) (k :: keys o).
Proof.
  unfold keys. change (k :: map fst o) with (map fst ((k, v) :: o)).
  apply Permutation_map, obj_insert_perm.
Qed.

Lemma obj_set_NoDup k v o : NoDup (keys o) -> NoDup (keys (obj_set k v o)).
Proof.
  intros H. unfold obj_set. destruct (jsstring_eqb k proto_key); [exact H|].
  destruct (map_has k o) eqn:E.
  - now rewrite keys_map_set_present.
  - apply (Permutation_NoDup (l := k :: keys o)).
    + symmetry. apply keys_obj_insert.
    + constructor; [now apply map_has_false|exact H].
Qed.

Lemma obj_set_keys k v o x :
  In x (keys (obj_set k v o)) -> (x = k /\ k <> proto_key) \/ In x (keys o).
Proof.
  unfold obj_set. destruct (jsstring_eqb k proto_key) eqn:Ep; [auto|].
  apply jsstring_eqb_neq in Ep. destruct (map_has k o) eqn:E.
  - rewrite keys_map_set_present by exact E. auto.
  - intros Hin.
    apply (Permutation_in _ (keys_obj_insert k v o)) in Hin as [<- | Hin];
      auto.
Qed.

Lemma replace_not_empty r rep s : rep <> [] -> s <> [] -> replace r rep s <> [].
Proof.
  intros Hrep Hs. destruct s as [|c s]; [congruence|].
  unfold replace. cbn [replace_from].
  destruct (match_here r (c :: s)) as [[rest caps]|]; [|discriminate].
  destruct (length (c :: s) - length rest); intros H;
    apply app_eq_nil in H as [H _]; congruence.
Qed.

Lemma unescape_str_not_empty s : s <> [] -> unescape_str s <> [].
Proof.
  intros H. unfold unescape_str.
  repeat apply replace_not_empty; try discriminate. exact H.
Qed.

Lemma pairs_object_keys kvs :
  Forall wf_field kvs ->
  NoDup (keys (pairs_object kvs))
  /\ forall x, In x (keys (pairs_object kvs)) -> x <> proto_key /\ x <> [].
Proof.
  intros Hwf. unfold pairs_object.
  assert (H : forall acc,
             NoDup (keys acc) ->
             (forall x, In x (keys acc) -> x <> proto_key /\ x <> []) ->
             let o := fold_left
                        (fun obj (kv : jsstring * jsstring) =>
                           obj_set (unescape_str (fst kv))
                             (VStr (unescape_str (snd kv))) obj) kvs acc in
             NoDup (keys o)
             /\ forall x, In x (keys o) -> x <> proto_key /\ x <> []).
  { induction Hwf as [|kv kvs (Hne & _) _ IH]; intros acc Hnd Hkeys;
      [split; assumption|].
    cbn [fold_left]. apply IH; [now apply obj_set_NoDup|].
    intros x Hin. apply obj_set_keys in Hin as [[-> Hp] | Hin]; [|auto].
    split; [exact Hp|now apply unescape_str_not_empty]. }
  apply (H []); [constructor|]. intros x [].
Qed.

(** X16: every entity that [from] returns has a type that is not empty and
    has no comma and no bracket, and keys that are distinct, not empty and
    not [__proto__]. *)
Theorem from_entities_well_formed (str : jsstring) :
  exists es,
    from str = Returns es
    /\ Forall (fun e =>
                 wf_type (type e) /\ NoDup (keys (data e))
                 /\ ~ In proto_key (keys (data e))
                 /\ ~ In [] (keys (data e))) es.
Proof.
  destruct (from_spec str) as (ms & Hms & H).
  exists (map entity_of ms). split; [exact H|].
  apply Forall_forall. intros e Hin. apply in_map_iff in Hin as (m & <- & Hin).
  destruct (parses_sound str ms Hms m Hin) as (_ & _ & _ & Hty & Hkvs).
  destruct (pairs_object_keys (snd m) Hkvs) as [Hnd Hkeys].
  unfold entity_of, new_CQCode. cbn [type data].
  rewrite (map_of_entries_nodup _ Hnd).
  repeat split; auto; try apply Hty; intros Hin'.
  - now destruct (Hkeys _ Hin').
  - now destruct (Hkeys _ Hin').
Qed.

Lemma map_get_obj_insert k v o :
  ~ In k (keys o) -> map_get k (obj_insert k v o) = v.
Proof.
  induction o as [|[k0 v0] o IH]; cbn [obj_insert keys map fst In].
  - intros _. cbn [map_get]. now rewrite jsstring_eqb_refl.
  - intros H.
    assert (E : jsstring_eqb k0 k = false) by (apply jsstring_eqb_neq; tauto).
    assert (IH' : map_get k (obj_insert k v o) = v)
      by (apply IH; unfold keys; tauto).
    destruct (array_index k) as [i|]; [destruct (array_index k0) as [i0|]|].
    + destruct (N.ltb i i0); cbn [map_get].
      * now rewrite jsstring_eqb_refl.
      * now rewrite E.
    + cbn [map_get]. now rewrite jsstring_eqb_refl.
    + cbn [map_get]. now rewrite E.
Qed.

Lemma map_get_obj_set k v o :
  k <> proto_key -> map_get k (obj_set k v o) = v.
Proof.
  intros Hp. unfold obj_set. apply jsstring_eqb_neq in Hp. rewrite Hp.
  destruct (map_has k o) eqn:E.
  - apply map_get_set_same.
  - apply map_get_obj_insert. now apply map_has_false.
Qed.

(** X17: when a code holds a key more than once, the last pair wins: the
    entity has, for the key of the last pair of the code, the value of that
    pair. *)
Theorem from_last_pair_wins (ty : jsstring)
    (kvs : list (jsstring * jsstring)) (k v : jsstring) :
  wf_type ty -> Forall wf_field (kvs ++ [(k, v)]) ->
  unescape_str k <> proto_key ->
  exists e,
    from (code_text ty (kvs ++ [(k, v)])) = Returns [e]
    /\ type e = ty
    /\ get e (unescape_str k) = VStr (unescape_str v).
Proof.
  intros Hty Hwf Hp. rewrite (from_code_text ty _ Hty Hwf).
  eexists. split; [reflexivity|]. split; [reflexivity|].
  destruct (pairs_object_keys _ Hwf) as [Hnd _].
  unfold get, entity_of, new_CQCode. cbn [fst snd data].
  rewrite (map_of_entries_nodup _ Hnd). unfold pairs_object.
  rewrite fold_left_app. cbn [fold_left fst snd].
  now apply map_get_obj_set.
Qed.

Lemma from_last_pair_wins_witness :
  wf_type (lit "x")
  /\ Forall wf_field ([(lit "a", lit "1"); (lit "b", lit "2")]
                      ++ [(lit "a", lit "3")])
  /\ unescape_str (lit "a") <> proto_key
  /\ exists e,
       from (lit "[CQ:x,a=1,b=2,a=3]") = Returns [e]
       /\ type e = lit "x"
       /\ get e (lit "a") = VStr (lit "3").
Proof.
  assert (Hty : wf_type (lit "x")) by (split; [discriminate|reflexivity]).
  assert (Hwf : Forall wf_field ([(lit "a", lit "1"); (lit "b", lit "2")]
                                 ++ [(lit "a", lit "3")])).
  { repeat constructor; discriminate. }
  assert (Hp : unescape_str (lit "a") <> proto_key) by discriminate.
  split; [exact Hty|]. split; [exact Hwf|]. split; [exact Hp|].
  apply (from_last_pair_wins (lit "x") [(lit "a", lit "1"); (lit "b", lit "2")]
           (lit "a") (lit "3") Hty Hwf Hp).
Defined.

(** ** More on [imgPreDl] *)

Module PrefetchMore.
Import Prefetch CacheExamples.

Section Collaborators.

Context {world error config bytes : Type}.
Variable getCache : jsstring -> world -> res error (option jsstring) * world.
Variable retryGet :
  jsstring -> request (config := config) -> world -> res error bytes * world.
Variable createCache :
  jsstring -> bytes -> world -> res error jsstring * world.
Variable pathToFileURL : jsstring -> jsstring.
Variable logError : payload (error := error) -> world -> world.

#[local] Abbreviation run :=
  (imgPreDl getCache retryGet createCache pathToFileURL logError).

#[local] Abbreviation file_image path ty :=
  (toString
     (new_CQCode (lit "image")
        (Some [(lit "file", VUrl (pathToFileURL path)); (lit "type", ty)]))).

Lemma run_miss url ty cfg st path w1 content w2 p w3 :
  getCache url (ext st) = (Ok path, w1) -> truthy_path path = false ->
  retryGet url (mkRequest arraybuffer cfg) w1 = (Ok content, w2) ->
  createCache url content w2 = (Ok p, w3) ->
  run url ty cfg st
  = (Ok (file_image p ty),
     mkState w3
       (trace st
        ++ [EvGetCache url; EvLimitEnter;
            EvRetryGet url (mkRequest arraybuffer cfg); EvLimitLeave;
            EvCreateCache url content])).
Proof.
  intros Hget Hfalsy Hdl Hput.
  unfold imgPreDl, try_block, bind, call, dlImgLimit. rewrite Hget.
  destruct path as [[|c q]|]; try discriminate; cbn [ext trace];
    rewrite Hdl; cbn [ext trace]; rewrite Hput; cbn [ext trace];
    now rewrite <- !app_assoc.
Qed.

Lemma run_hit url ty cfg st c q w1 :
  getCache url (ext st) = (Ok (Some (c :: q)), w1) ->
  run url ty cfg st
  = (Ok (file_image (c :: q) ty), mkState w1 (trace st ++ [EvGetCache url])).
Proof.
  intros H. unfold imgPreDl, try_block, bind, call. now rewrite H.
Qed.

(** X18: on a miss, when the transport returns the content and the cache
    stores it, [imgPreDl] returns the image code of the stored path as a
    file URL; it has called the lookup, the transport once inside the
    limiter, and the store with the url and the content, and has not called
    the logger. *)
Theorem imgPreDl_miss_stores url ty cfg st path w1 content w2 p w3 :
  getCache url (ext st) = (Ok path, w1) -> truthy_path path = false ->
  retryGet url (mkRequest arraybuffer cfg) w1 = (Ok content, w2) ->
  createCache url content w2 = (Ok p, w3) ->
  run url ty cfg st
  = (Ok (file_image p ty),
     mkState w3
       (trace st
        ++ [EvGetCache url; EvLimitEnter;
            EvRetryGet url (mkRequest arraybuffer cfg); EvLimitLeave;
            EvCreateCache url content]))
  /\ logs (snd (run url ty cfg st)) = logs st.
Proof.
  intros Hget Hfalsy Hdl Hput.
  rewrite (run_miss url ty cfg st path w1 content w2 p w3 Hget Hfalsy Hdl Hput).
  split; [reflexivity|]. unfold logs. cbn [snd trace].
  rewrite filter_app. cbn [filter is_log]. now rewrite app_nil_r.
Qed.

(** X20: a later call finds an earlier download: with a cache that keeps
    what it is given, after a call that downloaded and stored the image a
    second call for the same url returns the same text and calls the
    lookup only, not the transport, the limiter or the store. *)
Theorem imgPreDl_second_call url ty cfg st path w1 content w2 p w3 :
  cache_keeps getCache createCache ->
  getCache url (ext st) = (Ok path, w1) -> truthy_path path = false ->
  retryGet url (mkRequest arraybuffer cfg) w1 = (Ok content, w2) ->
  createCache url content w2 = (Ok p, w3) ->
  let first := run url ty cfg st in
  let second := run url ty cfg (snd first) in
  fst second = fst first
  /\ trace (snd second) = trace (snd first) ++ [EvGetCache url]
  /\ ext (snd second) = ext (snd first).
Proof.
  intros Hkeeps Hget Hfalsy Hdl Hput. cbv zeta.
  rewrite (run_miss url ty cfg st path w1 content w2 p w3 Hget Hfalsy Hdl Hput).
  cbn [fst snd]. destruct (Hkeeps url content w2 p w3 Hput) as [Hne Hget2].
  destruct p as [|c q]; [congruence|].
  rewrite (run_hit url ty cfg _ c q w3) by exact Hget2.
  cbn [fst snd trace ext]. auto.
Qed.

(** X21: in what a call of [imgPreDl] adds to the trace, the transport is
    called at most once and only inside a slot of the limiter, and the slot
    is given back before the call returns, also when a stage fails. *)
Theorem imgPreDl_releases_slot url ty cfg st :
  exists added,
    trace (snd (run url ty cfg st)) = trace st ++ added
    /\ bracketed false added = true
    /\ length (filter is_transport added) <= 1.
Proof.
  unfold imgPreDl, try_block, bind, call, dlImgLimit, log.
  destruct (getCache url (ext st)) as [[path|e] w1]; cbn [ext trace snd].
  - destruct path as [[|c q]|]; cbn [ext trace snd].
    2:{ eexists. split; [reflexivity|]. split; [reflexivity|cbn; lia]. }
    all: destruct (retryGet url _ w1) as [[ct|e] w2]; cbn [ext trace snd];
      [destruct (createCache url ct w2) as [[p'|e] w3]; cbn [ext trace snd]|];
      rewrite <- ?app_assoc; cbn [app];
      (eexists; split; [reflexivity|]; split; [reflexivity|cbn; lia]).
  - rewrite <- ?app_assoc. cbn [app].
    eexists. split; [reflexivity|]. split; [reflexivity|cbn; lia].
Qed.

End Collaborators.

Lemma imgPreDl_miss_stores_witness :
  one_file_lookup PrefetchExamples.url (ext empty) = (Ok None, None)
  /\ truthy_path None = false
  /\ working_transport PrefetchExamples.url (mkRequest arraybuffer tt) None
     = (Ok tt, None)
  /\ one_file_store PrefetchExamples.url tt None
     = (Ok (lit "/cache/y.png"), Some (lit "/cache/y.png"))
  /\ fst (imgPreDl one_file_lookup working_transport one_file_store
            PrefetchExamples.file_url quiet PrefetchExamples.url VUndefined
            tt empty)
     = Ok (lit "[CQ:image,file=file:///cache/y.png]").
Proof.
  split; [reflexivity|]. split; [reflexivity|]. split; [reflexivity|].
  split; [reflexivity|].
  destruct (imgPreDl_miss_stores one_file_lookup working_transport
              one_file_store PrefetchExamples.file_url quiet
              PrefetchExamples.url VUndefined tt empty None None tt None
              (lit "/cache/y.png") (Some (lit "/cache/y.png"))
              eq_refl eq_refl eq_refl eq_refl) as [H _].
  rewrite H. reflexivity.
Defined.

Lemma imgPreDl_second_call_witness :
  cache_keeps one_file_lookup one_file_store
  /\ let first := imgPreDl one_file_lookup working_transport one_file_store
                    PrefetchExamples.file_url quiet PrefetchExamples.url
                    VUndefined tt empty in
     let second := imgPreDl one_file_lookup working_transport one_file_store
                     PrefetchExamples.file_url quiet PrefetchExamples.url
                     VUndefined tt (snd first) in
     fst second = fst first
     /\ trace (snd second)
        = trace (snd first) ++ [EvGetCache PrefetchExamples.url]
     /\ ext (snd second) = ext (snd first).
Proof.
  assert (Hkeeps : cache_keeps one_file_lookup one_file_store).
  { intros u ct w p w' H. unfold one_file_store in H.
    injection H as <- <-. split; [discriminate|reflexivity]. }
  split; [exact Hkeeps|].
  apply (imgPreDl_second_call one_file_lookup working_transport
           one_file_store PrefetchExamples.file_url quiet
           PrefetchExamples.url VUndefined tt empty None None tt None
           (lit "/cache/y.png") (Some (lit "/cache/y.png"))
           Hkeeps eq_refl eq_refl eq_refl eq_refl).
Defined.

End PrefetchMore.

(** ** Pre-download with a logger that may throw *)

Module PrefetchThrowFacts.
Import Prefetch.

Section Collaborators.

Context {world error config bytes : Type}.
Variable getCache : jsstring -> world -> res error (option jsstring) * world.
Variable retryGet :
  jsstring -> request (config := config) -> world -> res error bytes * world.
Variable createCache :
  jsstring -> bytes -> world -> res error jsstring * world.

#[local] Abbreviation state' :=
  (state (world := world) (error := error) (config := config)
     (bytes := bytes)).

Lemma logs_added (st : state') (w : world) (tr : list event) :
  logs (mkState w (trace st ++ tr)) = logs st + length (filter is_log tr).
Proof.
  unfold logs. cbn [trace]. now rewrite filter_app, length_app.
Qed.

(** With a path conversion and a logger that return, the lines are those of
    [Prefetch.imgPreDl]. *)
Lemma imgPreDl_total_collaborators
    (pathToFileURL : jsstring -> jsstring)
    (logError : payload (error := error) -> world -> world)
    url ty cfg (st : state') :
  PrefetchThrow.imgPreDl getCache retryGet createCache
    (fun path => Ok (pathToFileURL path))
    (fun p w => (Ok tt, logError p w)) url ty cfg st
  = Prefetch.imgPreDl getCache retryGet createCache pathToFileURL logError
      url ty cfg st.
Proof.
  unfold PrefetchThrow.imgPreDl, PrefetchThrow.try_block,
    PrefetchThrow.catch_block, PrefetchThrow.throwing, Prefetch.imgPreDl,
    Prefetch.try_block, bind, call, dlImgLimit, ret, log.
  destruct (getCache url (ext st)) as [[path|e] w1]; cbn [ext trace].
  - destruct path as [[|c q]|]; cbn [ext trace]; [| reflexivity |].
    all: destruct (retryGet url _ w1) as [[ct|e] w2]; cbn [ext trace];
      [destruct (createCache url ct w2) as [[p'|e] w3]; cbn [ext trace]|];
      reflexivity.
  - reflexivity.
Qed.

Variable pathToFileURL : jsstring -> res error jsstring.
Variable logError :
  payload (error := error) -> world -> res error unit * world.

#[local] Abbreviation try_part :=
  (PrefetchThrow.try_block getCache retryGet createCache pathToFileURL).

#[local] Abbreviation run :=
  (PrefetchThrow.imgPreDl getCache retryGet createCache pathToFileURL
     logError).

#[local] Abbreviation sent_from :=
  (PrefetchThrow.cache_path getCache retryGet createCache).

(** The [try] block does not call the logger, and what it returns is the
    image code of a path of the cache as a file URL. *)
Lemma try_block_outcome url ty cfg (st : state') :
  exists r st',
    try_part url ty cfg st = (r, st')
    /\ logs st' = logs st
    /\ forall text,
         r = Ok text ->
         exists path href,
           sent_from url cfg (ext st) path
           /\ pathToFileURL path = Ok href
           /\ text = str_img (VUrl href) ty.
Proof.
  unfold PrefetchThrow.try_block, PrefetchThrow.throwing, bind, call,
    dlImgLimit, ret.
  destruct (getCache url (ext st)) as [[found|e] w1] eqn:Hget;
    cbn [ext trace].
  - destruct found as [[|c q]|]; cbn [ext trace].
    2:{ destruct (pathToFileURL (c :: q)) as [href|e] eqn:Hurl.
        - eexists. eexists. split; [reflexivity|].
          split; [rewrite logs_added; cbn; lia|].
          intros text Htext. injection Htext as <-.
          exists (c :: q), href. split; [|split; [exact Hurl|reflexivity]].
          left. exists w1. split; [exact Hget|discriminate].
        - eexists. eexists. split; [reflexivity|].
          split; [rewrite logs_added; cbn; lia|discriminate]. }
    all: destruct (retryGet url _ w1) as [[ct|e] w2] eqn:Hdl;
      cbn [ext trace];
      [destruct (createCache url ct w2) as [[p'|e] w3] eqn:Hput;
         cbn [ext trace];
         [destruct (pathToFileURL p') as [href|e] eqn:Hurl|]|];
      (eexists; eexists; split; [reflexivity|];
       split; [rewrite <- ?app_assoc, logs_added; cbn; lia|]);
      try discriminate;
      intros text Htext; injection Htext as <-;
      exists p', href; (split; [|split; [exact Hurl|reflexivity]]);
      right; eexists; exists w1, ct, w2, w3;
      (split; [exact Hget|]); (split; [reflexivity|]); auto.
  - eexists. eexists. split; [reflexivity|].
    split; [rewrite logs_added; cbn; lia|discriminate].
Qed.

(** X19: [imgPreDl] ends in one of three ways.  It returns the image code
    of a path of the cache (found by the lookup, or returned by the store
    after the download) as a file URL, and has not called the logger.  Or
    it returns the image code of the url itself, and has called the logger
    twice.  Or it rejects, and then with an error that the logger threw,
    in its first or its second call: an error of the lookup, the transport,
    the store or [pathToFileURL] never leaves the call. *)
Theorem imgPreDl_outcome url ty cfg (st : state') :
  exists r st',
    run url ty cfg st = (r, st')
    /\ ((exists path href,
           sent_from url cfg (ext st) path
           /\ pathToFileURL path = Ok href
           /\ r = Ok (str_img (VUrl href) ty)
           /\ logs st' = logs st)
        \/ (r = Ok (img url ty) /\ logs st' = logs st + 2)
        \/ (exists e p w w',
              r = Err e
              /\ logError p w = (Err e, w')
              /\ (logs st' = logs st + 1 \/ logs st' = logs st + 2))).
Proof.
  unfold PrefetchThrow.imgPreDl.
  destruct (try_block_outcome url ty cfg st) as (r & st1 & -> & Hlogs & Hok).
  destruct r as [text|e].
  - exists (Ok text), st1. split; [reflexivity|]. left.
    destruct (Hok text eq_refl) as (path & href & Hpath & Hurl & ->).
    exists path, href. auto.
  - unfold PrefetchThrow.catch_block, bind, call, ret.
    destruct (logError (LogMessage log_message) (ext st1))
      as [[[]|e1] wa] eqn:H1; cbn [ext trace].
    + destruct (logError (LogThrown e) wa) as [[[]|e2] wb] eqn:H2.
      * eexists. eexists. split; [reflexivity|]. right. left.
        split; [reflexivity|].
        rewrite <- app_assoc, logs_added. cbn. lia.
      * eexists. eexists. split; [reflexivity|]. right. right.
        exists e2, (LogThrown e), wa, wb.
        split; [reflexivity|]. split; [exact H2|]. right.
        rewrite <- app_assoc, logs_added. cbn. lia.
    + eexists. eexists. split; [reflexivity|]. right. right.
      exists e1, (LogMessage log_message), (ext st1), wa.
      split; [reflexivity|]. split; [exact H1|]. left.
      rewrite logs_added. cbn. lia.
Qed.

End Collaborators.

(** The third way happens: with an empty cache, a transport that fails and
    a logger that fails, the call rejects with the error of the logger
    after one call of it, and the error of the transport is lost. *)
Example imgPreDl_broken_logger_rejects :
  PrefetchThrow.imgPreDl PrefetchExamples.empty_cache
    PrefetchExamples.failing_transport PrefetchExamples.store
    (fun path => Ok (PrefetchExamples.file_url path))
    PrefetchThrow.broken_logger PrefetchExamples.url VUndefined tt
    PrefetchExamples.fresh
  = (Err (lit "EPIPE"),
     mkState tt
       [EvGetCache PrefetchExamples.url; EvLimitEnter;
        EvRetryGet PrefetchExamples.url (mkRequest arraybuffer tt);
        EvLimitLeave; EvLogError (LogMessage log_message)]).
Proof. reflexivity. Qed.

End PrefetchThrowFacts.
